(** * Specification-processing core of the protocol-definition compiler

    A shallow embedding of [util.py]: the version registry, the message-id
    assigner, the data-flow analyzer, the schema and ordering validator, the
    artifact writer and the codec emission loops, followed by the properties
    established about them. *)

From Stdlib Require Import ZArith Lia String Ascii List Bool.
From stdpp Require Import gmap strings list fin_maps.

Open Scope string_scope.
Open Scope list_scope.
Open Scope Z_scope.

(** ** Python values and builtins used by the module *)

(** Exceptions that the modelled code can raise or let through. *)
Inductive exn : Type :=
| ValueError
| TypeError
| IndexError
| KeyError
| NotImplementedError (msg : string)
| OtherError (name : string).

(** Outcome of a call that either returns or raises. *)
Inductive res (A : Type) : Type :=
| Ret (a : A)
| Raise (e : exn).

Arguments Ret {A} a.
Arguments Raise {A} e.

Definition res_bind {A B : Type} (m : res A) (f : A -> res B) : res B :=
  match m with
  | Ret a => f a
  | Raise e => Raise e
  end.

Notation "'let*' x ':=' m 'in' k" := (res_bind m (fun x => k))
  (at level 10, x name, m at level 200, k at level 200, only parsing).

(** [str.startswith] and [str.endswith]. *)
Definition startswith (s p : string) : bool := String.prefix p s.

Definition endswith (s suffix : string) : bool :=
  let n := String.length s in
  let m := String.length suffix in
  if (m <=? n)%nat then String.eqb (String.substring (n - m) m s) suffix else false.

(** [partition_at sep s] cuts [s] at the first occurrence of the character
    [sep]; it is the first step of [str.split(sep, k)]. *)
Fixpoint partition_at (sep : ascii) (s : string) : option (string * string) :=
  match s with
  | EmptyString => None
  | String c r =>
      if Ascii.eqb c sep then Some (EmptyString, r)
      else match partition_at sep r with
           | Some (before, after) => Some (String c before, after)
           | None => None
           end
  end.

(** [str.split(sep, maxsplit)] for a one-character separator. *)
Fixpoint py_split (sep : ascii) (maxsplit : nat) (s : string) : list string :=
  match maxsplit with
  | O => [s]
  | S k =>
      match partition_at sep s with
      | None => [s]
      | Some (before, after) => before :: py_split sep k after
      end
  end.

(** [str.split(sep)]: no bound on the number of cuts. *)
Definition py_split_all (sep : ascii) (s : string) : list string :=
  py_split sep (String.length s) s.

(** Value of a digit character in a base up to 36, as [int(s, base)] reads it. *)
Definition digit_value (base : Z) (c : ascii) : option Z :=
  let n := Z.of_N (N_of_ascii c) in
  let v :=
    if (48 <=? n) && (n <=? 57) then n - 48
    else if (97 <=? n) && (n <=? 122) then n - 87
    else if (65 <=? n) && (n <=? 90) then n - 55
    else base in
  if v <? base then Some v else None.

Fixpoint parse_digits (base : Z) (acc : Z) (cs : list ascii) : option Z :=
  match cs with
  | [] => Some acc
  | c :: r =>
      match digit_value base c with
      | Some v => parse_digits base (acc * base + v) r
      | None => None
      end
  end.

Definition parse_unsigned (base : Z) (cs : list ascii) : res Z :=
  match cs with
  | [] => Raise ValueError
  | _ => match parse_digits base 0 cs with
         | Some v => Ret v
         | None => Raise ValueError
         end
  end.

(** The literal prefix [int(s, 16)] accepts before the digits. *)
Definition strip_base_prefix (base : Z) (cs : list ascii) : list ascii :=
  match cs with
  | "0"%char :: x :: r =>
      if (base =? 16) && (Ascii.eqb x "x" || Ascii.eqb x "X") then r else cs
  | _ => cs
  end.

(** [int(s, base)] on text made of an optional sign, an optional base prefix
    and digits.  Python also accepts surrounding white space and single
    underscores between digits; such text is reported as [ValueError] here,
    and no string built by the modelled code contains either. *)
Definition py_int_base (base : Z) (s : string) : res Z :=
  match list_ascii_of_string s with
  | "-"%char :: r =>
      res_bind (parse_unsigned base (strip_base_prefix base r)) (fun v => Ret (- v))
  | "+"%char :: r => parse_unsigned base (strip_base_prefix base r)
  | cs => parse_unsigned base (strip_base_prefix base cs)
  end.

Definition py_int (s : string) : res Z := py_int_base 10 s.

(** All-or-nothing traversal: the first exception wins, as when a lazy
    [map] is unpacked into an argument list. *)
Fixpoint res_map {A B : Type} (f : A -> res B) (l : list A) : res (list B) :=
  match l with
  | [] => Ret []
  | a :: r =>
      res_bind (f a) (fun b => res_bind (res_map f r) (fun bs => Ret (b :: bs)))
  end.

(** [str.rindex(c)]: the offset of the last occurrence of [c]. *)
Fixpoint rindex_from (c : ascii) (s : string) (pos : nat) (last : option nat) : option nat :=
  match s with
  | EmptyString => last
  | String d r => rindex_from c r (S pos) (if Ascii.eqb d c then Some pos else last)
  end.

Definition rindex (s : string) (c : ascii) : res nat :=
  match rindex_from c s O None with
  | Some i => Ret i
  | None => Raise ValueError
  end.

(** [str.replace(old, new)]: left to right, without overlap.  The fuel is the
    length of the text still to scan; [old] is never empty in the module. *)
Fixpoint drop_chars (n : nat) (s : string) : string :=
  match n, s with
  | O, _ => s
  | S k, EmptyString => EmptyString
  | S k, String _ r => drop_chars k r
  end.

Fixpoint py_replace_from (fuel : nat) (old new s : string) : string :=
  match fuel with
  | O => s
  | S k =>
      match s with
      | EmptyString => EmptyString
      | String c r =>
          if String.prefix old s
          then new +:+ py_replace_from k old new (drop_chars (String.length old) s)
          else String c (py_replace_from k old new r)
      end
  end.

Definition py_replace (s old new : string) : string :=
  py_replace_from (String.length s) old new s.

(** ** Version registry *)

Definition MAJOR_VERSION_MULTIPLIER : Z := 10000.
Definition MINOR_VERSION_MULTIPLIER : Z := 100.
Definition PATCH_VERSION_MULTIPLIER : Z := 1.

Definition ID_VALIDATOR_IGNORE_SET : gset string := {[ "Jet"; "Experimental" ]}.

Definition version_to_number (major minor patch : Z) : Z :=
  MAJOR_VERSION_MULTIPLIER * major
  + MINOR_VERSION_MULTIPLIER * minor
  + PATCH_VERSION_MULTIPLIER * patch.

(** The text is split at every dot and each component goes through [int];
    the components are converted first, then [version_to_number] needs two
    or three of them ([patch] defaults to 0).  The argument is the [since]
    value after [str]. *)
Definition get_version_as_number (version : string) : res Z :=
  res_bind (res_map py_int (py_split_all "." version)) (fun parts =>
    match parts with
    | [major; minor] => Ret (version_to_number major minor 0)
    | [major; minor; patch] => Ret (version_to_number major minor patch)
    | _ => Raise TypeError
    end).

(** A version is a triple of natural numbers; this is the lexicographic
    order on [(major, minor, patch)]. *)
Definition version_lex_lt (v w : N * N * N) : Prop :=
  let '(a, b, c) := v in
  let '(a', b', c') := w in
  (a < a' \/ (a = a' /\ (b < b' \/ (b = b' /\ c < c'))))%N.

(** [version_to_number] on the components of a version. *)
Definition encode (v : N * N * N) : Z :=
  let '(major, minor, patch) := v in
  version_to_number (Z.of_N major) (Z.of_N minor) (Z.of_N patch).

(** ** Data model

    A service document is a dictionary; keys the code reads with [d[k]] are
    fields, keys it reads with [d.get(k, default)] or tests with [k in d] are
    optional fields. *)

Record Param : Type := {
  p_name : string;
  p_type : string;
  p_since : string;
  p_getterMethod : option string
}.

(** A request or a response: its parameters and, once assigned, its id. *)
Record Message : Type := {
  msg_params : option (list Param);
  msg_id : option Z
}.

Record Event : Type := {
  ev_name : string;
  ev_since : string;
  ev_params : option (list Param);
  ev_id : option Z
}.

Record Method : Type := {
  m_name : string;
  m_id : Z;
  m_since : string;
  m_request : Message;
  m_response : Message;
  m_events : option (list Event)
}.

Record CustomType : Type := {
  ct_name : string;
  ct_since : string;
  ct_params : option (list Param)
}.

Record Service : Type := {
  svc_name : string;
  svc_id : Z;
  svc_methods : list Method;
  svc_customTypes : option (list CustomType)
}.

(** [d.get("params", [])]. *)
Definition get_params (ps : option (list Param)) : list Param :=
  match ps with
  | Some l => l
  | None => []
  end.

(** ** Message ID assigner *)

Definition hex_digit (d : Z) : ascii :=
  match String.get (Z.to_nat d) "0123456789abcdef" with
  | Some c => c
  | None => "0"%char
  end.

(** Hexadecimal digits of a non-negative number, least significant first. *)
Fixpoint hex_digits_lsb (fuel : nat) (n : Z) : list ascii :=
  match fuel with
  | O => []
  | S k =>
      if n <? 16 then [hex_digit n]
      else hex_digit (n mod 16) :: hex_digits_lsb k (n / 16)
  end.

Definition hex_of_nonneg (n : Z) : list ascii :=
  rev (hex_digits_lsb (S (Z.to_nat (Z.log2 n))) n).

(** The conversion ["%02x" % n]: lower-case hexadecimal, zero-padded to two
    characters; a negative number prints its sign and then its magnitude. *)
Definition fmt_02x (n : Z) : list ascii :=
  if n <? 0 then "-"%char :: hex_of_nonneg (- n)
  else
    let ds := hex_of_nonneg n in
    if (length ds <? 2)%nat then "0"%char :: ds else ds.

(** [id_fmt % (a, b, c)] with [id_fmt = "0x%02x%02x%02x"]. *)
Definition id_fmt (a b c : Z) : string :=
  string_of_list_ascii ("0"%char :: "x"%char :: fmt_02x a ++ fmt_02x b ++ fmt_02x c).

(** [int(id_fmt % (service_id, method_id, kind), 16)]. *)
Definition message_id (service_id method_id kind : Z) : res Z :=
  py_int_base 16 (id_fmt service_id method_id kind).

Definition set_message_id (m : Message) (id : Z) : Message :=
  {| msg_params := msg_params m; msg_id := Some id |}.

Definition set_event_id (ev : Event) (id : Z) : Event :=
  {| ev_name := ev_name ev; ev_since := ev_since ev;
     ev_params := ev_params ev; ev_id := Some id |}.

(** The loop [for i in range(len(events))], started at index [i]. *)
Fixpoint assign_event_ids (service_id method_id i : Z) (events : list Event)
  : res (list Event) :=
  match events with
  | [] => Ret []
  | ev :: rest =>
      let* id := message_id service_id method_id (i + 2) in
      let* rest' := assign_event_ids service_id method_id (i + 1) rest in
      Ret (set_event_id ev id :: rest')
  end.

(** The id assignments of [generate_codecs] for one method that is not
    ignored: request, response, then the events in declaration order. *)
Definition assign_message_ids (service_id : Z) (method : Method) : res Method :=
  let* request_id := message_id service_id (m_id method) 0 in
  let* response_id := message_id service_id (m_id method) 1 in
  let* events := match m_events method with
            | None => Ret None
            | Some evs =>
                let* evs' := assign_event_ids service_id (m_id method) 0 evs in
                Ret (Some evs')
            end in
  Ret {| m_name := m_name method; m_id := m_id method; m_since := m_since method;
         m_request := set_message_id (m_request method) request_id;
         m_response := set_message_id (m_response method) response_id;
         m_events := events |}.

(** The declared events of a method, absent meaning none. *)
Definition declared_events (method : Method) : list Event :=
  match m_events method with
  | Some evs => evs
  | None => []
  end.



(** ** Diagnostics

    Every [print] of the module is recorded as one diagnostic; the fields
    are the values substituted into the printed text. *)

Inductive diag : Type :=
| SchemaViolation (service_name error : string)
| ServiceIdMismatch (service_name : string) (expected found : Z)
| MethodIdMismatch (service_name method_name : string) (expected found : Z)
| SinceNotFollowing (method_or_event_name since : string)
| ParamSinceNotFollowing (param_name name since : string)
| ParamNotOrdered (param_name name : string)
| InIgnoreList (name : string)
| MissingTypeMapping (codec_file_name : string) (error : option string).

(** A computation that prints: its outcome and what it printed, in order.
    What was printed before an exception stays printed. *)
Definition W (A : Type) : Type := (res A * list diag)%type.

Definition w_ret {A : Type} (a : A) : W A := (Ret a, []).

Definition w_bind {A B : Type} (m : W A) (f : A -> W B) : W B :=
  match m with
  | (Ret a, l1) => let '(r, l2) := f a in (r, l1 ++ l2)
  | (Raise e, l1) => (Raise e, l1)
  end.

Definition w_lift {A : Type} (r : res A) : W A := (r, []).

Definition print (d : diag) : W unit := (Ret tt, [d]).

Notation "'let+' x ':=' m 'in' k" := (w_bind m (fun x => k))
  (at level 10, x name, m at level 200, k at level 200, only parsing).

(** ** Schema and ordering validator *)

(** [x in protocol_versions] on a list of numbers. *)
Definition py_in (x : Z) (l : list Z) : bool := existsb (Z.eqb x) l.

Definition is_semantically_correct_param (version : Z) (protocol_versions : list Z)
  : res bool :=
  match protocol_versions with
  | [] => Raise IndexError
  | first :: _ =>
      if negb (version =? first) then
        if version mod MINOR_VERSION_MULTIPLIER =? 0 then
          if negb (py_in (version - MINOR_VERSION_MULTIPLIER) protocol_versions)
          then Ret false else Ret true
        else if version mod PATCH_VERSION_MULTIPLIER =? 0 then
          if negb (py_in (version - PATCH_VERSION_MULTIPLIER) protocol_versions)
          then Ret false else Ret true
        else Ret true
      else Ret true
  end.

(** The body of [for param in params], carrying [version], [is_ordered] and
    [is_semantically_correct] from one parameter to the next. *)
Fixpoint check_params (name : string) (protocol_versions : list Z)
  (params : list Param) (version : Z) (is_ordered is_semantically_correct : bool)
  : W (bool * bool) :=
  match params with
  | [] => w_ret (is_ordered, is_semantically_correct)
  | param :: rest =>
      let+ param_version := w_lift (get_version_as_number (p_since param)) in
      let+ ok := w_lift (is_semantically_correct_param param_version protocol_versions) in
      let+ is_semantically_correct :=
        if negb ok then
          let+ _ := print (ParamSinceNotFollowing (p_name param) name (p_since param)) in
          w_ret false
        else w_ret is_semantically_correct in
      let+ is_ordered :=
        if version >? param_version then
          let+ _ := print (ParamNotOrdered (p_name param) name) in
          w_ret false
        else w_ret is_ordered in
      check_params name protocol_versions rest param_version
        is_ordered is_semantically_correct
  end.

Definition is_parameters_ordered_and_semantically_correct
  (since name : string) (params : list Param) (protocol_versions : list Z) : W bool :=
  let+ version := w_lift (get_version_as_number since) in
  let+ ok := w_lift (is_semantically_correct_param version protocol_versions) in
  let+ is_semantically_correct :=
    if negb ok then
      let+ cut := w_lift (rindex name "#") in
      let method_or_event_name := String.substring 0 cut name in
      let+ _ := print (SinceNotFollowing method_or_event_name since) in
      w_ret false
    else w_ret true in
  let+ flags := check_params name protocol_versions params version true
                  is_semantically_correct in
  w_ret (fst flags && snd flags).

(** The loop [for event in events] of [validate_services]. *)
Fixpoint check_events (method_name : string) (protocol_versions : list Z)
  (events : list Event) (valid : bool) : W bool :=
  match events with
  | [] => w_ret valid
  | event :: rest =>
      let event_params := get_params (ev_params event) in
      let+ ok := is_parameters_ordered_and_semantically_correct (ev_since event)
                   (method_name +:+ "#" +:+ ev_name event +:+ "#event")
                   event_params protocol_versions in
      check_events method_name protocol_versions rest (if negb ok then false else valid)
  end.

(** The body of [for j in range(len(methods))]. *)
Definition check_method (service_name : string) (protocol_versions : list Z)
  (j : Z) (method : Method) (valid : bool) : W bool :=
  let method_id := m_id method in
  let+ valid :=
    if negb (j + 1 =? method_id) then
      let+ _ := print (MethodIdMismatch service_name (m_name method) (j + 1) method_id) in
      w_ret false
    else w_ret valid in
  let request_params := get_params (msg_params (m_request method)) in
  let method_name := service_name +:+ "#" +:+ m_name method in
  let+ ok := is_parameters_ordered_and_semantically_correct (m_since method)
               (method_name +:+ "#request") request_params protocol_versions in
  let valid := if negb ok then false else valid in
  let response_params := get_params (msg_params (m_response method)) in
  let+ ok := is_parameters_ordered_and_semantically_correct (m_since method)
               (method_name +:+ "#response") response_params protocol_versions in
  let valid := if negb ok then false else valid in
  let events := declared_events method in
  check_events method_name protocol_versions events valid.

Fixpoint check_methods (service_name : string) (protocol_versions : list Z)
  (j : Z) (methods : list Method) (valid : bool) : W bool :=
  match methods with
  | [] => w_ret valid
  | method :: rest =>
      let+ valid := check_method service_name protocol_versions j method valid in
      check_methods service_name protocol_versions (j + 1) rest valid
  end.

(** The block guarded by [not no_id_check and name not in ID_VALIDATOR_IGNORE_SET],
    for the service at position [i]. *)
Definition check_service (no_id_check : bool) (protocol_versions : list Z)
  (i : Z) (service : Service) (valid : bool) : W bool :=
  if negb no_id_check && negb (bool_decide (svc_name service ∈ ID_VALIDATOR_IGNORE_SET))
  then
    let service_id := svc_id service in
    let+ valid :=
      if negb (i =? service_id) then
        let+ _ := print (ServiceIdMismatch (svc_name service) i service_id) in
        w_ret false
      else w_ret valid in
    check_methods (svc_name service) protocol_versions 0 (svc_methods service) valid
  else w_ret valid.

Section SchemaValidation.

(** [jsonschema.validate(service, schema)] for the schema loaded from
    [schema_path]: [None] when the document conforms, the text of the
    [ValidationError] otherwise. *)
Variable jsonschema_validate : Service -> option string.

Definition validate_against_schema (service : Service) : W bool :=
  match jsonschema_validate service with
  | Some e =>
      let+ _ := print (SchemaViolation (svc_name service) e) in
      w_ret false
  | None => w_ret true
  end.

(** The loop [for i in range(len(services))], from position [i] on. *)
Fixpoint validate_services_from (no_id_check : bool) (protocol_versions : list Z)
  (i : Z) (services : list Service) (valid : bool) : W bool :=
  match services with
  | [] => w_ret valid
  | service :: rest =>
      let+ ok := validate_against_schema service in
      if negb ok then w_ret false
      else
        let+ valid := check_service no_id_check protocol_versions i service valid in
        validate_services_from no_id_check protocol_versions (i + 1) rest valid
  end.

Definition validate_services (services : list Service) (no_id_check : bool)
  (protocol_versions : list Z) : W bool :=
  validate_services_from no_id_check protocol_versions 0 services true.

(** The diagnostic of the first document that violates the schema, if any. *)
Fixpoint first_schema_violation (services : list Service) : option diag :=
  match services with
  | [] => None
  | service :: rest =>
      match jsonschema_validate service with
      | Some e => Some (SchemaViolation (svc_name service) e)
      | None => first_schema_violation rest
      end
  end.

End SchemaValidation.

(** *** Reading the validator's output *)

Definition is_order_diag (d : diag) : bool :=
  match d with
  | ParamNotOrdered _ _ => true
  | _ => false
  end.

(** The ordering diagnostics among what was printed. *)
Definition order_diags (log : list diag) : list diag := List.filter is_order_diag log.

Fixpoint nondecreasing (l : list Z) : bool :=
  match l with
  | a :: (b :: _) as rest => (a <=? b) && nondecreasing rest
  | _ => true
  end.

(** Names of the parameters whose version lies below that of their
    predecessor, the predecessor of the first one being [prev]. *)
Fixpoint out_of_order (prev : Z) (params : list (string * Z)) : list string :=
  match params with
  | [] => []
  | (n, v) :: rest =>
      if prev >? v then n :: out_of_order v rest else out_of_order v rest
  end.

Definition accepted (protocol_versions : list Z) (version : Z) : bool :=
  match is_semantically_correct_param version protocol_versions with
  | Ret true => true
  | _ => false
  end.

(** The parameter list with the [since] values 1.0, 1.1, 1.0. *)
Definition params_1_0__1_1__1_0 : list Param :=
  [ {| p_name := "first"; p_type := "int"; p_since := "1.0"; p_getterMethod := None |};
    {| p_name := "second"; p_type := "int"; p_since := "1.1"; p_getterMethod := None |};
    {| p_name := "third"; p_type := "int"; p_since := "1.0"; p_getterMethod := None |} ].

(** *** Aggregation of per-service outcomes *)

(** [valid and b] applied to the boolean a printing computation returns. *)
Definition w_and (valid : bool) (m : W bool) : W bool :=
  (match fst m with
   | Ret b => Ret (valid && b)
   | Raise e => Raise e
   end, snd m).

(** Runs the computations in order: the diagnostics accumulate, the result
    is the conjunction of the results, and an exception ends the run. *)
Fixpoint w_all (ms : list (W bool)) : W bool :=
  match ms with
  | [] => w_ret true
  | m :: rest => let+ b := m in w_and b (w_all rest)
  end.

(** The semantic block of every service of the corpus, the first service
    standing at position [i], each block started afresh. *)
Fixpoint semantic_blocks (no_id_check : bool) (protocol_versions : list Z)
  (i : Z) (services : list Service) : list (W bool) :=
  match services with
  | [] => []
  | service :: rest =>
      check_service no_id_check protocol_versions i service true
      :: semantic_blocks no_id_check protocol_versions (i + 1) rest
  end.

(** Services whose semantic block the validator steps over. *)
Definition exempt (no_id_check : bool) (service : Service) : Prop :=
  no_id_check = true \/ svc_name service = "Jet" \/ svc_name service = "Experimental".

(** A small corpus for the validator. *)
Definition plain_message : Message := {| msg_params := None; msg_id := None |}.

Definition method_since (name : string) (id : Z) (since : string) : Method :=
  {| m_name := name; m_id := id; m_since := since;
     m_request := plain_message; m_response := plain_message; m_events := None |}.

Definition broken_service : Service :=
  {| svc_name := "Broken"; svc_id := 0;
     svc_methods := []; svc_customTypes := None |}.

Definition misnumbered_service : Service :=
  {| svc_name := "Misnumbered"; svc_id := 7;
     svc_methods := [method_since "get" 4 "2.0"]; svc_customTypes := None |}.

Definition good_service : Service :=
  {| svc_name := "Good"; svc_id := 0;
     svc_methods := [method_since "get" 1 "2.0"]; svc_customTypes := None |}.

(** An exempt service whose ids and since values are all wrong. *)
Definition jet_service : Service :=
  {| svc_name := "Jet"; svc_id := 254;
     svc_methods :=
       [ {| m_name := "submit"; m_id := 9; m_since := "2.7";
            m_request := {| msg_params := Some params_1_0__1_1__1_0; msg_id := None |};
            m_response := plain_message; m_events := None |} ];
     svc_customTypes := None |}.

(** A schema that only the service named "Broken" violates. *)
Definition demo_schema (service : Service) : option string :=
  if String.eqb (svc_name service) "Broken" then Some "'id' is a required property"
  else None.

(** ** Data-flow analyzer *)

(** Outcome of a recursive computation run with a bound on its call depth:
    [OutOfFuel] says the bound was reached, nothing about the result. *)
Inductive run (A : Type) : Type :=
| Returns (a : A)
| Raises (e : exn)
| OutOfFuel.

Arguments Returns {A} a.
Arguments Raises {A} e.
Arguments OutOfFuel {A}.

(** The two sets shared by all calls of [type_contains_serialized_data]. *)
Record memo : Type := {
  types_containing_serialized_data : gset string;
  types_not_containing_serialized_data : gset string
}.

(** A computation of the analyzer reads and updates the two sets. *)
Definition M (A : Type) : Type := memo -> run (A * memo).

Definition m_ret {A : Type} (a : A) : M A := fun st => Returns (a, st).

Definition m_raise {A : Type} (e : exn) : M A := fun _ => Raises e.

Definition m_bind {A B : Type} (m : M A) (f : A -> M B) : M B :=
  fun st =>
    match m st with
    | Returns (a, st') => f a st'
    | Raises e => Raises e
    | OutOfFuel => OutOfFuel
    end.

Notation "'let?' x ':=' m 'in' k" := (m_bind m (fun x => k))
  (at level 10, x name, m at level 200, k at level 200, only parsing).

(** [types_containing_serialized_data.add(type_name); return True]. *)
Definition add_containing (type_name : string) : M bool :=
  fun st =>
    Returns (true,
      {| types_containing_serialized_data :=
           {[ type_name ]} ∪ types_containing_serialized_data st;
         types_not_containing_serialized_data :=
           types_not_containing_serialized_data st |}).

(** [types_not_containing_serialized_data.add(type_name); return False]. *)
Definition add_not_containing (type_name : string) : M bool :=
  fun st =>
    Returns (false,
      {| types_containing_serialized_data := types_containing_serialized_data st;
         types_not_containing_serialized_data :=
           {[ type_name ]} ∪ types_not_containing_serialized_data st |}).

Definition is_list_like (type_name : string) : bool :=
  startswith type_name "List_" || startswith type_name "ListCN_"
  || startswith type_name "Set_".

Definition is_map_like (type_name : string) : bool :=
  startswith type_name "Map_" || startswith type_name "EntryList_".

(** [type_name.split("_", 1)[1]]. *)
Definition item_type_name (type_name : string) : res string :=
  match py_split "_" 1 type_name !! 1%nat with
  | Some item => Ret item
  | None => Raise IndexError
  end.

(** [key, value = type_name.split("_", 2)[1:3]]: the slice must hold
    exactly two names. *)
Definition key_value_type_names (type_name : string) : res (string * string) :=
  match take 2 (drop 1 (py_split "_" 2 type_name)) with
  | [key; value] => Ret (key, value)
  | _ => Raise ValueError
  end.

(** The loop over parameters that stops at the first one whose type
    contains serialized data; [contains] is the classification of a type
    name. *)
Fixpoint any_param_contains (contains : string -> M bool) (params : list Param)
  : M bool :=
  match params with
  | [] => m_ret false
  | param :: rest =>
      let? hit := contains (p_type param) in
      if hit then m_ret true else any_param_contains contains rest
  end.

Section Analyzer.

(** The dictionary from custom type name to custom type. *)
Variable custom_types : gmap string CustomType.

(** [custom_type_contains_serialized_data], with the classification it calls
    back passed in. *)
Definition custom_type_contains_serialized_data
  (contains : string -> M bool) (custom_type_name : string) : M bool :=
  match custom_types !! custom_type_name with
  | None => m_raise KeyError
  | Some custom_type =>
      match ct_params custom_type with
      | None => m_raise KeyError
      | Some params => any_param_contains contains params
      end
  end.

(** The body of [type_contains_serialized_data]; [contains] stands for
    the recursive calls. *)
Definition type_contains_serialized_data_body
  (contains : string -> M bool) (type_name : string) : M bool :=
  fun st =>
    if bool_decide (type_name ∈ types_containing_serialized_data st)
    then Returns (true, st)
    else if bool_decide (type_name ∈ types_not_containing_serialized_data st)
    then Returns (false, st)
    else if is_list_like type_name then
      match item_type_name type_name with
      | Raise e => Raises e
      | Ret item =>
          (let? hit := contains item in
           if hit then add_containing type_name
           else add_not_containing type_name) st
      end
    else if is_map_like type_name then
      match key_value_type_names type_name with
      | Raise e => Raises e
      | Ret (key, value) =>
          (let? hit := (let? key_hit := contains key in
                        if key_hit then m_ret true else contains value) in
           if hit then add_containing type_name
           else add_not_containing type_name) st
      end
    else
      match custom_types !! type_name with
      | Some _ =>
          (let? hit := custom_type_contains_serialized_data contains type_name in
           if hit then add_containing type_name
           else add_not_containing type_name) st
      | None => add_not_containing type_name st
      end.

(** [type_contains_serialized_data]; [fuel] bounds the depth of the
    recursion. *)
Fixpoint type_contains_serialized_data (fuel : nat) : string -> M bool :=
  match fuel with
  | O => fun _ _ => OutOfFuel
  | S fuel' =>
      type_contains_serialized_data_body (type_contains_serialized_data fuel')
  end.

(** The loop over the methods of one service, filling its table. *)
Fixpoint methods_table (fuel : nat) (methods : list Method)
  (service_table : gmap string bool) : M (gmap string bool) :=
  match methods with
  | [] => m_ret service_table
  | method :: rest =>
      let? hit := any_param_contains (type_contains_serialized_data fuel)
                    (get_params (msg_params (m_request method))) in
      methods_table fuel rest (<[ m_name method := hit ]> service_table)
  end.

(** The loop over the services; [table[service_name]] starts empty the
    first time a name is seen. *)
Fixpoint services_table (fuel : nat) (services : list Service)
  (table : gmap string (gmap string bool)) : M (gmap string (gmap string bool)) :=
  match services with
  | [] => m_ret table
  | service :: rest =>
      let service_table := default ∅ (table !! svc_name service) in
      let? service_table := methods_table fuel (svc_methods service) service_table in
      services_table fuel rest (<[ svc_name service := service_table ]> table)
  end.

End Analyzer.

(** [g] gives every outcome that [f] gives within its bound. *)
Definition extends (f g : string -> M bool) : Prop :=
  forall t st r, f t st = r -> r <> OutOfFuel -> g t st = r.

(** The sets as the analyzer starts with them. *)
Definition initial_memo : memo :=
  {| types_containing_serialized_data := {[ "Data" ]};
     types_not_containing_serialized_data := ∅ |}.

(** The dictionary built from the first custom-types document; a later
    custom type replaces an earlier one of the same name. *)
Definition custom_types_of (custom_services : list Service)
  : res (gmap string CustomType) :=
  match custom_services with
  | [] => Ret ∅
  | first :: _ =>
      match svc_customTypes first with
      | None => Raise KeyError
      | Some customs => Ret (foldl (fun m custom => <[ ct_name custom := custom ]> m) ∅ customs)
      end
  end.

Definition generate_data_containing_requests_lookup_table
  (fuel : nat) (services custom_services : list Service)
  : run (gmap string (gmap string bool)) :=
  match custom_types_of custom_services with
  | Raise e => Raises e
  | Ret custom_types =>
      match services_table custom_types fuel services ∅ initial_memo with
      | Returns (table, _) => Returns table
      | Raises e => Raises e
      | OutOfFuel => OutOfFuel
      end
  end.

(** [isPayloadCarrying]: the classification of one type name by a fresh
    analyzer. *)
Definition isPayloadCarrying (custom_types : gmap string CustomType)
  (fuel : nat) (type_name : string) : run bool :=
  match type_contains_serialized_data custom_types fuel type_name initial_memo with
  | Returns (b, _) => Returns b
  | Raises e => Raises e
  | OutOfFuel => OutOfFuel
  end.

(** *** The classification rule

    [classified custom_types t b]: the rule gives the type name [t] the
    answer [b].  The cases are tried in this order: the payload type, a
    list or set, a map or entry list, a declared custom type, anything
    else.  The value type of a map and the later parameters of a custom
    type are looked at only when what precedes them is a miss. *)
Inductive classified (custom_types : gmap string CustomType) : string -> bool -> Prop :=
| classified_payload :
    classified custom_types "Data" true
| classified_list (t item : string) (b : bool) :
    t <> "Data" -> is_list_like t = true ->
    item_type_name t = Ret item ->
    classified custom_types item b ->
    classified custom_types t b
| classified_map_key (t key value : string) :
    t <> "Data" -> is_list_like t = false -> is_map_like t = true ->
    key_value_type_names t = Ret (key, value) ->
    classified custom_types key true ->
    classified custom_types t true
| classified_map_value (t key value : string) (b : bool) :
    t <> "Data" -> is_list_like t = false -> is_map_like t = true ->
    key_value_type_names t = Ret (key, value) ->
    classified custom_types key false ->
    classified custom_types value b ->
    classified custom_types t b
| classified_custom (t : string) (custom : CustomType) (params : list Param) (b : bool) :
    t <> "Data" -> is_list_like t = false -> is_map_like t = false ->
    custom_types !! t = Some custom -> ct_params custom = Some params ->
    classified_any custom_types (map p_type params) b ->
    classified custom_types t b
| classified_other (t : string) :
    t <> "Data" -> is_list_like t = false -> is_map_like t = false ->
    custom_types !! t = None ->
    classified custom_types t false
with classified_any (custom_types : gmap string CustomType) : list string -> bool -> Prop :=
| classified_any_nil :
    classified_any custom_types [] false
| classified_any_hit (t : string) (ts : list string) :
    classified custom_types t true ->
    classified_any custom_types (t :: ts) true
| classified_any_miss (t : string) (ts : list string) (b : bool) :
    classified custom_types t false ->
    classified_any custom_types ts b ->
    classified_any custom_types (t :: ts) b.

Scheme classified_mut := Minimality for classified Sort Prop
  with classified_any_mut := Minimality for classified_any Sort Prop.

Combined Scheme classified_both from classified_mut, classified_any_mut.

(** The two sets agree with the rule, and the payload type is recorded. *)
Definition sound (custom_types : gmap string CustomType) (st : memo) : Prop :=
  "Data" ∈ types_containing_serialized_data st
  /\ (forall t, t ∈ types_containing_serialized_data st -> classified custom_types t true)
  /\ (forall t, t ∈ types_not_containing_serialized_data st ->
       classified custom_types t false).

(** Whatever [f] returns from sound sets is the rule's answer, and the
    sets stay sound. *)
Definition agrees (custom_types : gmap string CustomType) (f : string -> M bool) : Prop :=
  forall t st b st',
    sound custom_types st -> f t st = Returns (b, st') ->
    classified custom_types t b /\ sound custom_types st'.

(** The type names a classification looks into, [None] when the name is
    malformed for its case. *)
Definition type_children (custom_types : gmap string CustomType) (t : string)
  : option (list string) :=
  if is_list_like t then
    match item_type_name t with
    | Ret item => Some [item]
    | Raise _ => None
    end
  else if is_map_like t then
    match key_value_type_names t with
    | Ret (key, value) => Some [key; value]
    | Raise _ => None
    end
  else
    match custom_types !! t with
    | Some custom => option_map (map p_type) (ct_params custom)
    | None => Some []
    end.

(** No infinite chain of references starts at [t]: on a finite set of
    custom types, the reference graph reachable from [t] has no cycle. *)
Inductive acyclic_from (custom_types : gmap string CustomType) : string -> Prop :=
| acyclic_from_intro (t : string) (children : list string) :
    type_children custom_types t = Some children ->
    (forall child, In child children -> acyclic_from custom_types child) ->
    acyclic_from custom_types t.

(** The parameter types of a method's request. *)
Definition request_types (method : Method) : list string :=
  map p_type (get_params (msg_params (m_request method))).

(** [table[service_name][method_name]], when both keys are present. *)
Definition lookup_entry (table : gmap string (gmap string bool))
  (service_name method_name : string) : option bool :=
  match table !! service_name with
  | Some service_table => service_table !! method_name
  | None => None
  end.

(** Sample custom types: [Address] holds a list of [Data]; [Node] refers
    to itself. *)
Definition mk_param (name type : string) : Param :=
  {| p_name := name; p_type := type; p_since := "2.0"; p_getterMethod := None |}.

Definition sample_custom_types : gmap string CustomType :=
  {[ "Address" := {| ct_name := "Address"; ct_since := "2.0";
                     ct_params := Some [mk_param "host" "String";
                                        mk_param "blob" "List_Data"] |} ]}.

Definition cyclic_custom_types : gmap string CustomType :=
  {[ "Node" := {| ct_name := "Node"; ct_since := "2.0";
                  ct_params := Some [mk_param "next" "Node"] |} ]}.

(** The custom-types document holding [Address], and a service with one
    method per kind of request. *)
Definition sample_custom_services : list Service :=
  [ {| svc_name := "Custom"; svc_id := 0; svc_methods := [];
       svc_customTypes :=
         Some [ {| ct_name := "Address"; ct_since := "2.0";
                   ct_params := Some [mk_param "host" "String";
                                      mk_param "blob" "List_Data"] |} ] |} ].

Definition method_with_request (name : string) (id : Z) (params : list Param) : Method :=
  {| m_name := name; m_id := id; m_since := "2.0";
     m_request := {| msg_params := Some params; msg_id := None |};
     m_response := plain_message; m_events := None |}.

Definition sample_services : list Service :=
  [ {| svc_name := "Map"; svc_id := 1;
       svc_methods :=
         [ method_with_request "put" 1 [mk_param "name" "String"; mk_param "value" "Data"];
           method_with_request "size" 2 [mk_param "name" "String"];
           method_with_request "addAll" 3 [mk_param "to" "Map_String_Address"] ];
       svc_customTypes := None |} ].

(** ** Artifact writer *)

Definition CR : ascii := "013"%char.
Definition LF : ascii := "010"%char.
Definition TAB : ascii := "009"%char.

(** A text is kept as the bytes of its UTF-8 encoding, so
    [content.encode("utf-8")] reads the characters off as numbers. *)
Definition utf8_encode (s : string) : list Z :=
  map (fun c => Z.of_N (N_of_ascii c)) (list_ascii_of_string s).

(** *** MD5, as [hashlib.md5] computes it (RFC 1321) *)

Definition md5_shifts : list Z :=
  [ 7; 12; 17; 22; 7; 12; 17; 22; 7; 12; 17; 22; 7; 12; 17; 22;
    5; 9; 14; 20; 5; 9; 14; 20; 5; 9; 14; 20; 5; 9; 14; 20;
    4; 11; 16; 23; 4; 11; 16; 23; 4; 11; 16; 23; 4; 11; 16; 23;
    6; 10; 15; 21; 6; 10; 15; 21; 6; 10; 15; 21; 6; 10; 15; 21 ].

Definition md5_sines : list Z :=
  [ 3614090360; 3905402710; 606105819; 3250441966;
    4118548399; 1200080426; 2821735955; 4249261313;
    1770035416; 2336552879; 4294925233; 2304563134;
    1804603682; 4254626195; 2792965006; 1236535329;
    4129170786; 3225465664; 643717713; 3921069994;
    3593408605; 38016083; 3634488961; 3889429448;
    568446438; 3275163606; 4107603335; 1163531501;
    2850285829; 4243563512; 1735328473; 2368359562;
    4294588738; 2272392833; 1839030562; 4259657740;
    2763975236; 1272893353; 4139469664; 3200236656;
    681279174; 3936430074; 3572445317; 76029189;
    3654602809; 3873151461; 530742520; 3299628645;
    4096336452; 1126891415; 2878612391; 4237533241;
    1700485571; 2399980690; 4293915773; 2240044497;
    1873313359; 4264355552; 2734768916; 1309151649;
    4149444226; 3174756917; 718787259; 3951481745 ].

Definition mask32 (x : Z) : Z := x mod 4294967296.

Definition not32 (x : Z) : Z := Z.lxor x 4294967295.

Definition rotl32 (x c : Z) : Z :=
  mask32 (Z.lor (Z.shiftl x c) (Z.shiftr x (32 - c))).

Definition md5_round (block : list Z) (st : Z * Z * Z * Z) (i : nat) : Z * Z * Z * Z :=
  let '(a, b, c, d) := st in
  let iz := Z.of_nat i in
  let '(f, g) :=
    if iz <? 16 then (Z.lor (Z.land b c) (Z.land (not32 b) d), iz)
    else if iz <? 32 then (Z.lor (Z.land d b) (Z.land (not32 d) c), (5 * iz + 1) mod 16)
    else if iz <? 48 then (Z.lxor (Z.lxor b c) d, (3 * iz + 5) mod 16)
    else (Z.lxor c (Z.lor b (not32 d)), (7 * iz) mod 16) in
  let f' := mask32 (f + a + nth i md5_sines 0 + nth (Z.to_nat g) block 0) in
  (d, mask32 (b + rotl32 f' (nth i md5_shifts 0)), b, c).

Definition md5_block (st : Z * Z * Z * Z) (block : list Z) : Z * Z * Z * Z :=
  let '(a0, b0, c0, d0) := st in
  let '(a, b, c, d) := fold_left (md5_round block) (seq 0 64) st in
  (mask32 (a0 + a), mask32 (b0 + b), mask32 (c0 + c), mask32 (d0 + d)).

(** The [n] low bytes of [x], least significant first. *)
Fixpoint le_bytes (n : nat) (x : Z) : list Z :=
  match n with
  | O => []
  | S k => x mod 256 :: le_bytes k (x / 256)
  end.

Fixpoint le_words (bytes : list Z) : list Z :=
  match bytes with
  | b0 :: b1 :: b2 :: b3 :: rest =>
      (b0 + 256 * b1 + 65536 * b2 + 16777216 * b3) :: le_words rest
  | _ => []
  end.

Definition md5_pad (message : list Z) : list Z :=
  let len := Z.of_nat (length message) in
  message ++ [128] ++ repeat 0 (Z.to_nat ((55 - len) mod 64)) ++ le_bytes 8 (8 * len).

Fixpoint md5_blocks (fuel : nat) (words : list Z) (st : Z * Z * Z * Z) : Z * Z * Z * Z :=
  match fuel with
  | O => st
  | S k =>
      match words with
      | [] => st
      | _ => md5_blocks k (drop 16 words) (md5_block st (take 16 words))
      end
  end.

Definition md5_digest (message : list Z) : list Z :=
  let words := le_words (md5_pad message) in
  let '(a, b, c, d) :=
    md5_blocks (length words) words (1732584193, 4023233417, 2562383102, 271733878) in
  le_bytes 4 a ++ le_bytes 4 b ++ le_bytes 4 c ++ le_bytes 4 d.

(** [hashlib.md5(content.encode("utf-8")).hexdigest()]. *)
Definition md5_hexdigest (content : string) : string :=
  string_of_list_ascii
    (flat_map (fun byte => [hex_digit (byte / 16); hex_digit (byte mod 16)])
       (md5_digest (utf8_encode content))).

(** *** Normalization and writing *)

(** [re.sub("[ \t]+$", "", content, 0, re.M)]: a run of blanks and tabs
    goes when a line feed or the end of the text follows it; [pending] is
    the run being read. *)
Fixpoint strip_trailing_blanks (pending content : string) : string :=
  match content with
  | EmptyString => EmptyString
  | String c rest =>
      if Ascii.eqb c " " || Ascii.eqb c TAB
      then strip_trailing_blanks (pending +:+ String c EmptyString) rest
      else if Ascii.eqb c LF then String c (strip_trailing_blanks EmptyString rest)
      else pending +:+ String c (strip_trailing_blanks EmptyString rest)
  end.

(** [content.rstrip("\n")]. *)
Fixpoint rstrip_lf (content : string) : string :=
  match content with
  | EmptyString => EmptyString
  | String c rest =>
      match rstrip_lf rest with
      | EmptyString => if Ascii.eqb c LF then EmptyString else String c EmptyString
      | rest' => String c rest'
      end
  end.

Definition crlf : string := String CR (String LF EmptyString).
Definition cr : string := String CR EmptyString.
Definition lf : string := String LF EmptyString.

(** The text that is hashed: for a [.cs] file the line ends become line
    feeds, blanks at line ends go and exactly one line feed ends the text;
    any other file keeps its text. *)
Definition normalized (file content : string) : string :=
  if endswith file ".cs" then
    let content := py_replace content crlf lf in
    let content := py_replace content cr lf in
    let content := strip_trailing_blanks EmptyString content in
    let content := rstrip_lf content in
    content +:+ lf
  else content.

Definition codec_hash_token : string := "!codec_hash!".

(** The modes [save_file] is called with. *)
Inductive file_mode : Type :=
| mode_w
| mode_a_plus.

(** [save_file]: the files are a map from path to text.  The text is the
    one handed to [writelines], before the platform's newline translation. *)
Definition save_file (file content : string) (mode : file_mode)
  (files : gmap string string) : gmap string string :=
  let content := normalized file content in
  let codec_hash := md5_hexdigest content in
  let text := py_replace content codec_hash_token codec_hash in
  match mode with
  | mode_w => <[ file := text ]> files
  | mode_a_plus => <[ file := default EmptyString (files !! file) +:+ text ]> files
  end.

(** No occurrence of the token starts inside [before] when [before] is
    followed by [rest]. *)
Fixpoint token_starts_nowhere (before rest : string) : bool :=
  match before with
  | EmptyString => true
  | String c r =>
      negb (String.prefix codec_hash_token (before +:+ rest))
      && token_starts_nowhere r rest
  end.

(** ** Codec emission *)

Inductive SupportedLanguages : Type :=
| JAVA
| CPP
| CS
| PY
| TS
| MD.

Definition is_CPP (lang : SupportedLanguages) : bool :=
  match lang with
  | CPP => true
  | _ => false
  end.

Definition is_TS (lang : SupportedLanguages) : bool :=
  match lang with
  | TS => true
  | _ => false
  end.

(** [os.path.join] of two components, POSIX flavour. *)
Definition path_join (a b : string) : string :=
  if startswith b "/" then b
  else if String.eqb a EmptyString || endswith a "/" then a +:+ b
  else a +:+ "/" +:+ b.

(** [str.lower] on the letters A to Z; other characters are kept. *)
Definition ascii_lower (c : ascii) : ascii :=
  let n := N_of_ascii c in
  if ((65 <=? n) && (n <=? 90))%N then ascii_of_N (n + 32) else c.

Fixpoint str_lower (s : string) : string :=
  match s with
  | EmptyString => EmptyString
  | String c r => String (ascii_lower c) (str_lower r)
  end.

(** What emission acts on: the files written and the lines printed. *)
Record world : Type := {
  files : gmap string string;
  printed : list diag
}.

(** A computation of the emission: what was written or printed before an
    exception stays. *)
Definition E (A : Type) : Type := world -> res A * world.

Definition e_ret {A : Type} (a : A) : E A := fun w => (Ret a, w).

Definition e_lift {A : Type} (r : res A) : E A := fun w => (r, w).

Definition e_bind {A B : Type} (m : E A) (f : A -> E B) : E B :=
  fun w =>
    match m w with
    | (Ret a, w') => f a w'
    | (Raise e, w') => (Raise e, w')
    end.

Notation "'let!' x ':=' m 'in' k" := (e_bind m (fun x => k))
  (at level 10, x name, m at level 200, k at level 200, only parsing).

Definition log (d : diag) (w : world) : world :=
  {| files := files w; printed := printed w ++ [d] |}.

Definition written (file content : string) (mode : file_mode) (w : world) : world :=
  {| files := save_file file content mode (files w); printed := printed w |}.

Definition e_print (d : diag) : E unit := fun w => (Ret tt, log d w).

Definition e_save_file (file content : string) (mode : file_mode) : E unit :=
  fun w => (Ret tt, written file content mode w).

(** [try: body except NotImplementedError as e: handler(e)]. *)
Definition try_except_NotImplementedError (body : E unit) (handler : string -> E unit)
  : E unit :=
  fun w =>
    match body w with
    | (Raise (NotImplementedError msg), w') => handler msg w'
    | outcome => outcome
    end.

Section Emission.

(** The template engine: [env.get_template(name)] and the two ways a
    template is rendered. *)
Variable Template : Type.
Variable get_template : string -> res Template.
Variable render_method : Template -> string -> Method -> bool -> res string.
Variable render_codec : Template -> CustomType -> res string.

(** The tables of the language modules and [fnmatch.fnmatch]. *)
Variable language_service_ignore_list : SupportedLanguages -> option (list string).
Variable fnmatch : string -> string -> bool.
Variable file_name_generators : SupportedLanguages -> list string -> res string.

Definition ignore_service_or_method (name : string) (lang : SupportedLanguages) : E bool :=
  match language_service_ignore_list lang with
  | None => e_lift (Raise KeyError)
  | Some patterns =>
      if existsb (fun pattern => fnmatch name pattern) patterns then
        let! _ := e_print (InIgnoreList name) in
        e_ret true
      else e_ret false
  end.

(** [ignore_service], on the name of the service or custom type. *)
Definition ignore_service (name : string) (lang : SupportedLanguages) : E bool :=
  ignore_service_or_method name lang.

Definition ignore_method (service : Service) (method : Method) (lang : SupportedLanguages)
  : E bool :=
  ignore_service_or_method (svc_name service +:+ "." +:+ m_name method) lang.

(** *** [generate_codecs] *)

(** The body of the [try] statement for one method. *)
Definition method_try_body (lang : SupportedLanguages) (template : Template)
  (output_dir service_name : string) (method : Method)
  (contains_serialized_data_in_request : bool) (codec_file_name : string) : E unit :=
  if is_CPP lang then
    let! codec_template := e_lift (get_template "codec-template.h.j2") in
    let! content := e_lift (render_method codec_template service_name method
                              contains_serialized_data_in_request) in
    let! _ := e_save_file (path_join output_dir "codecs.h") content mode_a_plus in
    let! codec_template := e_lift (get_template "codec-template.cpp.j2") in
    let! content := e_lift (render_method codec_template service_name method
                              contains_serialized_data_in_request) in
    e_save_file (path_join output_dir "codecs.cpp") content mode_a_plus
  else
    let! content := e_lift (render_method template service_name method
                              contains_serialized_data_in_request) in
    e_save_file (path_join output_dir codec_file_name) content mode_w.

(** The body of [for method in service["methods"]]. *)
Definition generate_method (lang : SupportedLanguages) (template : Template)
  (output_dir : string) (data_containing_requests : gmap string (gmap string bool))
  (service : Service) (method : Method) : E unit :=
  let! ignored := ignore_method service method lang in
  if ignored then e_ret tt
  else
    let! method := e_lift (assign_message_ids (svc_id service) method) in
    let! codec_file_name :=
      e_lift (file_name_generators lang [svc_name service; m_name method]) in
    let! contains_serialized_data_in_request :=
      e_lift (match lookup_entry data_containing_requests (svc_name service)
                      (m_name method) with
              | Some b => Ret b
              | None => Raise KeyError
              end) in
    try_except_NotImplementedError
      (method_try_body lang template output_dir (svc_name service) method
         contains_serialized_data_in_request codec_file_name)
      (fun e => e_print (MissingTypeMapping codec_file_name (Some e))).

Fixpoint generate_methods (lang : SupportedLanguages) (template : Template)
  (output_dir : string) (data_containing_requests : gmap string (gmap string bool))
  (service : Service) (methods : list Method) : E unit :=
  match methods with
  | [] => e_ret tt
  | method :: rest =>
      let! _ := generate_method lang template output_dir data_containing_requests
                  service method in
      generate_methods lang template output_dir data_containing_requests service rest
  end.

(** The loop [for service in services] of [generate_codecs]; the table is
    the one [generate_data_containing_requests_lookup_table] returned. *)
Fixpoint generate_services (lang : SupportedLanguages) (template : Template)
  (output_dir : string) (data_containing_requests : gmap string (gmap string bool))
  (services : list Service) : E unit :=
  match services with
  | [] => e_ret tt
  | service :: rest =>
      let! ignored := ignore_service (svc_name service) lang in
      let! _ := if ignored then e_ret tt
                else generate_methods lang template output_dir data_containing_requests
                       service (svc_methods service) in
      generate_services lang template output_dir data_containing_requests rest
  end.

(** *** [generate_custom_codecs] *)

(** [codec["params"][0]["getterMethod"] = "toString()"]. *)
Definition set_getter_method (codec : CustomType) : res CustomType :=
  match ct_params codec with
  | None => Raise KeyError
  | Some [] => Raise IndexError
  | Some (first :: others) =>
      Ret {| ct_name := ct_name codec; ct_since := ct_since codec;
             ct_params :=
               Some ({| p_name := p_name first; p_type := p_type first;
                        p_since := p_since first;
                        p_getterMethod := Some "toString()" |} :: others) |}
  end.

(** The body of the [try] statement for one custom type.  The variable
    [codec_file_name] is assigned on the way and read by the handler, so it
    is carried along: [None] while it is unbound. *)
Definition custom_try_body (lang : SupportedLanguages)
  (template cpp_header_template cpp_source_template : Template)
  (output_dir : string) (codec : CustomType) (codec_file_name : option string)
  (w : world) : res unit * option string * world :=
  if is_CPP lang then
    let file_name_prefix := str_lower (ct_name codec) +:+ "_codec" in
    let header_file_name := file_name_prefix +:+ ".h" in
    let source_file_name := file_name_prefix +:+ ".cpp" in
    match render_codec cpp_header_template codec with
    | Raise e => (Raise e, Some header_file_name, w)
    | Ret content =>
        let w := written (path_join output_dir header_file_name) content mode_w w in
        match render_codec cpp_source_template codec with
        | Raise e => (Raise e, Some source_file_name, w)
        | Ret content =>
            (Ret tt, Some source_file_name,
             written (path_join output_dir source_file_name) content mode_w w)
        end
    end
  else
    match (if is_TS lang && String.eqb (ct_name codec) "HazelcastJsonValue"
           then set_getter_method codec else Ret codec) with
    | Raise e => (Raise e, codec_file_name, w)
    | Ret codec =>
        match file_name_generators lang [ct_name codec] with
        | Raise e => (Raise e, codec_file_name, w)
        | Ret name =>
            match render_codec template codec with
            | Raise e => (Raise e, Some name, w)
            | Ret content =>
                (Ret tt, Some name, written (path_join output_dir name) content mode_w w)
            end
        end
    end.

(** The body of [for codec in custom_types]. *)
Definition generate_custom_codec (lang : SupportedLanguages)
  (template cpp_header_template cpp_source_template : Template)
  (output_dir : string) (codec : CustomType) (codec_file_name : option string)
  (w : world) : res unit * option string * world :=
  match ignore_service (ct_name codec) lang w with
  | (Raise e, w) => (Raise e, codec_file_name, w)
  | (Ret true, w) => (Ret tt, codec_file_name, w)
  | (Ret false, w) =>
      match custom_try_body lang template cpp_header_template cpp_source_template
              output_dir codec codec_file_name w with
      | (Raise (NotImplementedError _), codec_file_name, w) =>
          match codec_file_name with
          | Some name => (Ret tt, codec_file_name, log (MissingTypeMapping name None) w)
          | None => (Raise (OtherError "UnboundLocalError"), codec_file_name, w)
          end
      | outcome => outcome
      end
  end.

Fixpoint generate_custom_types (lang : SupportedLanguages)
  (template cpp_header_template cpp_source_template : Template)
  (output_dir : string) (custom_types : list CustomType)
  (codec_file_name : option string) (w : world) : res unit * option string * world :=
  match custom_types with
  | [] => (Ret tt, codec_file_name, w)
  | codec :: rest =>
      match generate_custom_codec lang template cpp_header_template cpp_source_template
              output_dir codec codec_file_name w with
      | (Ret _, codec_file_name, w) =>
          generate_custom_types lang template cpp_header_template cpp_source_template
            output_dir rest codec_file_name w
      | outcome => outcome
      end
  end.

(** The loop [for service in services] of [generate_custom_codecs]. *)
Fixpoint generate_custom_services (lang : SupportedLanguages)
  (template cpp_header_template cpp_source_template : Template)
  (output_dir : string) (services : list Service)
  (codec_file_name : option string) (w : world) : res unit * option string * world :=
  match services with
  | [] => (Ret tt, codec_file_name, w)
  | service :: rest =>
      match svc_customTypes service with
      | None =>
          generate_custom_services lang template cpp_header_template cpp_source_template
            output_dir rest codec_file_name w
      | Some custom_types =>
          match generate_custom_types lang template cpp_header_template
                  cpp_source_template output_dir custom_types codec_file_name w with
          | (Ret _, codec_file_name, w) =>
              generate_custom_services lang template cpp_header_template
                cpp_source_template output_dir rest codec_file_name w
          | outcome => outcome
          end
      end
  end.

(** [generate_custom_codecs]: for C++ the two templates are fetched first. *)
Definition generate_custom_codecs (services : list Service) (template : Template)
  (output_dir : string) (lang : SupportedLanguages) : E unit :=
  fun w =>
    if is_CPP lang then
      match get_template "custom-codec-template.h.j2" with
      | Raise e => (Raise e, w)
      | Ret cpp_header_template =>
          match get_template "custom-codec-template.cpp.j2" with
          | Raise e => (Raise e, w)
          | Ret cpp_source_template =>
              let '(r, _, w) :=
                generate_custom_services lang template cpp_header_template
                  cpp_source_template output_dir services None w in
              (r, w)
          end
      end
    else
      let '(r, _, w) :=
        generate_custom_services lang template template template output_dir
          services None w in
      (r, w).

End Emission.

(** *** Reaching the [try] statement *)

Section ReachesTry.

Variable language_service_ignore_list : SupportedLanguages -> option (list string).
Variable fnmatch : string -> string -> bool.
Variable file_name_generators : SupportedLanguages -> list string -> res string.

(** No pattern of the language's ignore list matches [name]. *)
Definition not_ignored (lang : SupportedLanguages) (name : string) : Prop :=
  exists patterns,
    language_service_ignore_list lang = Some patterns
    /\ existsb (fun pattern => fnmatch name pattern) patterns = false.

(** The iteration of [generate_codecs] for [method] gets to its [try]
    statement with the enriched method, the file name and the flag. *)
Definition method_reaches_try (lang : SupportedLanguages)
  (data_containing_requests : gmap string (gmap string bool))
  (service : Service) (method enriched : Method) (codec_file_name : string)
  (contains_serialized_data_in_request : bool) : Prop :=
  not_ignored lang (svc_name service +:+ "." +:+ m_name method)
  /\ assign_message_ids (svc_id service) method = Ret enriched
  /\ file_name_generators lang [svc_name service; m_name enriched] = Ret codec_file_name
  /\ lookup_entry data_containing_requests (svc_name service) (m_name enriched)
     = Some contains_serialized_data_in_request.

(** The iteration of [generate_custom_codecs] for [codec], in a language
    other than C++, gets to its rendering with the adjusted custom type and
    the file name. *)
Definition codec_reaches_render (lang : SupportedLanguages)
  (codec adjusted : CustomType) (codec_file_name : string) : Prop :=
  not_ignored lang (ct_name codec)
  /\ (if is_TS lang && String.eqb (ct_name codec) "HazelcastJsonValue"
      then set_getter_method codec else Ret codec) = Ret adjusted
  /\ file_name_generators lang [ct_name adjusted] = Ret codec_file_name.

End ReachesTry.

(** *** What a batch leaves behind *)

(** The fate of one artifact: its file is written, or it is skipped with
    one printed line. *)
Inductive verdict : Type :=
| Emitted (file content : string)
| Skipped (line : diag).

Definition apply_verdict (w : world) (v : verdict) : world :=
  match v with
  | Emitted file content => written file content mode_w w
  | Skipped line => log line w
  end.

Section Verdicts.

Variable Template : Type.
Variable render_method : Template -> string -> Method -> bool -> res string.
Variable render_codec : Template -> CustomType -> res string.
Variable language_service_ignore_list : SupportedLanguages -> option (list string).
Variable fnmatch : string -> string -> bool.
Variable file_name_generators : SupportedLanguages -> list string -> res string.

(** The method's iteration reaches its [try] statement, and the renderer
    either returns the text of the file or raises [NotImplementedError]. *)
Definition method_verdict (lang : SupportedLanguages) (template : Template)
  (output_dir : string) (data_containing_requests : gmap string (gmap string bool))
  (service : Service) (method : Method) (v : verdict) : Prop :=
  exists enriched codec_file_name contains,
    method_reaches_try language_service_ignore_list fnmatch file_name_generators
      lang data_containing_requests service method enriched codec_file_name contains
    /\ match v with
       | Emitted file content =>
           file = path_join output_dir codec_file_name
           /\ render_method template (svc_name service) enriched contains = Ret content
       | Skipped line =>
           exists msg,
             render_method template (svc_name service) enriched contains
             = Raise (NotImplementedError msg)
             /\ line = MissingTypeMapping codec_file_name (Some msg)
       end.

(** The same for a custom type. *)
Definition codec_verdict (lang : SupportedLanguages) (template : Template)
  (output_dir : string) (codec : CustomType) (v : verdict) : Prop :=
  exists adjusted codec_file_name,
    codec_reaches_render language_service_ignore_list fnmatch file_name_generators
      lang codec adjusted codec_file_name
    /\ match v with
       | Emitted file content =>
           file = path_join output_dir codec_file_name
           /\ render_codec template adjusted = Ret content
       | Skipped line =>
           exists msg,
             render_codec template adjusted = Raise (NotImplementedError msg)
             /\ line = MissingTypeMapping codec_file_name None
       end.

(** The renderer raises something other than [NotImplementedError] for the
    method, or for the custom type. *)
Definition method_fails (lang : SupportedLanguages) (template : Template)
  (data_containing_requests : gmap string (gmap string bool))
  (service : Service) (method : Method) (e : exn) : Prop :=
  exists enriched codec_file_name contains,
    method_reaches_try language_service_ignore_list fnmatch file_name_generators
      lang data_containing_requests service method enriched codec_file_name contains
    /\ render_method template (svc_name service) enriched contains = Raise e
    /\ (forall msg, e <> NotImplementedError msg).

Definition codec_fails (lang : SupportedLanguages) (template : Template)
  (codec : CustomType) (e : exn) : Prop :=
  exists adjusted codec_file_name,
    codec_reaches_render language_service_ignore_list fnmatch file_name_generators
      lang codec adjusted codec_file_name
    /\ render_codec template adjusted = Raise e
    /\ (forall msg, e <> NotImplementedError msg).

End Verdicts.

(** A renderer for the examples: templates are named by strings, and the
    type [Exotic] has no mapping. *)
Definition demo_get_template (name : string) : res string := Ret name.

Definition demo_render_method (template service_name : string) (method : Method)
  (contains_serialized_data_in_request : bool) : res string :=
  if existsb (fun p => String.eqb (p_type p) "Exotic")
       (get_params (msg_params (m_request method)))
  then Raise (NotImplementedError "Missing type mapping for Exotic")
  else if String.eqb (m_name method) "broken"
  then Raise (OtherError "UndefinedError")
  else Ret (template +:+ ":" +:+ service_name +:+ "." +:+ m_name method).

Definition demo_render_codec (template : string) (codec : CustomType) : res string :=
  if existsb (fun p => String.eqb (p_type p) "Exotic") (get_params (ct_params codec))
  then Raise (NotImplementedError "Missing type mapping for Exotic")
  else Ret (template +:+ ":" +:+ ct_name codec).

Definition demo_ignore_list (lang : SupportedLanguages) : option (list string) :=
  match lang with
  | MD => None
  | _ => Some []
  end.

Definition demo_fnmatch (name pattern : string) : bool := String.eqb name pattern.

Definition demo_file_name (lang : SupportedLanguages) (names : list string) : res string :=
  Ret (String.concat "" names +:+ "Codec.java").

Definition empty_world : world := {| files := ∅; printed := [] |}.

Definition demo_service : Service :=
  {| svc_name := "Map"; svc_id := 1;
     svc_methods :=
       [ method_with_request "exotic" 1 [mk_param "value" "Exotic"];
         method_with_request "size" 2 [mk_param "name" "String"] ];
     svc_customTypes :=
       Some [ {| ct_name := "Odd"; ct_since := "2.0";
                 ct_params := Some [mk_param "value" "Exotic"] |};
              {| ct_name := "Address"; ct_since := "2.0";
                 ct_params := Some [mk_param "host" "String"] |} ] |}.

Definition demo_table : gmap string (gmap string bool) :=
  {[ "Map" := {[ "exotic" := false; "size" := false; "broken" := false ]} ]}.

(** The method [exotic] of the demo service once its ids are assigned. *)
Definition demo_exotic_enriched : Method :=
  {| m_name := "exotic"; m_id := 1; m_since := "2.0";
     m_request := {| msg_params := Some [mk_param "value" "Exotic"];
                     msg_id := Some 65792 |};
     m_response := {| msg_params := None; msg_id := Some 65793 |};
     m_events := None |}.

Definition demo_size_enriched : Method :=
  {| m_name := "size"; m_id := 2; m_since := "2.0";
     m_request := {| msg_params := Some [mk_param "name" "String"];
                     msg_id := Some 66048 |};
     m_response := {| msg_params := None; msg_id := Some 66049 |};
     m_events := None |}.

(** A C++ flavour of the demo renderers: the header templates need no type
    mapping, the source templates do. *)
Definition demo_render_method_cpp (template service_name : string) (method : Method)
  (contains_serialized_data_in_request : bool) : res string :=
  if String.eqb template "codec-template.h.j2"
  then Ret (template +:+ ":" +:+ service_name +:+ "." +:+ m_name method)
  else demo_render_method template service_name method
         contains_serialized_data_in_request.

Definition demo_render_codec_cpp (template : string) (codec : CustomType) : res string :=
  if String.eqb template "custom-codec-template.h.j2"
  then Ret (template +:+ ":" +:+ ct_name codec)
  else demo_render_codec template codec.

Definition demo_cpp_file_name (lang : SupportedLanguages) (names : list string)
  : res string :=
  Ret (String.concat "_" names +:+ "_codec.cpp").

(** ** Names and parameter lists

    The texts handled here are identifiers of the protocol definitions.  A
    text is kept as bytes; the case conversions below act on the letters A
    to Z and a to z and keep every other byte, which is what Python does on
    ASCII text. *)

Definition is_upper_letter (c : ascii) : bool :=
  let n := N_of_ascii c in ((65 <=? n) && (n <=? 90))%N.

Definition is_lower_letter (c : ascii) : bool :=
  let n := N_of_ascii c in ((97 <=? n) && (n <=? 122))%N.

Definition is_digit_char (c : ascii) : bool :=
  let n := N_of_ascii c in ((48 <=? n) && (n <=? 57))%N.

Definition ascii_upper (c : ascii) : ascii :=
  if is_lower_letter c then ascii_of_N (N_of_ascii c - 32) else c.

Fixpoint str_upper (s : string) : string :=
  match s with
  | EmptyString => EmptyString
  | String c r => String (ascii_upper c) (str_upper r)
  end.

(** All bytes below 128. *)
Fixpoint ascii_text (s : string) : bool :=
  match s with
  | EmptyString => true
  | String c r => (N_of_ascii c <? 128)%N && ascii_text r
  end.

(** [capital]: [txt[0].capitalize() + txt[1:]]. *)
Definition capital (txt : string) : res string :=
  match txt with
  | EmptyString => Raise IndexError
  | String c r => Ret (String (ascii_upper c) r)
  end.

(** [param_name]: [type_name[0].lower() + type_name[1:]]. *)
Definition param_name (type_name : string) : res string :=
  match type_name with
  | EmptyString => Raise IndexError
  | String c r => Ret (String (ascii_lower c) r)
  end.

(** ["".join(parts)]. *)
Definition str_join (parts : list string) : string := String.concat EmptyString parts.

(** [java_name]: every part between underscores is capitalized. *)
Definition java_name (type_name : string) : res string :=
  let* parts := res_map capital (py_split_all "_" type_name) in
  Ret (str_join parts).

(** [cs_name] and [cpp_name]: the same after the parentheses are taken out. *)
Definition cs_name (type_name : string) : res string :=
  let* parts :=
    res_map capital
      (py_split_all "_" (py_replace (py_replace type_name "(" EmptyString) ")" EmptyString)) in
  Ret (str_join parts).

Definition cpp_name (type_name : string) : res string :=
  let* parts :=
    res_map capital
      (py_split_all "_" (py_replace (py_replace type_name "(" EmptyString) ")" EmptyString)) in
  Ret (str_join parts).

(** [to_upper_snake_case]: an underscore goes before a capital letter that
    follows a small letter or a digit, or that is not the first character
    and precedes a small letter; then the text is upper-cased.  [prev] is
    the character before the one looked at. *)
Fixpoint insert_underscores (prev : option ascii) (s : string) : string :=
  match s with
  | EmptyString => EmptyString
  | String c r =>
      let after_small :=
        match prev with
        | Some p => is_lower_letter p || is_digit_char p
        | None => false
        end in
      let before_small :=
        match prev, r with
        | Some _, String n _ => is_lower_letter n
        | _, _ => false
        end in
      if is_upper_letter c && (after_small || before_small)
      then String "_" (String c (insert_underscores (Some c) r))
      else String c (insert_underscores (Some c) r)
  end.

Definition to_upper_snake_case (camel_case_str : string) : string :=
  str_upper (insert_underscores None camel_case_str).

(** The text without its underscores. *)
Fixpoint without_underscores (s : string) : string :=
  match s with
  | EmptyString => EmptyString
  | String c r =>
      if Ascii.eqb c "_" then without_underscores r
      else String c (without_underscores r)
  end.

(** [item_type]: [None] is Python's [None], returned when the type is not
    a list. *)
Definition item_type (lang_name : string -> res string) (param_type : string)
  : res (option string) :=
  if startswith param_type "List_" || startswith param_type "ListCN_" then
    let* item := item_type_name param_type in
    let* name := lang_name item in
    Ret (Some name)
  else Ret None.

(** [key_type] and [value_type]: [param_type.split("_", 2)[1]] and [[2]]. *)
Definition key_type (lang_name : string -> res string) (param_type : string) : res string :=
  match py_split "_" 2 param_type !! 1%nat with
  | Some key => lang_name key
  | None => Raise IndexError
  end.

Definition value_type (lang_name : string -> res string) (param_type : string) : res string :=
  match py_split "_" 2 param_type !! 2%nat with
  | Some value => lang_name value
  | None => Raise IndexError
  end.

(** The characters of [s] do not include [c]. *)
Fixpoint lacks_char (c : ascii) (s : string) : bool :=
  match s with
  | EmptyString => true
  | String d r => negb (Ascii.eqb d c) && lacks_char c r
  end.

Section FixedSizeTables.

(** The tables of the module [binary]. *)
Variable FixSizedTypes : list string.
Variable FixSizedListTypes : list string.
Variable FixSizedMapTypes : list string.
Variable FixSizedEntryListTypes : list string.

Definition str_in (x : string) (l : list string) : bool := existsb (String.eqb x) l.

Definition is_fixed_type (param : Param) : bool := str_in (p_type param) FixSizedTypes.

Definition fixed_params (params : list Param) : list Param :=
  List.filter is_fixed_type params.

Definition var_size_params (params : list Param) : list Param :=
  List.filter (fun p => negb (is_fixed_type p)) params.

Definition is_var_sized_list (param_type : string) : bool :=
  startswith param_type "List_" && negb (str_in param_type FixSizedListTypes).

Definition is_var_sized_list_contains_nullable (param_type : string) : bool :=
  startswith param_type "ListCN_" && negb (str_in param_type FixSizedListTypes).

Definition is_var_sized_map (param_type : string) : bool :=
  startswith param_type "Map_" && negb (str_in param_type FixSizedMapTypes).

Definition is_var_sized_entry_list (param_type : string) : bool :=
  startswith param_type "EntryList_" && negb (str_in param_type FixSizedEntryListTypes).

(** How many of the four variable-sized kinds a type name belongs to. *)
Definition var_sized_kinds (param_type : string) : nat :=
  (Nat.b2n (is_var_sized_list param_type)
   + Nat.b2n (is_var_sized_list_contains_nullable param_type)
   + Nat.b2n (is_var_sized_map param_type)
   + Nat.b2n (is_var_sized_entry_list param_type))%nat.

End FixedSizeTables.

(** [new_params]: the parameters whose [since] differs from the given one. *)
Definition new_params (since : string) (params : list Param) : list Param :=
  List.filter (fun p => negb (String.eqb (p_since p) since)) params.

(** A list comprehension whose condition can raise. *)
Fixpoint res_filter {A : Type} (f : A -> res bool) (l : list A) : res (list A) :=
  match l with
  | [] => Ret []
  | a :: r =>
      let* keep := f a in
      let* rest := res_filter f r in
      Ret (if keep then a :: rest else rest)
  end.

(** [filter_new_params]: the parameters added before or at [version]. *)
Definition filter_new_params (params : list Param) (version : string) : res (list Param) :=
  let* version_as_number := get_version_as_number version in
  res_filter
    (fun p =>
       let* since := get_version_as_number (p_since p) in
       Ret (version_as_number >=? since))
    params.

(** How many leading versions are at most [v]. *)
Fixpoint count_up_to (v : Z) (vs : list Z) : nat :=
  match vs with
  | [] => O
  | x :: rest => if v >=? x then S (count_up_to v rest) else O
  end.

(** ** Reading the analyzer's sets *)

(** The two sets of [st] are within those of [st']. *)
Definition memo_within (st st' : memo) : Prop :=
  types_containing_serialized_data st ⊆ types_containing_serialized_data st'
  /\ types_not_containing_serialized_data st ⊆ types_not_containing_serialized_data st'.

(** Every return of [f] leaves the sets at least as large. *)
Definition grows (f : string -> M bool) : Prop :=
  forall t st b st', f t st = Returns (b, st') -> memo_within st st'.

(** ** Reading the writer's output *)

Definition is_hex_char (c : ascii) : bool :=
  existsb (Ascii.eqb c) (list_ascii_of_string "0123456789abcdef").

(** The text [save_file] writes for [content] into [file]. *)
Definition artifact_text (file content : string) : string :=
  py_replace (normalized file content) codec_hash_token
    (md5_hexdigest (normalized file content)).

(** The text of a file, empty when the file does not exist. *)
Definition file_text (files : gmap string string) (file : string) : string :=
  default EmptyString (files !! file).

(** No blank or tab stands just before a line feed or at the end. *)
Fixpoint no_trailing_blanks (s : string) : bool :=
  match s with
  | EmptyString => true
  | String c r =>
      negb ((Ascii.eqb c " " || Ascii.eqb c TAB)
            && match r with
               | EmptyString => true
               | String d _ => Ascii.eqb d LF
               end)
      && no_trailing_blanks r
  end.

(** The text does not end with a line feed. *)
Fixpoint no_final_lf (s : string) : bool :=
  match s with
  | EmptyString => true
  | String c EmptyString => negb (Ascii.eqb c LF)
  | String _ r => no_final_lf r
  end.

Definition is_blank (c : ascii) : bool := Ascii.eqb c " " || Ascii.eqb c TAB.

Fixpoint all_blank (s : string) : bool :=
  match s with
  | EmptyString => true
  | String c r => is_blank c && all_blank r
  end.

(** *** What a run printed *)

(** Nothing was printed. *)
Definition silent (log : list diag) : bool :=
  match log with
  | [] => true
  | _ :: _ => false
  end.

(** *** Emission and the files already there *)

(** The outcome of [m] and the files it leaves depend on the files it
    finds, not on what was printed before. *)
Definition framed {A : Type} (m : E A) : Prop :=
  forall w1 w2,
    files w1 = files w2 ->
    fst (m w1) = fst (m w2) /\ files (snd (m w1)) = files (snd (m w2)).

(** A pattern of the language's ignore list matches the name. *)
Definition in_ignore_list
  (language_service_ignore_list : SupportedLanguages -> option (list string))
  (fnmatch : string -> string -> bool) (lang : SupportedLanguages) (name : string)
  : bool :=
  match language_service_ignore_list lang with
  | Some patterns => existsb (fun pattern => fnmatch name pattern) patterns
  | None => false
  end.

(** *** Names of the generated files *)

(** [_capitalized_name_generator(extension)] applied to [names]:
    ["%sCodec.%s" % ("".join(map(capital, names)), extension)]. *)
Definition _capitalized_name_generator (extension : string) (names : list string)
  : res string :=
  let* parts := res_map capital names in
  Ret (str_join parts +:+ "Codec." +:+ extension).

(** A text without carriage return and without blank or tab before a line
    end, closed by exactly one line feed. *)
Definition tidy (text : string) : Prop :=
  lacks_char CR text = true
  /\ no_trailing_blanks text = true
  /\ exists body, text = body +:+ lf /\ no_final_lf body = true.

(** *** [validate_custom_protocol_definitions] *)

(** The loop [for custom_type in custom_types["customTypes"]]. *)
Fixpoint check_custom_types (protocol_versions : list Z)
  (custom_types : list CustomType) (valid : bool) : W bool :=
  match custom_types with
  | [] => w_ret valid
  | custom_type :: rest =>
      let params := get_params (ct_params custom_type) in
      let+ ok := is_parameters_ordered_and_semantically_correct (ct_since custom_type)
                   ("CustomTypes#" +:+ ct_name custom_type) params protocol_versions in
      check_custom_types protocol_versions rest (if negb ok then false else valid)
  end.

Section CustomSchemaValidation.

(** [jsonschema.validate] for the schema of the custom-type documents. *)
Variable jsonschema_validate : Service -> option string.

(** Only the first document of [definition] is looked at. *)
Definition validate_custom_protocol_definitions (definition : list Service)
  (protocol_versions : list Z) : W bool :=
  match definition with
  | [] => w_lift (Raise IndexError)
  | custom_types :: _ =>
      let+ ok := validate_against_schema jsonschema_validate custom_types in
      if negb ok then w_ret false
      else
        match svc_customTypes custom_types with
        | None => w_lift (Raise KeyError)
        | Some types => check_custom_types protocol_versions types true
        end
  end.

End CustomSchemaValidation.

(** A document of custom types for the examples: the second type is
    declared for version 2.3, which skips 2.2. *)
Definition custom_document : Service :=
  {| svc_name := "Custom"; svc_id := 0; svc_methods := [];
     svc_customTypes :=
       Some [ {| ct_name := "Address"; ct_since := "2.0";
                 ct_params := Some [mk_param "host" "String"] |};
              {| ct_name := "Late"; ct_since := "2.3"; ct_params := None |} ] |}.

(** *** Version texts the validator can read *)

Definition parses (since : string) : bool :=
  match get_version_as_number since with
  | Ret _ => true
  | Raise _ => false
  end.

Definition params_parse (params : option (list Param)) : bool :=
  forallb (fun param => parses (p_since param)) (get_params params).

(** Every since value of the method, of its request and response
    parameters, of its events and of their parameters can be read. *)
Definition method_parses (method : Method) : bool :=
  parses (m_since method)
  && params_parse (msg_params (m_request method))
  && params_parse (msg_params (m_response method))
  && forallb (fun event => parses (ev_since event) && params_parse (ev_params event))
       (declared_events method).

Definition service_parses (service : Service) : bool :=
  forallb method_parses (svc_methods service).

(** * Properties *)

(** ** Version registry *)

(** C8. For version triples whose minor and patch components are below
    100, the encoding is strictly monotonic in the lexicographic order of
    (major, minor, patch). *)
Theorem version_to_number_strictly_monotonic (a b c a' b' c' : N) :
  (b < 100)%N -> (c < 100)%N -> (b' < 100)%N -> (c' < 100)%N ->
  version_lex_lt (a, b, c) (a', b', c') ->
  encode (a, b, c) < encode (a', b', c').
Proof.
  unfold version_lex_lt, encode, version_to_number, MAJOR_VERSION_MULTIPLIER,
    MINOR_VERSION_MULTIPLIER, PATCH_VERSION_MULTIPLIER.
  intros Hb Hc Hb' Hc' [Hlt | [-> [Hlt | [-> Hlt]]]]; lia.
Qed.

(** The chain 2.0.0 < 2.1.0 < 2.1.5 < 3.0.0 of the encoding, obtained from
    the monotonicity theorem. *)
Lemma version_to_number_strictly_monotonic_witness :
  version_to_number 2 0 0 < version_to_number 2 1 0
  /\ version_to_number 2 1 0 < version_to_number 2 1 5
  /\ version_to_number 2 1 5 < version_to_number 3 0 0.
Proof.
  split; [| split].
  - apply (version_to_number_strictly_monotonic 2 0 0 2 1 0); try lia.
    simpl. lia.
  - apply (version_to_number_strictly_monotonic 2 1 0 2 1 5); try lia.
    simpl. lia.
  - apply (version_to_number_strictly_monotonic 2 1 5 3 0 0); try lia.
    simpl. lia.
Defined.

Example version_to_number_values :
  version_to_number 2 0 0 = 20000 /\ version_to_number 2 1 5 = 20105
  /\ get_version_as_number "2.1" = Ret 20100
  /\ get_version_as_number "2.0.1" = Ret 20001
  /\ get_version_as_number "2" = Raise TypeError
  /\ get_version_as_number "2.x" = Raise ValueError.
Proof. repeat split; reflexivity. Qed.

(** ** Message ID assigner *)

Lemma parse_digits_app (base : Z) (l1 l2 : list ascii) (acc : Z) :
  parse_digits base acc (l1 ++ l2) =
  match parse_digits base acc l1 with
  | Some v => parse_digits base v l2
  | None => None
  end.
Proof.
  revert acc. induction l1 as [| c l1 IH]; intros acc; simpl; [reflexivity |].
  destruct (digit_value base c); [apply IH | reflexivity].
Qed.

Lemma digit_value_hex_digit (d : Z) :
  0 <= d < 16 -> digit_value 16 (hex_digit d) = Some d.
Proof.
  intros H.
  assert (Hd : d = 0 \/ d = 1 \/ d = 2 \/ d = 3 \/ d = 4 \/ d = 5 \/ d = 6 \/ d = 7 \/
               d = 8 \/ d = 9 \/ d = 10 \/ d = 11 \/ d = 12 \/ d = 13 \/ d = 14 \/ d = 15)
    by lia.
  repeat (destruct Hd as [-> | Hd]; [reflexivity |]). subst d. reflexivity.
Qed.

(** Reading back the digits of [n] continues the parse from [n]. *)
Lemma parse_hex_digits_lsb (fuel : nat) :
  forall n tl, 0 <= n < 2 ^ Z.of_nat fuel ->
  parse_digits 16 0 (rev (hex_digits_lsb fuel n) ++ tl) = parse_digits 16 n tl.
Proof.
  induction fuel as [| k IH]; intros n tl Hn.
  - simpl in Hn. assert (n = 0) by lia. subst n. reflexivity.
  - cbn [hex_digits_lsb]. destruct (n <? 16) eqn:Hlt.
    + apply Z.ltb_lt in Hlt. cbn [rev app parse_digits].
      rewrite digit_value_hex_digit by lia. f_equal.
    + apply Z.ltb_ge in Hlt. cbn [rev]. rewrite <- app_assoc. cbn [app].
      assert (Hk : 0 <= n / 16 < 2 ^ Z.of_nat k).
      { split; [apply Z.div_pos; lia |].
        apply Z.div_lt_upper_bound; [lia |].
        rewrite Nat2Z.inj_succ, Z.pow_succ_r in Hn by lia. lia. }
      rewrite IH by exact Hk. cbn [parse_digits].
      rewrite digit_value_hex_digit by (apply Z.mod_pos_bound; lia).
      f_equal. pose proof (Z.div_mod n 16). lia.
Qed.

Lemma parse_hex_of_nonneg (n : Z) (tl : list ascii) :
  0 <= n -> parse_digits 16 0 (hex_of_nonneg n ++ tl) = parse_digits 16 n tl.
Proof.
  intros Hn. unfold hex_of_nonneg. apply parse_hex_digits_lsb.
  split; [exact Hn |].
  destruct (Z.eq_dec n 0) as [-> | Hne]; [reflexivity |].
  rewrite Nat2Z.inj_succ, Z2Nat.id by apply Z.log2_nonneg.
  apply Z.log2_spec. lia.
Qed.

Lemma hex_digits_lsb_nonempty (k : nat) (n : Z) : hex_digits_lsb (S k) n <> [].
Proof. cbn [hex_digits_lsb]. destruct (n <? 16); discriminate. Qed.

Lemma hex_of_nonneg_nonempty (n : Z) : hex_of_nonneg n <> [].
Proof.
  unfold hex_of_nonneg. intros H. apply (f_equal (@rev ascii)) in H.
  rewrite rev_involutive in H. simpl rev in H.
  exact (hex_digits_lsb_nonempty _ _ H).
Qed.

(** A leading field: any non-negative number reads back as itself. *)
Lemma parse_fmt_02x_leading (n : Z) (tl : list ascii) :
  0 <= n -> parse_digits 16 0 (fmt_02x n ++ tl) = parse_digits 16 n tl.
Proof.
  intros Hn. unfold fmt_02x.
  destruct (n <? 0) eqn:Hneg; [apply Z.ltb_lt in Hneg; lia |].
  destruct (length (hex_of_nonneg n) <? 2)%nat.
  - cbn [app parse_digits]. change (digit_value 16 "0") with (Some 0).
    apply parse_hex_of_nonneg; exact Hn.
  - apply parse_hex_of_nonneg; exact Hn.
Qed.

(** An inner field below 256 is printed as exactly two digits. *)
Lemma fmt_02x_byte (n : Z) :
  0 <= n < 256 -> fmt_02x n = [hex_digit (n / 16); hex_digit (n mod 16)].
Proof.
  intros Hn. unfold fmt_02x, hex_of_nonneg.
  destruct (n <? 0) eqn:Hneg; [apply Z.ltb_lt in Hneg; lia |].
  destruct (n <? 16) eqn:Hlt.
  - apply Z.ltb_lt in Hlt. cbn [hex_digits_lsb]. rewrite (proj2 (Z.ltb_lt n 16)) by lia.
    cbn [rev app length]. rewrite Z.div_small, Z.mod_small by lia. reflexivity.
  - apply Z.ltb_ge in Hlt.
    assert (Hlog : (4 <= Z.log2 n)) by (apply Z.log2_le_pow2; lia).
    destruct (Z.to_nat (Z.log2 n)) as [| k] eqn:Hk; [lia |].
    cbn [hex_digits_lsb]. rewrite (proj2 (Z.ltb_ge n 16)) by lia.
    assert (Hq : n / 16 < 16) by (apply Z.div_lt_upper_bound; lia).
    rewrite (proj2 (Z.ltb_lt (n / 16) 16)) by lia. reflexivity.
Qed.

Lemma parse_fmt_02x_byte (n acc : Z) (tl : list ascii) :
  0 <= n < 256 ->
  parse_digits 16 acc (fmt_02x n ++ tl) = parse_digits 16 (acc * 256 + n) tl.
Proof.
  intros Hn. rewrite fmt_02x_byte by exact Hn. cbn [app parse_digits].
  rewrite !digit_value_hex_digit.
  - f_equal. pose proof (Z.div_mod n 16). lia.
  - apply Z.mod_pos_bound; lia.
  - split; [apply Z.div_pos; lia | apply Z.div_lt_upper_bound; lia].
Qed.

Lemma py_int_base_0x (cs : list ascii) :
  py_int_base 16 (string_of_list_ascii ("0"%char :: "x"%char :: cs)) = parse_unsigned 16 cs.
Proof.
  unfold py_int_base. rewrite list_ascii_of_string_of_list_ascii. reflexivity.
Qed.

(** The id of a message whose method id and kind fit in one byte each. *)
Lemma message_id_bytes (service_id method_id kind : Z) :
  0 <= service_id -> 0 <= method_id < 256 -> 0 <= kind < 256 ->
  message_id service_id method_id kind =
  Ret (service_id * 65536 + method_id * 256 + kind).
Proof.
  intros Hs Hm Hk. unfold message_id, id_fmt.
  rewrite py_int_base_0x. unfold parse_unsigned.
  destruct (fmt_02x service_id ++ fmt_02x method_id ++ fmt_02x kind) eqn:Hl.
  - exfalso. apply app_eq_nil in Hl as [_ Hl]. apply app_eq_nil in Hl as [Hl _].
    rewrite fmt_02x_byte in Hl by exact Hm. discriminate.
  - rewrite <- Hl. rewrite parse_fmt_02x_leading by exact Hs.
    rewrite parse_fmt_02x_byte by exact Hm.
    rewrite <- (app_nil_r (fmt_02x kind)).
    rewrite parse_fmt_02x_byte by exact Hk. cbn [parse_digits]. f_equal. lia.
Qed.




Example message_ids_3_5 :
  message_id 3 5 0 = Ret 0x030500 /\ message_id 3 5 1 = Ret 0x030501
  /\ message_id 3 5 2 = Ret 0x030502 /\ message_id 3 5 3 = Ret 0x030503.
Proof. repeat split; reflexivity. Qed.


(** ** Schema and ordering validator *)

Lemma py_in_In (x : Z) (l : list Z) : py_in x l = true <-> In x l.
Proof.
  unfold py_in. rewrite existsb_exists. split.
  - intros (y & Hy & Heq). apply Z.eqb_eq in Heq. subst y. exact Hy.
  - intros Hx. exists x. split; [exact Hx | apply Z.eqb_refl].
Qed.

(** The three ways a version passes the check. *)
Lemma is_semantically_correct_param_cases (version first : Z) (rest : list Z) :
  exists b,
    is_semantically_correct_param version (first :: rest) = Ret b
    /\ (b = true <->
        version = first
        \/ (version mod 100 = 0 /\ In (version - 100) (first :: rest))
        \/ (version mod 100 <> 0 /\ In (version - 1) (first :: rest))).
Proof.
  unfold is_semantically_correct_param, MINOR_VERSION_MULTIPLIER, PATCH_VERSION_MULTIPLIER.
  destruct (version =? first) eqn:Hfirst; cbn [negb].
  - apply Z.eqb_eq in Hfirst. exists true. split; [reflexivity |]. tauto.
  - apply Z.eqb_neq in Hfirst.
    destruct (version mod 100 =? 0) eqn:Hminor.
    + apply Z.eqb_eq in Hminor.
      destruct (py_in (version - 100) (first :: rest)) eqn:Hin; cbn [negb].
      * exists true. split; [reflexivity |]. apply py_in_In in Hin. tauto.
      * exists false. split; [reflexivity |].
        split; [discriminate |]. intros [H | [[_ H] | [H _]]]; try contradiction.
        apply py_in_In in H. congruence.
    + apply Z.eqb_neq in Hminor. rewrite Z.mod_1_r. cbn [Z.eqb].
      destruct (py_in (version - 1) (first :: rest)) eqn:Hin; cbn [negb].
      * exists true. split; [reflexivity |]. apply py_in_In in Hin. tauto.
      * exists false. split; [reflexivity |].
        split; [discriminate |]. intros [H | [[H _] | [_ H]]]; try contradiction.
        apply py_in_In in H. congruence.
Qed.

(** C2 (amended). Against a non-empty list of known versions the check
    returns, and it accepts a version iff it is the first element of the
    list, or its last two decimal digits are 00 and the version 100 below
    is known, or they are not 00 and the version 1 below is known.  A
    major-version bump falls under the second case: no exemption exists
    for it. *)
Theorem is_semantically_correct_param_accepts (version first : Z) (rest : list Z) :
  exists b,
    is_semantically_correct_param version (first :: rest) = Ret b
    /\ (b = true <->
        version = first
        \/ (version mod 100 = 0 /\ In (version - 100) (first :: rest))
        \/ (version mod 100 <> 0 /\ In (version - 1) (first :: rest))).
Proof. apply is_semantically_correct_param_cases. Qed.

Example is_semantically_correct_param_examples :
  is_semantically_correct_param 20000 [20000; 20100] = Ret true
  /\ is_semantically_correct_param 20100 [20000; 20100] = Ret true
  /\ is_semantically_correct_param 20200 [20000; 20100] = Ret true
  /\ is_semantically_correct_param 20300 [20000; 20100] = Ret false
  /\ is_semantically_correct_param 20101 [20000; 20100] = Ret true
  /\ is_semantically_correct_param 20102 [20000; 20100] = Ret false
  /\ is_semantically_correct_param 20000 [] = Raise IndexError.
Proof. repeat split; reflexivity. Qed.

(** C2 (as stated) fails for a major-version bump: with the versions 2.0,
    2.1 and 3.0 known, "3.0" is encoded as 30000 and rejected, because
    29900 (2.99) is not known. *)
Lemma major_bump_rejected_counterexample :
  get_version_as_number "3.0" = Ret 30000
  /\ is_semantically_correct_param 30000 [20000; 20100; 30000] = Ret false.
Proof. split; reflexivity. Qed.

Lemma is_semantically_correct_param_returns (version : Z) (pvs : list Z) :
  pvs <> [] ->
  is_semantically_correct_param version pvs = Ret (accepted pvs version).
Proof.
  intros Hne. destruct pvs as [| first rest]; [contradiction |].
  unfold accepted.
  destruct (is_semantically_correct_param_cases version first rest) as (b & -> & _).
  destruct b; reflexivity.
Qed.

Lemma w_bind_lift_ret {A B : Type} (a : A) (f : A -> W B) :
  w_bind (w_lift (Ret a)) f = f a.
Proof. cbn. destruct (f a); reflexivity. Qed.

Lemma w_bind_ret {A B : Type} (a : A) (f : A -> W B) : w_bind (w_ret a) f = f a.
Proof. cbn. destruct (f a); reflexivity. Qed.

Lemma w_bind_print {B : Type} (d : diag) (f : unit -> W B) :
  w_bind (print d) f = (fst (f tt), d :: snd (f tt)).
Proof. cbn. destruct (f tt); reflexivity. Qed.

Lemma w_bind_pair {A B : Type} (a : A) (l : list diag) (f : A -> W B) :
  w_bind (Ret a, l) f = (fst (f a), l ++ snd (f a)).
Proof. cbn. destruct (f a); reflexivity. Qed.

Lemma w_bind_ret_nil {A B : Type} (a : A) (f : A -> W B) : w_bind (Ret a, []) f = f a.
Proof. cbn. destruct (f a); reflexivity. Qed.

Ltac w_step :=
  unfold print, w_ret, w_lift;
  repeat first [rewrite w_bind_ret_nil | rewrite w_bind_pair; cbn [fst snd app]].

Lemma w_bind_lift_raise {A B : Type} (e : exn) (f : A -> W B) :
  w_bind (w_lift (Raise e)) f = (Raise e, []).
Proof. reflexivity. Qed.

Lemma nondecreasing_cons (a b : Z) (l : list Z) :
  nondecreasing (a :: b :: l) = negb (a >? b) && nondecreasing (b :: l).
Proof.
  cbn [nondecreasing]. f_equal. rewrite Z.gtb_ltb, Z.leb_antisym.
  reflexivity.
Qed.

Lemma check_params_outcome (name : string) (pvs : list Z) :
  pvs <> [] ->
  forall (params : list Param) (vs : list Z),
    Forall2 (fun p v => get_version_as_number (p_since p) = Ret v) params vs ->
    forall (version : Z) (is_ordered is_sem : bool),
    exists log,
      check_params name pvs params version is_ordered is_sem =
        (Ret (is_ordered && nondecreasing (version :: vs),
              is_sem && forallb (accepted pvs) vs), log)
      /\ order_diags log =
           map (fun n => ParamNotOrdered n name)
               (out_of_order version (combine (map p_name params) vs)).
Proof.
  intros Hne params vs Hparse.
  induction Hparse as [| p v params vs Hp Hrest IH]; intros version is_ordered is_sem.
  - exists []. cbn. rewrite !andb_true_r. split; reflexivity.
  - cbn [check_params]. rewrite Hp, w_bind_lift_ret.
    rewrite (is_semantically_correct_param_returns v pvs Hne), w_bind_lift_ret.
    rewrite nondecreasing_cons.
    cbn [forallb map combine out_of_order].
    destruct (accepted pvs v); destruct (version >? v); cbn [negb]; w_step;
      match goal with
      | |- context [check_params name pvs params v ?io ?isc] =>
          destruct (IH v io isc) as (log & Hrun & Hlog); rewrite Hrun
      end;
      cbn [fst snd]; eexists; (split; [f_equal; f_equal |]).
    all: cbn [order_diags List.filter is_order_diag map andb];
      rewrite ?andb_false_r, ?andb_true_r; try reflexivity;
      try (fold (order_diags log); rewrite Hlog; reflexivity).
    all: f_equal; destruct is_sem; reflexivity.
Qed.

Lemma out_of_order_nil_iff (names : list string) :
  forall (vs : list Z) (prev : Z),
    length names = length vs ->
    (out_of_order prev (combine names vs) = [] <-> nondecreasing (prev :: vs) = true).
Proof.
  induction names as [| n names IH]; intros [| v vs] prev Hlen; try discriminate.
  - cbn. tauto.
  - injection Hlen as Hlen. rewrite nondecreasing_cons.
    cbn [combine out_of_order]. destruct (prev >? v); cbn [negb andb].
    + split; discriminate.
    + apply IH. exact Hlen.
Qed.

Lemma nondecreasing_head (prev : Z) (vs : list Z) :
  nondecreasing (prev :: vs) = false <->
  nondecreasing vs = false \/ (exists first, head vs = Some first /\ prev > first).
Proof.
  destruct vs as [| v vs].
  - cbn. split; [discriminate |]. intros [H | (first & H & _)]; discriminate.
  - rewrite nondecreasing_cons. rewrite Z.gtb_ltb.
    destruct (v <? prev) eqn:Hlt; cbn [negb andb].
    + apply Z.ltb_lt in Hlt. split; [| reflexivity].
      intros _. right. exists v. split; [reflexivity | lia].
    + apply Z.ltb_ge in Hlt. split; [tauto |].
      intros [H | (first & H & Hgt)]; [exact H |].
      cbn in H. injection H as <-. lia.
Qed.

(** C7. When the versions involved parse, the call returns; the ordering
    diagnostics it prints name exactly the parameters whose since value
    lies below that of their predecessor (the owner's since for the first
    parameter), so an ordering violation is reported iff the parameters'
    since values are not non-decreasing or the owner's since exceeds the
    first parameter's; the result is true iff nothing is out of order and
    every version passes the semantic check. *)
Theorem ordering_violation_reported
  (since name : string) (params : list Param) (pvs : list Z) (v : Z) (vs : list Z) :
  pvs <> [] ->
  (exists cut, rindex name "#" = Ret cut) ->
  get_version_as_number since = Ret v ->
  Forall2 (fun p pv => get_version_as_number (p_since p) = Ret pv) params vs ->
  exists b log,
    is_parameters_ordered_and_semantically_correct since name params pvs = (Ret b, log)
    /\ order_diags log =
         map (fun n => ParamNotOrdered n name)
             (out_of_order v (combine (map p_name params) vs))
    /\ (order_diags log <> [] <->
        nondecreasing vs = false \/ (exists first, head vs = Some first /\ v > first))
    /\ b = nondecreasing (v :: vs) && forallb (accepted pvs) (v :: vs).
Proof.
  intros Hne (cut & Hcut) Hv Hparse.
  unfold is_parameters_ordered_and_semantically_correct.
  rewrite Hv, w_bind_lift_ret.
  rewrite (is_semantically_correct_param_returns v pvs Hne), w_bind_lift_ret.
  assert (Hlen : length (map p_name params) = length vs).
  { rewrite length_map. exact (Forall2_length _ _ _ Hparse). }
  assert (Hiff : forall log,
    order_diags log = map (fun n => ParamNotOrdered n name)
                          (out_of_order v (combine (map p_name params) vs)) ->
    (order_diags log <> [] <->
     nondecreasing vs = false \/ (exists first, head vs = Some first /\ v > first))).
  { intros log ->. rewrite <- nondecreasing_head.
    pose proof (out_of_order_nil_iff _ vs v Hlen) as Hnil.
    destruct (out_of_order v (combine (map p_name params) vs)) eqn:Hout.
    - cbn [map]. destruct Hnil as [Hnil _]. rewrite (Hnil eq_refl).
      split; [congruence | discriminate].
    - cbn [map]. destruct (nondecreasing (v :: vs)).
      + destruct Hnil as [_ Hnil]. discriminate (Hnil eq_refl).
      + split; [reflexivity | discriminate]. }
  cbn [forallb].
  destruct (accepted pvs v); cbn [negb]; [| rewrite Hcut]; w_step;
    match goal with
    | |- context [check_params name pvs params v ?io ?isc] =>
        destruct (check_params_outcome name pvs Hne params vs Hparse v io isc)
          as (log & Hrun & Hlog); rewrite Hrun
    end;
    w_step; cbn [fst snd app andb]; rewrite ?app_nil_r;
    do 2 eexists; (split; [reflexivity |]).
  - split; [exact Hlog |]. split; [apply Hiff; exact Hlog |]. reflexivity.
  - cbn [order_diags List.filter is_order_diag]. fold (order_diags log).
    split; [exact Hlog |]. split; [apply Hiff; exact Hlog |].
    rewrite andb_false_r. reflexivity.
Qed.

(** The since values 1.0, 1.1, 1.0 under an owner introduced in 1.0. *)
Lemma ordering_violation_reported_witness :
  exists b log,
    is_parameters_ordered_and_semantically_correct "1.0" "Map#put#request"
      params_1_0__1_1__1_0 [10000; 10100] = (Ret b, log)
    /\ order_diags log =
         map (fun n => ParamNotOrdered n "Map#put#request")
             (out_of_order 10000
                (combine (map p_name params_1_0__1_1__1_0) [10000; 10100; 10000]))
    /\ (order_diags log <> [] <->
        nondecreasing [10000; 10100; 10000] = false
        \/ (exists first, head [10000; 10100; 10000] = Some first /\ 10000 > first))
    /\ b = nondecreasing [10000; 10000; 10100; 10000]
           && forallb (accepted [10000; 10100]) [10000; 10000; 10100; 10000].
Proof.
  apply (ordering_violation_reported "1.0" "Map#put#request" params_1_0__1_1__1_0
           [10000; 10100] 10000 [10000; 10100; 10000]).
  - discriminate.
  - exists 7%nat. reflexivity.
  - reflexivity.
  - repeat constructor.
Defined.

(** The list 1.0, 1.1, 1.0 fails, and the one diagnostic names the third
    parameter. *)
Example since_1_0__1_1__1_0_fails :
  is_parameters_ordered_and_semantically_correct "1.0" "Map#put#request"
    params_1_0__1_1__1_0 [10000; 10100]
  = (Ret false, [ParamNotOrdered "third" "Map#put#request"]).
Proof. reflexivity. Qed.

(** *** The [valid] flag only ever goes from true to false *)

Lemma w_and_true (m : W bool) : w_and true m = m.
Proof. destruct m as [[b | e] l]; reflexivity. Qed.

Lemma check_events_valid (method_name : string) (pvs : list Z) (events : list Event) :
  forall valid,
    check_events method_name pvs events valid =
    w_and valid (check_events method_name pvs events true).
Proof.
  induction events as [| ev rest IH]; intros valid.
  - destruct valid; reflexivity.
  - cbn [check_events].
    destruct (is_parameters_ordered_and_semantically_correct (ev_since ev)
                (method_name +:+ "#" +:+ ev_name ev +:+ "#event")
                (get_params (ev_params ev)) pvs) as [[ok | e] l]; [| reflexivity].
    rewrite !w_bind_pair.
    rewrite (IH (if negb ok then false else valid)), (IH (if negb ok then false else true)).
    destruct (check_events method_name pvs rest true) as [[b | e] l'];
      destruct ok, valid; reflexivity.
Qed.

Lemma check_method_valid (service_name : string) (pvs : list Z) (j : Z) (method : Method) :
  forall valid,
    check_method service_name pvs j method valid =
    w_and valid (check_method service_name pvs j method true).
Proof.
  intros valid. unfold check_method.
  destruct (negb (j + 1 =? m_id method)); w_step;
  destruct (is_parameters_ordered_and_semantically_correct (m_since method)
              ((service_name +:+ "#" +:+ m_name method) +:+ "#request")
              (get_params (msg_params (m_request method))) pvs) as [[ok1 | e1] l1];
    try reflexivity; rewrite !w_bind_pair;
  destruct (is_parameters_ordered_and_semantically_correct (m_since method)
              ((service_name +:+ "#" +:+ m_name method) +:+ "#response")
              (get_params (msg_params (m_response method))) pvs) as [[ok2 | e2] l2];
    try reflexivity; rewrite !w_bind_pair;
  match goal with
  | |- context [check_events ?mn pvs ?evs (if negb ok2 then false else ?v)] =>
      rewrite (check_events_valid mn pvs evs (if negb ok2 then false else v))
  end;
  try match goal with
  | |- context [check_events ?mn pvs ?evs (if negb ok2 then false else
                                            if negb ok1 then false else true)] =>
      rewrite (check_events_valid mn pvs evs
                 (if negb ok2 then false else if negb ok1 then false else true))
  end;
  match goal with
  | |- context [check_events ?mn pvs ?evs true] =>
      destruct (check_events mn pvs evs true) as [[b | e] l3]
  end;
  destruct ok1, ok2, valid; reflexivity.
Qed.

Lemma check_methods_valid (service_name : string) (pvs : list Z) (methods : list Method) :
  forall j valid,
    check_methods service_name pvs j methods valid =
    w_and valid (check_methods service_name pvs j methods true).
Proof.
  induction methods as [| m rest IH]; intros j valid.
  - destruct valid; reflexivity.
  - cbn [check_methods]. rewrite (check_method_valid service_name pvs j m valid).
    destruct (check_method service_name pvs j m true) as [[b | e] l]; [| reflexivity].
    unfold w_and at 1. cbn [fst snd]. rewrite !w_bind_pair.
    rewrite (IH (j + 1) (valid && b)), (IH (j + 1) b).
    destruct (check_methods service_name pvs (j + 1) rest true) as [[b' | e] l'];
      destruct b, valid; reflexivity.
Qed.

Lemma check_service_valid (nic : bool) (pvs : list Z) (i : Z) (service : Service) :
  forall valid,
    check_service nic pvs i service valid =
    w_and valid (check_service nic pvs i service true).
Proof.
  intros valid. unfold check_service.
  destruct (negb nic && negb (bool_decide (svc_name service ∈ ID_VALIDATOR_IGNORE_SET))).
  - destruct (negb (i =? svc_id service)); w_step.
    + rewrite (check_methods_valid _ _ _ 0 false).
      destruct (check_methods (svc_name service) pvs 0 (svc_methods service) true)
        as [[b | e] l]; destruct valid; reflexivity.
    + rewrite (check_methods_valid _ _ _ 0 valid).
      destruct (check_methods (svc_name service) pvs 0 (svc_methods service) true)
        as [[b | e] l]; reflexivity.
  - destruct valid; reflexivity.
Qed.

Section ValidateServices.

Variable jsonschema_validate : Service -> option string.
Variables (no_id_check : bool) (protocol_versions : list Z).

Let conforms (service : Service) : Prop := jsonschema_validate service = None.

Lemma validate_services_from_app (pre : list Service) :
  Forall conforms pre ->
  forall (tail : list Service) (i : Z) (valid : bool),
    validate_services_from jsonschema_validate no_id_check protocol_versions i
      (pre ++ tail) valid =
    w_bind (w_and valid (w_all (semantic_blocks no_id_check protocol_versions i pre)))
      (fun v => validate_services_from jsonschema_validate no_id_check protocol_versions
                  (i + Z.of_nat (length pre)) tail v).
Proof.
  induction 1 as [| s pre Hs Hpre IH]; intros tail i valid.
  - cbn [app semantic_blocks w_all length]. unfold w_and, w_ret. cbn [fst snd].
    rewrite w_bind_pair. cbn [app]. rewrite andb_true_r, Z.add_0_r.
    destruct (validate_services_from _ _ _ i tail valid); reflexivity.
  - cbn [app validate_services_from semantic_blocks w_all length].
    unfold validate_against_schema. red in Hs. rewrite Hs.
    unfold w_ret at 1. rewrite w_bind_ret_nil. cbn [negb].
    rewrite (check_service_valid no_id_check protocol_versions i s valid).
    destruct (check_service no_id_check protocol_versions i s true) as [[b | e] l];
      [| reflexivity].
    unfold w_and at 1. cbn [fst snd]. rewrite (w_bind_pair (valid && b)).
    rewrite (IH tail (i + 1) (valid && b)).
    replace (i + 1 + Z.of_nat (length pre)) with (i + Z.of_nat (S (length pre))) by lia.
    rewrite (w_bind_pair b).
    destruct (w_all (semantic_blocks no_id_check protocol_versions (i + 1) pre))
      as [[b' | e] l']; unfold w_and; cbn [fst snd]; [| reflexivity].
    rewrite !w_bind_pair. cbn [fst snd].
    rewrite andb_assoc, app_assoc. reflexivity.
Qed.

(** C3 (amended). The services are checked in order.  As long as every
    document conforms to the schema, the semantic block of each service
    runs, the diagnostics accumulate and the result is the conjunction of
    the blocks' results.  The first document that violates the schema is
    logged with its service name and ends the validation with [False]: the
    documents after it are not looked at. *)
Theorem validate_services_schema_gate (pre : list Service) :
  Forall (fun service => jsonschema_validate service = None) pre ->
  validate_services jsonschema_validate pre no_id_check protocol_versions =
    w_all (semantic_blocks no_id_check protocol_versions 0 pre)
  /\ forall (s : Service) (e : string) (post : list Service),
       jsonschema_validate s = Some e ->
       validate_services jsonschema_validate (pre ++ s :: post) no_id_check
         protocol_versions =
       w_bind (w_all (semantic_blocks no_id_check protocol_versions 0 pre))
         (fun _ => (Ret false, [SchemaViolation (svc_name s) e])).
Proof.
  intros Hpre. unfold validate_services. split.
  - rewrite <- (app_nil_r pre) at 1.
    rewrite (validate_services_from_app pre Hpre [] 0 true), w_and_true.
    cbn [validate_services_from].
    destruct (w_all (semantic_blocks no_id_check protocol_versions 0 pre))
      as [[b | e] l]; [| reflexivity].
    rewrite w_bind_pair. cbn. rewrite app_nil_r. reflexivity.
  - intros s e post Hs.
    rewrite (validate_services_from_app pre Hpre (s :: post) 0 true), w_and_true.
    destruct (w_all (semantic_blocks no_id_check protocol_versions 0 pre))
      as [[b | e'] l]; [| reflexivity].
    rewrite !w_bind_pair. cbn [validate_services_from].
    unfold validate_against_schema. rewrite Hs. reflexivity.
Qed.

End ValidateServices.

(** One conforming document before the violating one. *)
Lemma validate_services_schema_gate_witness :
  validate_services demo_schema [good_service] false [20000] =
    w_all (semantic_blocks false [20000] 0 [good_service])
  /\ forall (s : Service) (e : string) (post : list Service),
       demo_schema s = Some e ->
       validate_services demo_schema ([good_service] ++ s :: post) false [20000] =
       w_bind (w_all (semantic_blocks false [20000] 0 [good_service]))
         (fun _ => (Ret false, [SchemaViolation (svc_name s) e])).
Proof.
  apply (validate_services_schema_gate demo_schema false [20000] [good_service]).
  repeat constructor.
Defined.

(** C3 (as stated) fails: a document that violates the schema ends the
    validation.  The service after it has a wrong service id and a wrong
    method id, which its semantic block reports when it runs, but the
    validation of the corpus reports the schema violation only. *)
Lemma schema_violation_ends_validation_counterexample :
  validate_services demo_schema [broken_service; misnumbered_service] false [20000]
    = (Ret false, [SchemaViolation "Broken" "'id' is a required property"])
  /\ check_service false [20000] 1 misnumbered_service true
    = (Ret false, [ServiceIdMismatch "Misnumbered" 1 7;
                   MethodIdMismatch "Misnumbered" "get" 1 4]).
Proof. split; reflexivity. Qed.

Lemma ignore_set_members (name : string) :
  name ∈ ID_VALIDATOR_IGNORE_SET <-> name = "Jet" \/ name = "Experimental".
Proof. unfold ID_VALIDATOR_IGNORE_SET. set_solver. Qed.

Lemma check_service_exempt (no_id_check : bool) (pvs : list Z) (i : Z)
  (service : Service) (valid : bool) :
  exempt no_id_check service ->
  check_service no_id_check pvs i service valid = (Ret valid, []).
Proof.
  intros Hex. unfold check_service.
  destruct no_id_check; [reflexivity |]. cbn [negb andb].
  rewrite bool_decide_eq_true_2; [reflexivity |].
  apply ignore_set_members. destruct Hex as [H | H]; [discriminate | exact H].
Qed.

(** C10. A service named "Jet" or "Experimental", and any service when the
    no-id-check flag is set, goes through its semantic block without any
    check: the block prints nothing and leaves [valid] as it was.  A corpus
    made of such services is therefore rejected only for a schema
    violation. *)
Theorem exempt_services_fail_only_structurally
  (jsonschema_validate : Service -> option string) (no_id_check : bool)
  (pvs : list Z) (services : list Service) :
  Forall (exempt no_id_check) services ->
  (forall (i : Z) (service : Service) (valid : bool),
      In service services ->
      check_service no_id_check pvs i service valid = (Ret valid, []))
  /\ validate_services jsonschema_validate services no_id_check pvs =
     match first_schema_violation jsonschema_validate services with
     | Some d => (Ret false, [d])
     | None => (Ret true, [])
     end.
Proof.
  intros Hex. split.
  - intros i service valid Hin. apply check_service_exempt.
    rewrite Forall_forall in Hex. apply Hex. apply list_elem_of_In. exact Hin.
  - unfold validate_services. generalize 0 as i.
    induction Hex as [| s rest Hs Hrest IH]; intros i; [reflexivity |].
    cbn [validate_services_from first_schema_violation].
    unfold validate_against_schema.
    destruct (jsonschema_validate s) as [e |]; [reflexivity |].
    unfold w_ret at 1. rewrite w_bind_ret_nil. cbn [negb].
    rewrite (check_service_exempt no_id_check pvs i s true Hs), w_bind_ret_nil.
    apply IH.
Qed.

(** The "Jet" service has a wrong service id, a wrong method id and
    parameters out of order; it passes all the same. *)
Lemma exempt_services_fail_only_structurally_witness :
  (forall (i : Z) (service : Service) (valid : bool),
      In service [jet_service] ->
      check_service false [20000] i service valid = (Ret valid, []))
  /\ validate_services demo_schema [jet_service] false [20000] =
     match first_schema_violation demo_schema [jet_service] with
     | Some d => (Ret false, [d])
     | None => (Ret true, [])
     end.
Proof.
  apply (exempt_services_fail_only_structurally demo_schema false [20000] [jet_service]).
  constructor; [| constructor]. right. left. reflexivity.
Defined.

Example jet_service_passes :
  validate_services demo_schema [jet_service] false [20000] = (Ret true, [])
  /\ fst (validate_services demo_schema
            [{| svc_name := "Other"; svc_id := svc_id jet_service;
                svc_methods := svc_methods jet_service; svc_customTypes := None |}]
            false [20000]) = Ret false
  /\ validate_services demo_schema
       [{| svc_name := "Other"; svc_id := svc_id jet_service;
           svc_methods := svc_methods jet_service; svc_customTypes := None |}]
       true [20000] = (Ret true, []).
Proof. repeat split; reflexivity. Qed.

(** ** Data-flow analyzer *)

Example isPayloadCarrying_examples :
  isPayloadCarrying ∅ 3 "List_Data" = Returns true
  /\ isPayloadCarrying ∅ 3 "Map_String_String" = Returns false
  /\ isPayloadCarrying ∅ 3 "Map_String_List_Data" = Returns true
  /\ isPayloadCarrying ∅ 3 "Map_String" = Raises ValueError
  /\ isPayloadCarrying sample_custom_types 5 "EntryList_Long_Address" = Returns true
  /\ isPayloadCarrying cyclic_custom_types 50 "Node" = OutOfFuel.
Proof. repeat split; vm_compute; reflexivity. Qed.

Section AnalyzerFacts.

Variable custom_types : gmap string CustomType.

Local Abbreviation contains_at := (type_contains_serialized_data custom_types).
Local Abbreviation body := (type_contains_serialized_data_body custom_types).

(** *** More fuel does not change an outcome *)

Lemma any_param_contains_extends (f g : string -> M bool) :
  extends f g ->
  forall params st r,
    any_param_contains f params st = r -> r <> OutOfFuel ->
    any_param_contains g params st = r.
Proof.
  intros Hfg params. induction params as [| p rest IH]; intros st r Hr Hne.
  - exact Hr.
  - cbn [any_param_contains] in *. unfold m_bind in *.
    destruct (f (p_type p) st) as [[hit st'] | e |] eqn:Hf.
    + rewrite (Hfg _ _ _ Hf) by discriminate.
      destruct hit; [exact Hr | apply IH; assumption].
    + rewrite (Hfg _ _ _ Hf) by discriminate. exact Hr.
    + congruence.
Qed.

Lemma body_extends (f g : string -> M bool) :
  extends f g -> extends (body f) (body g).
Proof.
  intros Hfg t st r Hr Hne. unfold type_contains_serialized_data_body in *.
  destruct (bool_decide (t ∈ types_containing_serialized_data st)); [exact Hr |].
  destruct (bool_decide (t ∈ types_not_containing_serialized_data st)); [exact Hr |].
  destruct (is_list_like t).
  { destruct (item_type_name t) as [item | e]; [| exact Hr].
    unfold m_bind in *.
    destruct (f item st) as [[hit st'] | e |] eqn:Hf;
      [rewrite (Hfg _ _ _ Hf) by discriminate; exact Hr
      | rewrite (Hfg _ _ _ Hf) by discriminate; exact Hr
      | congruence]. }
  destruct (is_map_like t).
  { destruct (key_value_type_names t) as [[key value] | e]; [| exact Hr].
    unfold m_bind in *.
    destruct (f key st) as [[[] st'] | e |] eqn:Hk;
      try (rewrite (Hfg _ _ _ Hk) by discriminate; exact Hr); [| congruence].
    rewrite (Hfg _ _ _ Hk) by discriminate.
    destruct (f value st') as [[hit st''] | e |] eqn:Hv;
      [rewrite (Hfg _ _ _ Hv) by discriminate; exact Hr
      | rewrite (Hfg _ _ _ Hv) by discriminate; exact Hr
      | cbn [m_ret] in Hr; congruence]. }
  unfold m_bind, custom_type_contains_serialized_data in *.
  destruct (custom_types !! t) as [c |]; [| exact Hr].
  destruct (ct_params c) as [params |]; [| exact Hr].
  destruct (any_param_contains f params st) as [[hit st'] | e |] eqn:Hany;
    [rewrite (any_param_contains_extends f g Hfg _ _ _ Hany) by discriminate; exact Hr
    | rewrite (any_param_contains_extends f g Hfg _ _ _ Hany) by discriminate; exact Hr
    | congruence].
Qed.

Lemma contains_at_succ (fuel : nat) : extends (contains_at fuel) (contains_at (S fuel)).
Proof.
  induction fuel as [| fuel IH].
  - intros t st r Hr Hne. cbn in Hr. congruence.
  - change (extends (body (contains_at fuel)) (body (contains_at (S fuel)))).
    apply body_extends. exact IH.
Qed.

Lemma contains_at_le (fuel fuel' : nat) :
  (fuel <= fuel')%nat -> extends (contains_at fuel) (contains_at fuel').
Proof.
  induction 1 as [| fuel' Hle IH].
  - intros t st r Hr _. exact Hr.
  - intros t st r Hr Hne. apply contains_at_succ; [| exact Hne].
    apply IH; assumption.
Qed.

(** *** The rule gives one answer *)

Lemma classified_deterministic :
  forall t b, classified custom_types t b ->
  forall b', classified custom_types t b' -> b' = b.
Proof.
  apply (classified_mut custom_types
           (fun t b => forall b', classified custom_types t b' -> b' = b)
           (fun ts b => forall b', classified_any custom_types ts b' -> b' = b)).
  - intros b' H. inversion H; subst; congruence.
  - intros t item b Hd Hl Hitem _ IH b' H.
    inversion H; subst; try congruence.
    match goal with
    | Hi : item_type_name t = Ret ?i |- _ =>
        rewrite Hitem in Hi; injection Hi as <-
    end.
    apply IH. assumption.
  - intros t key value Hd Hl Hm Hkv _ IH b' H.
    inversion H; subst; try congruence.
    match goal with
    | Hk : key_value_type_names t = Ret (?k, ?v) |- _ =>
        rewrite Hkv in Hk; injection Hk as <- <-
    end.
    match goal with
    | Hk : classified custom_types key false |- _ => discriminate (IH _ Hk)
    end.
  - intros t key value b Hd Hl Hm Hkv _ IHk _ IHv b' H.
    inversion H; subst; try congruence.
    + match goal with
      | Hk : key_value_type_names t = Ret (?k, ?v) |- _ =>
          rewrite Hkv in Hk; injection Hk as <- <-
      end.
      match goal with
      | Hk : classified custom_types key true |- _ => discriminate (IHk _ Hk)
      end.
    + match goal with
      | Hk : key_value_type_names t = Ret (?k, ?v) |- _ =>
          rewrite Hkv in Hk; injection Hk as <- <-
      end.
      apply IHv. assumption.
  - intros t custom params b Hd Hl Hm Hlk Hps _ IH b' H.
    inversion H; subst; try congruence.
    match goal with
    | Hc : custom_types !! t = Some ?c, Hp : ct_params ?c = Some ?ps |- _ =>
        rewrite Hlk in Hc; injection Hc as <-; rewrite Hps in Hp; injection Hp as <-
    end.
    apply IH. assumption.
  - intros t Hd Hl Hm Hlk b' H. inversion H; subst; congruence.
  - intros b' H. inversion H. reflexivity.
  - intros t ts _ IH b' H. inversion H; subst; [reflexivity |].
    match goal with
    | Hk : classified custom_types t false |- _ => discriminate (IH _ Hk)
    end.
  - intros t ts b _ IHt _ IHts b' H. inversion H; subst.
    + match goal with
      | Hk : classified custom_types t true |- _ => discriminate (IHt _ Hk)
      end.
    + apply IHts. assumption.
Qed.

(** *** What the code returns is the rule's answer *)

Lemma sound_add_containing (t : string) (st st' : memo) (b : bool) :
  sound custom_types st -> classified custom_types t true ->
  add_containing t st = Returns (b, st') ->
  b = true /\ sound custom_types st'.
Proof.
  intros (Hdata & Hin & Hout) Ht H. unfold add_containing in H.
  injection H as <- <-. split; [reflexivity |].
  split; [| split]; cbn.
  - set_solver.
  - intros x Hx. apply elem_of_union in Hx as [Hx | Hx]; [| apply Hin; exact Hx].
    apply elem_of_singleton in Hx. subst x. exact Ht.
  - exact Hout.
Qed.

Lemma sound_add_not_containing (t : string) (st st' : memo) (b : bool) :
  sound custom_types st -> classified custom_types t false ->
  add_not_containing t st = Returns (b, st') ->
  b = false /\ sound custom_types st'.
Proof.
  intros (Hdata & Hin & Hout) Ht H. unfold add_not_containing in H.
  injection H as <- <-. split; [reflexivity |].
  split; [| split]; cbn.
  - exact Hdata.
  - exact Hin.
  - intros x Hx. apply elem_of_union in Hx as [Hx | Hx]; [| apply Hout; exact Hx].
    apply elem_of_singleton in Hx. subst x. exact Ht.
Qed.

(** Recording the answer [hit] for [t], once the rule gives it. *)
Lemma sound_record (t : string) (hit : bool) (st st' : memo) (b : bool) :
  sound custom_types st -> classified custom_types t hit ->
  (if hit then add_containing t else add_not_containing t) st = Returns (b, st') ->
  b = hit /\ sound custom_types st'.
Proof.
  intros Hs Ht H. destruct hit.
  - exact (sound_add_containing t st st' b Hs Ht H).
  - exact (sound_add_not_containing t st st' b Hs Ht H).
Qed.

Lemma any_param_contains_agrees (f : string -> M bool) :
  agrees custom_types f ->
  forall params st b st',
    sound custom_types st ->
    any_param_contains f params st = Returns (b, st') ->
    classified_any custom_types (map p_type params) b /\ sound custom_types st'.
Proof.
  intros Hf params. induction params as [| p rest IH]; intros st b st' Hs H.
  - cbn in H. injection H as <- <-. split; [constructor | exact Hs].
  - cbn [any_param_contains map] in *. unfold m_bind in H.
    destruct (f (p_type p) st) as [[hit st1] | e |] eqn:Hp; try discriminate.
    destruct (Hf _ _ _ _ Hs Hp) as [Hc Hs1]. destruct hit.
    + cbn in H. injection H as <- <-. split; [apply classified_any_hit; exact Hc | exact Hs1].
    + destruct (IH _ _ _ Hs1 H) as [Hrest Hs']. split; [| exact Hs'].
      apply classified_any_miss; assumption.
Qed.

Lemma body_agrees (f : string -> M bool) :
  agrees custom_types f -> agrees custom_types (body f).
Proof.
  intros Hf t st b st' Hs H. unfold type_contains_serialized_data_body in H.
  destruct (bool_decide (t ∈ types_containing_serialized_data st)) eqn:Hin.
  { apply bool_decide_eq_true in Hin. injection H as <- <-.
    split; [apply Hs; exact Hin | exact Hs]. }
  destruct (bool_decide (t ∈ types_not_containing_serialized_data st)) eqn:Hout.
  { apply bool_decide_eq_true in Hout. injection H as <- <-.
    split; [apply Hs; exact Hout | exact Hs]. }
  apply bool_decide_eq_false in Hin.
  assert (Hd : t <> "Data") by (intros ->; apply Hin, Hs).
  destruct (is_list_like t) eqn:Hl.
  { destruct (item_type_name t) as [item | e] eqn:Hitem; [| discriminate].
    unfold m_bind in H.
    destruct (f item st) as [[hit st1] | e |] eqn:Hi; try discriminate.
    destruct (Hf _ _ _ _ Hs Hi) as [Hc Hs1].
    assert (Ht : classified custom_types t hit)
      by (eapply classified_list; eassumption).
    destruct (sound_record t hit st1 st' b Hs1 Ht H) as [-> Hs'].
    split; assumption. }
  destruct (is_map_like t) eqn:Hm.
  { destruct (key_value_type_names t) as [[key value] | e] eqn:Hkv; [| discriminate].
    unfold m_bind in H.
    destruct (f key st) as [[key_hit st1] | e |] eqn:Hk; try discriminate.
    destruct (Hf _ _ _ _ Hs Hk) as [Hck Hs1]. destruct key_hit.
    - cbn [m_ret] in H.
      assert (Ht : classified custom_types t true)
        by (eapply classified_map_key; eassumption).
      destruct (sound_record t true st1 st' b Hs1 Ht H) as [-> Hs'].
      split; assumption.
    - destruct (f value st1) as [[hit st2] | e |] eqn:Hv; try discriminate.
      destruct (Hf _ _ _ _ Hs1 Hv) as [Hcv Hs2].
      assert (Ht : classified custom_types t hit)
        by (eapply classified_map_value; eassumption).
      destruct (sound_record t hit st2 st' b Hs2 Ht H) as [-> Hs'].
      split; assumption. }
  unfold m_bind, custom_type_contains_serialized_data in H.
  destruct (custom_types !! t) as [custom |] eqn:Hlk.
  - destruct (ct_params custom) as [params |] eqn:Hps; [| discriminate].
    destruct (any_param_contains f params st) as [[hit st1] | e |] eqn:Hany;
      try discriminate.
    destruct (any_param_contains_agrees f Hf _ _ _ _ Hs Hany) as [Hc Hs1].
    assert (Ht : classified custom_types t hit)
      by (eapply classified_custom; eassumption).
    destruct (sound_record t hit st1 st' b Hs1 Ht H) as [-> Hs'].
    split; assumption.
  - assert (Ht : classified custom_types t false)
      by (apply classified_other; assumption).
    destruct (sound_record t false st st' b Hs Ht H) as [-> Hs'].
    split; assumption.
Qed.

Lemma contains_at_agrees (fuel : nat) : agrees custom_types (contains_at fuel).
Proof.
  induction fuel as [| fuel IH].
  - intros t st b st' _ H. discriminate.
  - apply body_agrees. exact IH.
Qed.

(** *** The rule's answer is returned, given enough fuel *)

Lemma record_returns (t : string) (hit : bool) (st : memo) :
  exists st', (if hit then add_containing t else add_not_containing t) st
              = Returns (hit, st').
Proof. destruct hit; eexists; reflexivity. Qed.

Lemma body_recorded (f : string -> M bool) (t : string) (b : bool) (st : memo) :
  sound custom_types st -> classified custom_types t b ->
  t ∈ types_containing_serialized_data st
  \/ t ∈ types_not_containing_serialized_data st ->
  body f t st = Returns (b, st).
Proof.
  intros Hs Ht Hmemo. unfold type_contains_serialized_data_body.
  destruct (bool_decide (t ∈ types_containing_serialized_data st)) eqn:Hin.
  - apply bool_decide_eq_true in Hin.
    rewrite (classified_deterministic t b Ht true); [reflexivity |].
    apply Hs. exact Hin.
  - apply bool_decide_eq_false in Hin. destruct Hmemo as [H | Hout]; [contradiction |].
    rewrite bool_decide_eq_true_2 by exact Hout.
    rewrite (classified_deterministic t b Ht false); [reflexivity |].
    apply Hs. exact Hout.
Qed.

Lemma body_fresh (f : string -> M bool) (t : string) (st : memo) :
  t ∉ types_containing_serialized_data st ->
  t ∉ types_not_containing_serialized_data st ->
  body f t st =
  if is_list_like t then
    match item_type_name t with
    | Raise e => Raises e
    | Ret item =>
        m_bind (f item)
          (fun hit => if hit then add_containing t else add_not_containing t) st
    end
  else if is_map_like t then
    match key_value_type_names t with
    | Raise e => Raises e
    | Ret (key, value) =>
        m_bind (m_bind (f key) (fun key_hit => if key_hit then m_ret true else f value))
          (fun hit => if hit then add_containing t else add_not_containing t) st
    end
  else
    match custom_types !! t with
    | Some _ =>
        m_bind (custom_type_contains_serialized_data custom_types f t)
          (fun hit => if hit then add_containing t else add_not_containing t) st
    | None => add_not_containing t st
    end.
Proof.
  intros Hin Hout. unfold type_contains_serialized_data_body.
  rewrite (bool_decide_eq_false_2 _ Hin), (bool_decide_eq_false_2 _ Hout).
  reflexivity.
Qed.

Lemma recorded_or_fresh (t : string) (st : memo) :
  (t ∈ types_containing_serialized_data st
   \/ t ∈ types_not_containing_serialized_data st)
  \/ ((t ∉ types_containing_serialized_data st)
      /\ (t ∉ types_not_containing_serialized_data st)).
Proof.
  destruct (decide (t ∈ types_containing_serialized_data st));
    destruct (decide (t ∈ types_not_containing_serialized_data st)); tauto.
Qed.




Lemma sound_initial_memo : sound custom_types initial_memo.
Proof.
  split; [| split]; cbn.
  - set_solver.
  - intros t Ht. apply elem_of_singleton in Ht. subst t. constructor.
  - intros t Ht. set_solver.
Qed.


(** *** Termination on acyclic references *)

Lemma any_param_contains_returns (params : list Param) :
  (forall child, In child (map p_type params) ->
     forall st, exists fuel b st', contains_at fuel child st = Returns (b, st')) ->
  forall st, exists fuel b st',
    any_param_contains (contains_at fuel) params st = Returns (b, st').
Proof.
  induction params as [| p rest IH]; intros Hch st.
  - exists 0%nat, false, st. reflexivity.
  - destruct (Hch (p_type p) (or_introl eq_refl) st) as (fuel1 & hit & st1 & Hrun1).
    destruct hit.
    + exists fuel1, true, st1. cbn [any_param_contains]. unfold m_bind.
      rewrite Hrun1. reflexivity.
    + destruct (IH (fun c Hc => Hch c (or_intror Hc)) st1) as (fuel2 & b & st2 & Hrun2).
      exists (Nat.max fuel1 fuel2), b, st2. cbn [any_param_contains]. unfold m_bind.
      rewrite (contains_at_le fuel1 (Nat.max fuel1 fuel2) (Nat.le_max_l _ _) _ _ _ Hrun1)
        by discriminate.
      apply (any_param_contains_extends (contains_at fuel2)); try discriminate.
      * apply contains_at_le. apply Nat.le_max_r.
      * exact Hrun2.
Qed.

Lemma acyclic_from_returns (t : string) :
  acyclic_from custom_types t ->
  forall st, exists fuel b st', contains_at fuel t st = Returns (b, st').
Proof.
  induction 1 as [t children Hch _ IH]. intros st.
  destruct (recorded_or_fresh t st) as [Hmemo | [Hin Hout]].
  { exists 1%nat. cbn [type_contains_serialized_data].
    unfold type_contains_serialized_data_body.
    destruct (bool_decide (t ∈ types_containing_serialized_data st)) eqn:H1;
      [eexists _, _; reflexivity |].
    apply bool_decide_eq_false in H1. destruct Hmemo as [H | H]; [contradiction |].
    rewrite bool_decide_eq_true_2 by exact H. eexists _, _; reflexivity. }
  unfold type_children in Hch.
  destruct (is_list_like t) eqn:Hl.
  { destruct (item_type_name t) as [item | e] eqn:Hitem; [| discriminate].
    injection Hch as <-.
    destruct (IH item (or_introl eq_refl) st) as (fuel & hit & st1 & Hrun).
    destruct (record_returns t hit st1) as (st' & Hrec).
    exists (S fuel), hit, st'. cbn [type_contains_serialized_data].
    rewrite body_fresh by assumption. rewrite Hl, Hitem. unfold m_bind.
    rewrite Hrun. exact Hrec. }
  destruct (is_map_like t) eqn:Hm.
  { destruct (key_value_type_names t) as [[key value] | e] eqn:Hkv; [| discriminate].
    injection Hch as <-.
    destruct (IH key (or_introl eq_refl) st) as (fuel1 & key_hit & st1 & Hrun1).
    destruct key_hit.
    - destruct (record_returns t true st1) as (st' & Hrec).
      exists (S fuel1), true, st'. cbn [type_contains_serialized_data].
      rewrite body_fresh by assumption. rewrite Hl, Hm, Hkv. unfold m_bind.
      rewrite Hrun1. exact Hrec.
    - destruct (IH value (or_intror (or_introl eq_refl)) st1)
        as (fuel2 & hit & st2 & Hrun2).
      destruct (record_returns t hit st2) as (st' & Hrec).
      exists (S (Nat.max fuel1 fuel2)), hit, st'. cbn [type_contains_serialized_data].
      rewrite body_fresh by assumption. rewrite Hl, Hm, Hkv. unfold m_bind.
      rewrite (contains_at_le fuel1 (Nat.max fuel1 fuel2) (Nat.le_max_l _ _) _ _ _ Hrun1)
        by discriminate.
      rewrite (contains_at_le fuel2 (Nat.max fuel1 fuel2) (Nat.le_max_r _ _) _ _ _ Hrun2)
        by discriminate.
      exact Hrec. }
  destruct (custom_types !! t) as [custom |] eqn:Hlk.
  - destruct (ct_params custom) as [params |] eqn:Hps; [| discriminate].
    injection Hch as <-.
    destruct (any_param_contains_returns params IH st) as (fuel & hit & st1 & Hrun).
    destruct (record_returns t hit st1) as (st' & Hrec).
    exists (S fuel), hit, st'. cbn [type_contains_serialized_data].
    rewrite body_fresh by assumption. rewrite Hl, Hm, Hlk.
    unfold m_bind, custom_type_contains_serialized_data. rewrite Hlk, Hps, Hrun.
    exact Hrec.
  - eexists 1%nat, _, _. cbn [type_contains_serialized_data].
    rewrite body_fresh by assumption. rewrite Hl, Hm, Hlk. reflexivity.
Qed.

End AnalyzerFacts.

(** C4 (amended). When no infinite chain of references starts at the type
    name (the custom-type references reachable from it form no cycle, and
    every name on the way is well formed for its case), its classification
    terminates and returns a boolean, whatever the two sets hold.  Nothing
    guards against a cycle. *)
Theorem classification_terminates_when_acyclic
  (custom_types : gmap string CustomType) (t : string) :
  acyclic_from custom_types t ->
  forall st, exists fuel b st',
    type_contains_serialized_data custom_types fuel t st = Returns (b, st').
Proof. intros Hacyclic st. apply acyclic_from_returns. exact Hacyclic. Qed.

Ltac solve_acyclic :=
  eapply acyclic_from_intro;
  [ vm_compute; reflexivity
  | let child := fresh "child" in
    let Hin := fresh "Hin" in
    intros child Hin; cbn [In] in Hin;
    repeat (destruct Hin as [<- | Hin]; [solve_acyclic |]);
    contradiction ].

(** An entry list from [Long] to the custom type [Address], which holds a
    [List_Data]. *)
Lemma classification_terminates_when_acyclic_witness :
  exists fuel b st',
    type_contains_serialized_data sample_custom_types fuel "EntryList_Long_Address"
      initial_memo
    = Returns (b, st').
Proof.
  apply (classification_terminates_when_acyclic sample_custom_types
           "EntryList_Long_Address").
  solve_acyclic.
Defined.

Lemma node_lookup :
  cyclic_custom_types !! "Node" =
  Some {| ct_name := "Node"; ct_since := "2.0";
          ct_params := Some [mk_param "next" "Node"] |}.
Proof. vm_compute. reflexivity. Qed.

Lemma node_never_returns (fuel : nat) :
  forall st,
    "Node" ∉ types_containing_serialized_data st ->
    "Node" ∉ types_not_containing_serialized_data st ->
    type_contains_serialized_data cyclic_custom_types fuel "Node" st = OutOfFuel.
Proof.
  induction fuel as [| fuel IH]; intros st Hin Hout; [reflexivity |].
  cbn [type_contains_serialized_data]. rewrite body_fresh by assumption.
  change (is_list_like "Node") with false. change (is_map_like "Node") with false.
  cbn iota. rewrite node_lookup.
  unfold m_bind, custom_type_contains_serialized_data. rewrite node_lookup.
  cbn [ct_params any_param_contains p_type mk_param]. unfold m_bind.
  rewrite (IH st Hin Hout). reflexivity.
Qed.

(** C4 (as stated) fails: for the custom type [Node], whose one parameter
    has the type [Node], no bound on the recursion depth lets the
    classification return or raise. *)
Lemma self_reference_never_returns_counterexample :
  ~ exists fuel outcome,
      isPayloadCarrying cyclic_custom_types fuel "Node" = outcome
      /\ outcome <> OutOfFuel.
Proof.
  intros (fuel & outcome & Hrun & Hne). apply Hne. rewrite <- Hrun.
  unfold isPayloadCarrying. rewrite node_never_returns; [reflexivity | |];
    cbn; set_solver.
Qed.

(** *** The lookup table *)

Lemma classified_any_true_iff (custom_types : gmap string CustomType)
  (ts : list string) (b : bool) :
  classified_any custom_types ts b ->
  (b = true <-> exists t, In t ts /\ classified custom_types t true).
Proof.
  induction 1 as [| t ts Ht | t ts b Ht Hts IH].
  - split; [discriminate | intros (t & [] & _)].
  - split; [| reflexivity]. intros _. exists t. split; [left; reflexivity | exact Ht].
  - rewrite IH. split.
    + intros (x & Hx & Hc). exists x. split; [right; exact Hx | exact Hc].
    + intros (x & [<- | Hx] & Hc).
      * discriminate (classified_deterministic custom_types t false Ht true Hc).
      * exists x. split; assumption.
Qed.

Section LookupTable.

Variable custom_types : gmap string CustomType.

Local Abbreviation contains_at := (type_contains_serialized_data custom_types).



(** What the loop over methods leaves in the service's table. *)
Lemma methods_table_entries (fuel : nat) (methods : list Method) :
  forall tbl st tbl' st',
    sound custom_types st ->
    methods_table custom_types fuel methods tbl st = Returns (tbl', st') ->
    sound custom_types st'
    /\ (forall mn b, tbl' !! mn = Some b ->
          tbl !! mn = Some b
          \/ exists m, In m methods /\ m_name m = mn
                       /\ classified_any custom_types (request_types m) b)
    /\ (forall mn, is_Some (tbl !! mn) -> is_Some (tbl' !! mn))
    /\ (forall m, In m methods -> is_Some (tbl' !! m_name m)).
Proof.
  induction methods as [| m rest IH]; intros tbl st tbl' st' Hs H.
  - cbn in H. injection H as <- <-.
    split; [exact Hs |]. split; [intros mn b Hb; left; exact Hb |].
    split; [tauto | intros m []].
  - cbn [methods_table] in H. unfold m_bind in H.
    destruct (any_param_contains (contains_at fuel)
                (get_params (msg_params (m_request m))) st)
      as [[hit st1] | e |] eqn:Hany; try discriminate.
    destruct (any_param_contains_agrees custom_types _
                (contains_at_agrees custom_types fuel) _ _ _ _ Hs Hany) as [Hc Hs1].
    destruct (IH _ _ _ _ Hs1 H) as (Hs' & Hentries & Hkeep & Hall).
    split; [exact Hs' |]. split; [| split].
    + intros mn b Hb. destruct (Hentries mn b Hb) as [Hold | (m' & Hin & Hn & Hm')].
      * destruct (decide (m_name m = mn)) as [Heq | Hne].
        -- subst mn. rewrite lookup_insert_eq in Hold. injection Hold as <-.
           right. exists m. split; [left; reflexivity |]. split; [reflexivity | exact Hc].
        -- rewrite lookup_insert_ne in Hold by exact Hne. left. exact Hold.
      * right. exists m'. split; [right; exact Hin |]. split; assumption.
    + intros mn Hsome. apply Hkeep.
      destruct (decide (m_name m = mn)) as [Heq | Hne].
      * subst mn. rewrite lookup_insert_eq. eexists; reflexivity.
      * rewrite lookup_insert_ne by exact Hne. exact Hsome.
    + intros m' [<- | Hin]; [| apply Hall; exact Hin].
      apply Hkeep. rewrite lookup_insert_eq. eexists; reflexivity.
Qed.

Lemma lookup_entry_insert (table : gmap string (gmap string bool))
  (sn sn' mn : string) (tbl : gmap string bool) :
  lookup_entry (<[ sn := tbl ]> table) sn' mn =
  if decide (sn = sn') then tbl !! mn else lookup_entry table sn' mn.
Proof.
  unfold lookup_entry. destruct (decide (sn = sn')) as [<- | Hne].
  - rewrite lookup_insert_eq. reflexivity.
  - rewrite lookup_insert_ne by exact Hne. reflexivity.
Qed.

Lemma lookup_entry_default (table : gmap string (gmap string bool)) (sn mn : string) :
  default ∅ (table !! sn) !! mn = lookup_entry table sn mn.
Proof.
  unfold lookup_entry. destruct (table !! sn); [reflexivity | apply lookup_empty].
Qed.

Lemma services_table_entries (fuel : nat) (services : list Service) :
  forall table st table' st',
    sound custom_types st ->
    services_table custom_types fuel services table st = Returns (table', st') ->
    (forall sn mn b, lookup_entry table' sn mn = Some b ->
       lookup_entry table sn mn = Some b
       \/ exists s m, In s services /\ In m (svc_methods s)
                      /\ svc_name s = sn /\ m_name m = mn
                      /\ classified_any custom_types (request_types m) b)
    /\ (forall sn mn, is_Some (lookup_entry table sn mn) ->
          is_Some (lookup_entry table' sn mn))
    /\ (forall s m, In s services -> In m (svc_methods s) ->
          is_Some (lookup_entry table' (svc_name s) (m_name m))).
Proof.
  induction services as [| s rest IH]; intros table st table' st' Hs H.
  - cbn in H. injection H as <- <-.
    split; [intros sn mn b Hb; left; exact Hb |]. split; [tauto | intros s m []].
  - cbn [services_table] in H. unfold m_bind in H.
    destruct (methods_table custom_types fuel (svc_methods s)
                (default ∅ (table !! svc_name s)) st)
      as [[tbl st1] | e |] eqn:Hm; try discriminate.
    destruct (methods_table_entries fuel _ _ _ _ _ Hs Hm)
      as (Hs1 & Hentries & Hkeep & Hall).
    destruct (IH _ _ _ _ Hs1 H) as (Hrest & Hkeep' & Hall').
    split; [| split].
    + intros sn mn b Hb. destruct (Hrest sn mn b Hb) as [Hold | (s' & m & Hin & Hx)].
      * rewrite lookup_entry_insert in Hold.
        destruct (decide (svc_name s = sn)) as [Heq | Hne]; [| left; exact Hold].
        destruct (Hentries mn b Hold) as [Hprev | (m & Hin & Hn & Hc)].
        -- left. rewrite lookup_entry_default in Hprev. subst sn. exact Hprev.
        -- right. exists s, m. split; [left; reflexivity |]. repeat split; assumption.
      * right. exists s', m. split; [right; exact Hin | exact Hx].
    + intros sn mn Hsome. apply Hkeep'. rewrite lookup_entry_insert.
      destruct (decide (svc_name s = sn)) as [Heq | Hne]; [| exact Hsome].
      apply Hkeep. rewrite lookup_entry_default. subst sn. exact Hsome.
    + intros s' m [<- | Hin] Hm'; [| apply Hall'; assumption].
      apply Hkeep'. rewrite lookup_entry_insert.
      rewrite decide_True by reflexivity. apply Hall. exact Hm'.
Qed.



End LookupTable.

(** The rule read as the equivalences it is stated with. *)
Lemma classified_list_iff (custom_types : gmap string CustomType)
  (t item : string) (b : bool) :
  t <> "Data" -> is_list_like t = true -> item_type_name t = Ret item ->
  (classified custom_types t b <-> classified custom_types item b).
Proof.
  intros Hd Hl Hitem. split.
  - intros H. inversion H; subst; try congruence.
  - intros H. eapply classified_list; eassumption.
Qed.

Lemma classified_map_iff (custom_types : gmap string CustomType)
  (t key value : string) (key_hit value_hit : bool) :
  t <> "Data" -> is_list_like t = false -> is_map_like t = true ->
  key_value_type_names t = Ret (key, value) ->
  classified custom_types key key_hit -> classified custom_types value value_hit ->
  forall b, classified custom_types t b <-> b = key_hit || value_hit.
Proof.
  intros Hd Hl Hm Hkv Hk Hv b.
  assert (Ht : classified custom_types t (key_hit || value_hit)).
  { destruct key_hit.
    - eapply classified_map_key; eassumption.
    - eapply classified_map_value; eassumption. }
  split.
  - intros H. exact (classified_deterministic custom_types t _ Ht b H).
  - intros ->. exact Ht.
Qed.

Lemma classified_custom_iff (custom_types : gmap string CustomType)
  (t : string) (custom : CustomType) (params : list Param) (b : bool) :
  t <> "Data" -> is_list_like t = false -> is_map_like t = false ->
  custom_types !! t = Some custom -> ct_params custom = Some params ->
  classified_any custom_types (map p_type params) b ->
  (classified custom_types t true <->
   exists p, In p params /\ classified custom_types (p_type p) true).
Proof.
  intros Hd Hl Hm Hlk Hps Hany.
  assert (Ht : classified custom_types t b) by (eapply classified_custom; eassumption).
  pose proof (classified_any_true_iff custom_types _ b Hany) as Hiff.
  split.
  - intros H. pose proof (classified_deterministic custom_types t b Ht true H) as Hb.
    symmetry in Hb. destruct (proj1 Hiff Hb) as (x & Hx & Hc).
    apply in_map_iff in Hx as (p & <- & Hp). exists p. split; assumption.
  - intros (p & Hp & Hc).
    assert (b = true) as ->; [| exact Ht].
    apply Hiff. exists (p_type p). split; [apply in_map; exact Hp | exact Hc].
Qed.



(** The table of the sample corpus: [put] carries [Data], [size] does not,
    [addAll] carries it through the custom type [Address]. *)
Example sample_lookup_table :
  match generate_data_containing_requests_lookup_table 6 sample_services
          sample_custom_services with
  | Returns table =>
      [ lookup_entry table "Map" "put"; lookup_entry table "Map" "size";
        lookup_entry table "Map" "addAll"; lookup_entry table "Map" "clear" ]
  | _ => []
  end = [Some true; Some false; Some true; None].
Proof. vm_compute. reflexivity. Qed.

(** ** Artifact writer *)

Example md5_hexdigest_vectors :
  md5_hexdigest "" = "d41d8cd98f00b204e9800998ecf8427e"
  /\ md5_hexdigest "abc" = "900150983cd24fb0d6963f7d28e17f72"
  /\ md5_hexdigest "!codec_hash!" = "6f6df055319b1b1d6996fbfed3c5dd87"
  /\ md5_hexdigest "aaaaaaaaaaaaaaaaaaaaaaaaaaaaaaaaaaaaaaaaaaaaaaaaaaaaaaaa"
     = "3b0c8ac703f828b04c6c197006d17218"
  /\ md5_hexdigest
       "aaaaaaaaaaaaaaaaaaaaaaaaaaaaaaaaaaaaaaaaaaaaaaaaaaaaaaaaaaaaaaaa"
     = "014842d480b571495a4a0363793f7367"
  /\ md5_hexdigest ("x = 1" +:+ lf) = "3253b41059cac6e987c5a5e9233ea5d0".
Proof. repeat split; vm_compute; reflexivity. Qed.

Example normalized_cs :
  normalized "MapPutCodec.cs"
    ("a  " +:+ crlf +:+ "b" +:+ String TAB "" +:+ cr +:+ "  " +:+ lf +:+ lf)
  = "a" +:+ lf +:+ "b" +:+ lf
  /\ normalized "MapPutCodec.java" ("a  " +:+ crlf) = "a  " +:+ crlf.
Proof. split; vm_compute; reflexivity. Qed.

Lemma drop_chars_length (n : nat) (s : string) :
  (String.length (drop_chars n s) <= String.length s)%nat.
Proof.
  revert s. induction n as [| n IH]; intros s; [reflexivity |].
  destruct s as [| c r]; [reflexivity |]. cbn. specialize (IH r). lia.
Qed.

(** Past the length of the text, the bound of [py_replace_from] plays no
    part. *)
Lemma py_replace_from_fuel (old new : string) :
  old <> EmptyString ->
  forall fuel fuel' s,
    (String.length s <= fuel)%nat -> (String.length s <= fuel')%nat ->
    py_replace_from fuel old new s = py_replace_from fuel' old new s.
Proof.
  intros Hold. destruct old as [| o old']; [contradiction |].
  induction fuel as [| k IH]; intros fuel' s Hle Hle'.
  - destruct s; [| cbn in Hle; lia]. destruct fuel'; reflexivity.
  - destruct fuel' as [| k'].
    + destruct s; [reflexivity | cbn in Hle'; lia].
    + cbn [py_replace_from]. destruct s as [| c r]; [reflexivity |].
      cbn [String.length] in Hle, Hle'.
      destruct (String.prefix (String o old') (String c r)).
      * f_equal. cbn [String.length drop_chars].
        pose proof (drop_chars_length (String.length old') r).
        apply IH; lia.
      * f_equal. apply IH; lia.
Qed.

Lemma append_cons (c : ascii) (r s : string) : String c r +:+ s = String c (r +:+ s).
Proof. reflexivity. Qed.

Lemma append_nil (s : string) : EmptyString +:+ s = s.
Proof. reflexivity. Qed.

Lemma string_app_assoc (s1 s2 s3 : string) : (s1 +:+ s2) +:+ s3 = s1 +:+ (s2 +:+ s3).
Proof.
  induction s1 as [| c r IH]; [reflexivity |].
  rewrite !append_cons. f_equal. exact IH.
Qed.

Lemma string_length_app (s1 s2 : string) :
  String.length (s1 +:+ s2) = (String.length s1 + String.length s2)%nat.
Proof.
  induction s1 as [| c r IH]; [reflexivity |].
  rewrite append_cons. cbn [String.length]. rewrite IH. reflexivity.
Qed.

(** Replacement up to and including the first occurrence of the token. *)
Lemma py_replace_first_token (new after : string) :
  forall before fuel,
    (String.length (before +:+ codec_hash_token +:+ after) <= fuel)%nat ->
    token_starts_nowhere before (codec_hash_token +:+ after) = true ->
    py_replace_from fuel codec_hash_token new (before +:+ codec_hash_token +:+ after)
    = before +:+ new +:+ py_replace after codec_hash_token new.
Proof.
  induction before as [| c r IH]; intros fuel Hle Hfree.
  - rewrite !append_nil in *. rewrite string_length_app in Hle.
    change (String.length codec_hash_token) with 12%nat in Hle.
    destruct fuel as [| k]; [lia |].
    change (codec_hash_token +:+ after)
      with (String "!" ("codec_hash!" +:+ after)).
    cbn [py_replace_from].
    change (String.prefix codec_hash_token (String "!" ("codec_hash!" +:+ after)))
      with (String.prefix "" after).
    replace (String.prefix "" after) with true by (destruct after; reflexivity).
    f_equal.
    change (drop_chars (String.length codec_hash_token)
              (String "!" ("codec_hash!" +:+ after))) with after.
    unfold py_replace. apply py_replace_from_fuel; [discriminate | lia | lia].
  - cbn [token_starts_nowhere] in Hfree. apply andb_true_iff in Hfree as [Hhere Hrest].
    apply negb_true_iff in Hhere.
    rewrite append_cons in *. cbn [String.length] in Hle.
    destruct fuel as [| k]; [lia |].
    cbn [py_replace_from]. rewrite Hhere. rewrite append_cons. f_equal.
    apply IH; [lia | exact Hrest].
Qed.

(** C6 (amended). When the normalized text holds the token, what stands in
    the written text at the token's first place is the MD5 of the
    normalized text as it is hashed, the token's own characters included;
    the text before it is unchanged and the later occurrences are replaced
    by the same hash. *)
Theorem embedded_hash_covers_token
  (file content : string) (mode : file_mode) (files : gmap string string)
  (before after : string) :
  normalized file content = before +:+ codec_hash_token +:+ after ->
  token_starts_nowhere before (codec_hash_token +:+ after) = true ->
  save_file file content mode files !! file =
  Some (match mode with
        | mode_w => EmptyString
        | mode_a_plus => default EmptyString (files !! file)
        end
        +:+ before
        +:+ md5_hexdigest (before +:+ codec_hash_token +:+ after)
        +:+ py_replace after codec_hash_token
              (md5_hexdigest (before +:+ codec_hash_token +:+ after))).
Proof.
  intros Hnorm Hfree. unfold save_file. rewrite Hnorm.
  destruct mode; rewrite lookup_insert_eq; unfold py_replace at 1;
    rewrite (py_replace_first_token _ after before _ (le_n _) Hfree); reflexivity.
Qed.

(** A Java artifact whose second line carries the token. *)
Lemma embedded_hash_covers_token_witness :
  save_file "MapPutCodec.java" ("// put" +:+ lf +:+ "// hash: !codec_hash!" +:+ lf)
    mode_w ∅ !! "MapPutCodec.java" =
  Some (EmptyString
        +:+ ("// put" +:+ lf +:+ "// hash: ")
        +:+ md5_hexdigest (("// put" +:+ lf +:+ "// hash: ") +:+ codec_hash_token +:+ lf)
        +:+ py_replace lf codec_hash_token
              (md5_hexdigest (("// put" +:+ lf +:+ "// hash: ") +:+ codec_hash_token +:+ lf))).
Proof.
  apply (embedded_hash_covers_token "MapPutCodec.java"
           ("// put" +:+ lf +:+ "// hash: !codec_hash!" +:+ lf) mode_w ∅
           ("// put" +:+ lf +:+ "// hash: ") lf).
  - reflexivity.
  - reflexivity.
Defined.

(** C6 (as stated) fails: the text hashed holds the token.  For the text
    [hash=!codec_hash!] the written hash is the MD5 of that very text, and
    differs from the MD5 of the text without the token, [hash=]. *)
Lemma embedded_hash_includes_token_counterexample :
  save_file "MapPutCodec.java" "hash=!codec_hash!" mode_w ∅ !! "MapPutCodec.java"
    = Some ("hash=" +:+ md5_hexdigest "hash=!codec_hash!")
  /\ md5_hexdigest "hash=!codec_hash!" = "297e2b422f2b96664c63393900f8ff5b"
  /\ py_replace "hash=!codec_hash!" codec_hash_token "" = "hash="
  /\ md5_hexdigest "hash=" = "85c715eab66a161058172ae675789893"
  /\ md5_hexdigest "hash=!codec_hash!"
     <> md5_hexdigest (py_replace "hash=!codec_hash!" codec_hash_token "").
Proof.
  split; [vm_compute; reflexivity |]. split; [vm_compute; reflexivity |].
  split; [vm_compute; reflexivity |]. split; [vm_compute; reflexivity |].
  vm_compute. discriminate.
Qed.

(** ** Codec emission *)

Section EmissionFacts.

Variable Template : Type.
Variable get_template : string -> res Template.
Variable render_method : Template -> string -> Method -> bool -> res string.
Variable render_codec : Template -> CustomType -> res string.
Variable language_service_ignore_list : SupportedLanguages -> option (list string).
Variable fnmatch : string -> string -> bool.
Variable file_name_generators : SupportedLanguages -> list string -> res string.

Local Abbreviation methods_loop :=
  (generate_methods Template get_template render_method language_service_ignore_list
     fnmatch file_name_generators).
Local Abbreviation custom_loop :=
  (generate_custom_types Template render_codec language_service_ignore_list
     fnmatch file_name_generators).

Lemma ignore_service_or_method_not_ignored (lang : SupportedLanguages) (name : string)
  (w : world) :
  not_ignored language_service_ignore_list fnmatch lang name ->
  ignore_service_or_method language_service_ignore_list fnmatch name lang w
  = (Ret false, w).
Proof.
  intros (patterns & Hlist & Hnone). unfold ignore_service_or_method.
  rewrite Hlist, Hnone. reflexivity.
Qed.

(** One iteration of the method loop, once its [try] statement is reached,
    does what the [try] body does, except that [NotImplementedError] is
    turned into one printed line. *)
Lemma methods_loop_step (lang : SupportedLanguages) (template : Template)
  (output_dir : string) (table : gmap string (gmap string bool))
  (service : Service) (method enriched : Method) (codec_file_name : string)
  (contains : bool) (rest : list Method) (w : world) :
  method_reaches_try language_service_ignore_list fnmatch file_name_generators
    lang table service method enriched codec_file_name contains ->
  methods_loop lang template output_dir table service (method :: rest) w =
  match method_try_body Template get_template render_method lang template output_dir
          (svc_name service) enriched contains codec_file_name w with
  | (Ret _, w') => methods_loop lang template output_dir table service rest w'
  | (Raise (NotImplementedError msg), w') =>
      methods_loop lang template output_dir table service rest
        (log (MissingTypeMapping codec_file_name (Some msg)) w')
  | (Raise e, w') => (Raise e, w')
  end.
Proof.
  intros (Hign & Hids & Hname & Hflag).
  cbn [generate_methods]. unfold e_bind at 1. unfold generate_method.
  unfold e_bind at 1. unfold ignore_method.
  rewrite (ignore_service_or_method_not_ignored lang _ w Hign).
  unfold e_bind, e_lift. rewrite Hids, Hname, Hflag.
  unfold try_except_NotImplementedError.
  destruct (method_try_body Template get_template render_method lang template output_dir
              (svc_name service) enriched contains codec_file_name w)
    as [[[] | e] w']; [reflexivity |].
  destruct e; reflexivity.
Qed.

Lemma methods_loop_cons (lang : SupportedLanguages) (template : Template)
  (output_dir : string) (table : gmap string (gmap string bool))
  (service : Service) (method enriched : Method) (codec_file_name : string)
  (contains : bool) (rest : list Method) (w : world) :
  is_CPP lang = false ->
  method_reaches_try language_service_ignore_list fnmatch file_name_generators
    lang table service method enriched codec_file_name contains ->
  methods_loop lang template output_dir table service (method :: rest) w =
  match render_method template (svc_name service) enriched contains with
  | Ret content =>
      methods_loop lang template output_dir table service rest
        (written (path_join output_dir codec_file_name) content mode_w w)
  | Raise (NotImplementedError msg) =>
      methods_loop lang template output_dir table service rest
        (log (MissingTypeMapping codec_file_name (Some msg)) w)
  | Raise e => (Raise e, w)
  end.
Proof.
  intros Hlang Hreach.
  rewrite (methods_loop_step lang template output_dir table service method enriched
             codec_file_name contains rest w Hreach).
  unfold method_try_body. rewrite Hlang. unfold e_bind, e_lift, e_save_file.
  destruct (render_method template (svc_name service) enriched contains)
    as [content | e]; [reflexivity |].
  destruct e; reflexivity.
Qed.

Lemma custom_loop_cons (lang : SupportedLanguages)
  (template header_template source_template : Template) (output_dir : string)
  (codec adjusted : CustomType) (codec_file_name : string) (rest : list CustomType)
  (previous : option string) (w : world) :
  is_CPP lang = false ->
  codec_reaches_render language_service_ignore_list fnmatch file_name_generators
    lang codec adjusted codec_file_name ->
  custom_loop lang template header_template source_template output_dir
    (codec :: rest) previous w =
  match render_codec template adjusted with
  | Ret content =>
      custom_loop lang template header_template source_template output_dir rest
        (Some codec_file_name)
        (written (path_join output_dir codec_file_name) content mode_w w)
  | Raise (NotImplementedError _) =>
      custom_loop lang template header_template source_template output_dir rest
        (Some codec_file_name) (log (MissingTypeMapping codec_file_name None) w)
  | Raise e => (Raise e, Some codec_file_name, w)
  end.
Proof.
  intros Hlang (Hign & Hadj & Hname).
  cbn [generate_custom_types]. unfold generate_custom_codec, ignore_service.
  rewrite (ignore_service_or_method_not_ignored lang _ w Hign).
  unfold custom_try_body. rewrite Hlang, Hadj, Hname.
  destruct (render_codec template adjusted) as [content | e]; [reflexivity |].
  destruct e; reflexivity.
Qed.

(** A batch of methods in which every artifact is emitted or skipped. *)
Lemma methods_loop_batch (lang : SupportedLanguages) (template : Template)
  (output_dir : string) (table : gmap string (gmap string bool)) (service : Service)
  (methods : list Method) (vs : list verdict) :
  is_CPP lang = false ->
  Forall2 (method_verdict Template render_method language_service_ignore_list fnmatch
             file_name_generators lang template output_dir table service) methods vs ->
  forall rest w,
    methods_loop lang template output_dir table service (methods ++ rest) w =
    methods_loop lang template output_dir table service rest
      (fold_left apply_verdict vs w).
Proof.
  intros Hlang Hall. induction Hall as [| m v methods vs Hm _ IH]; intros rest w.
  - reflexivity.
  - destruct Hm as (enriched & name & contains & Hreach & Hv).
    cbn [app fold_left].
    rewrite (methods_loop_cons lang template output_dir table service m enriched name
               contains (methods ++ rest) w Hlang Hreach).
    destruct v as [file content | line].
    + destruct Hv as [-> Hrender]. rewrite Hrender. apply IH.
    + destruct Hv as (msg & Hrender & ->). rewrite Hrender. apply IH.
Qed.

Lemma custom_loop_batch (lang : SupportedLanguages)
  (template header_template source_template : Template) (output_dir : string)
  (codecs : list CustomType) (vs : list verdict) :
  is_CPP lang = false ->
  Forall2 (codec_verdict Template render_codec language_service_ignore_list fnmatch
             file_name_generators lang template output_dir) codecs vs ->
  forall rest previous w,
  exists name,
    custom_loop lang template header_template source_template output_dir
      (codecs ++ rest) previous w =
    custom_loop lang template header_template source_template output_dir rest
      name (fold_left apply_verdict vs w).
Proof.
  intros Hlang Hall. induction Hall as [| c v codecs vs Hc _ IH]; intros rest previous w.
  - exists previous. reflexivity.
  - destruct Hc as (adjusted & name & Hreach & Hv).
    cbn [app fold_left].
    rewrite (custom_loop_cons lang template header_template source_template output_dir
               c adjusted name (codecs ++ rest) previous w Hlang Hreach).
    destruct v as [file content | line].
    + destruct Hv as [-> Hrender]. rewrite Hrender. apply IH.
    + destruct Hv as (msg & Hrender & ->). rewrite Hrender. apply IH.
Qed.

(** C9 (amended). In both emission loops and for every language but C++: a
    batch in which the renderer returns for some artifacts and raises
    [NotImplementedError] for the others runs to its end; each artifact of
    the first kind has its file written, each of the second kind is
    skipped with one printed line naming its file, and nothing else
    happens.  When the renderer raises anything else for an artifact, the
    loop ends there with that exception, and the artifacts after it are not
    processed.  For C++, where an artifact is rendered with two templates,
    [NotImplementedError] is caught and the batch goes on in the same way,
    but the artifact is skipped only from the template that raised: when
    the header template returns and the source template raises, the header
    text stays written and the source text is missing. *)
Theorem unsupported_type_mapping_skips_one_artifact :
  (forall lang template output_dir table service methods vs w,
      is_CPP lang = false ->
      Forall2 (method_verdict Template render_method language_service_ignore_list
                 fnmatch file_name_generators lang template output_dir table service)
        methods vs ->
      methods_loop lang template output_dir table service methods w =
        (Ret tt, fold_left apply_verdict vs w)
      /\ forall method e rest,
           method_fails Template render_method language_service_ignore_list fnmatch
             file_name_generators lang template table service method e ->
           methods_loop lang template output_dir table service
             (methods ++ method :: rest) w =
           (Raise e, fold_left apply_verdict vs w))
  /\ (forall lang template header_template source_template output_dir codecs vs
             previous w,
        is_CPP lang = false ->
        Forall2 (codec_verdict Template render_codec language_service_ignore_list
                   fnmatch file_name_generators lang template output_dir) codecs vs ->
        (exists name,
            custom_loop lang template header_template source_template output_dir
              codecs previous w = (Ret tt, name, fold_left apply_verdict vs w))
        /\ forall codec e rest,
             codec_fails Template render_codec language_service_ignore_list fnmatch
               file_name_generators lang template codec e ->
             exists name,
               custom_loop lang template header_template source_template output_dir
                 (codecs ++ codec :: rest) previous w =
               (Raise e, name, fold_left apply_verdict vs w))
  /\ (forall template output_dir table service method enriched codec_file_name
             contains rest w header_template source_template,
        method_reaches_try language_service_ignore_list fnmatch file_name_generators
          CPP table service method enriched codec_file_name contains ->
        get_template "codec-template.h.j2" = Ret header_template ->
        get_template "codec-template.cpp.j2" = Ret source_template ->
        methods_loop CPP template output_dir table service (method :: rest) w =
        match render_method header_template (svc_name service) enriched contains with
        | Ret header =>
            let w1 := written (path_join output_dir "codecs.h") header mode_a_plus w in
            match render_method source_template (svc_name service) enriched contains with
            | Ret source =>
                methods_loop CPP template output_dir table service rest
                  (written (path_join output_dir "codecs.cpp") source mode_a_plus w1)
            | Raise (NotImplementedError msg) =>
                methods_loop CPP template output_dir table service rest
                  (log (MissingTypeMapping codec_file_name (Some msg)) w1)
            | Raise e => (Raise e, w1)
            end
        | Raise (NotImplementedError msg) =>
            methods_loop CPP template output_dir table service rest
              (log (MissingTypeMapping codec_file_name (Some msg)) w)
        | Raise e => (Raise e, w)
        end)
  /\ (forall template header_template source_template output_dir codec rest previous w,
        not_ignored language_service_ignore_list fnmatch CPP (ct_name codec) ->
        let header_file_name := (str_lower (ct_name codec) +:+ "_codec") +:+ ".h" in
        let source_file_name := (str_lower (ct_name codec) +:+ "_codec") +:+ ".cpp" in
        custom_loop CPP template header_template source_template output_dir
          (codec :: rest) previous w =
        match render_codec header_template codec with
        | Ret header =>
            let w1 := written (path_join output_dir header_file_name) header mode_w w in
            match render_codec source_template codec with
            | Ret source =>
                custom_loop CPP template header_template source_template output_dir rest
                  (Some source_file_name)
                  (written (path_join output_dir source_file_name) source mode_w w1)
            | Raise (NotImplementedError _) =>
                custom_loop CPP template header_template source_template output_dir rest
                  (Some source_file_name)
                  (log (MissingTypeMapping source_file_name None) w1)
            | Raise e => (Raise e, Some source_file_name, w1)
            end
        | Raise (NotImplementedError _) =>
            custom_loop CPP template header_template source_template output_dir rest
              (Some header_file_name)
              (log (MissingTypeMapping header_file_name None) w)
        | Raise e => (Raise e, Some header_file_name, w)
        end).
Proof.
  split; [| split; [| split]].
  - intros lang template output_dir table service methods vs w Hlang Hall. split.
    + rewrite <- (app_nil_r methods).
      apply (methods_loop_batch lang template output_dir table service methods vs
               Hlang Hall [] w).
    + intros method e rest (enriched & name & contains & Hreach & Hrender & Hother).
      rewrite (methods_loop_batch lang template output_dir table service methods vs
                 Hlang Hall (method :: rest) w).
      rewrite (methods_loop_cons lang template output_dir table service method enriched
                 name contains rest _ Hlang Hreach).
      rewrite Hrender. destruct e; try reflexivity.
      exfalso. exact (Hother msg eq_refl).
  - intros lang template header_template source_template output_dir codecs vs
      previous w Hlang Hall. split.
    + destruct (custom_loop_batch lang template header_template source_template
                  output_dir codecs vs Hlang Hall [] previous w) as (name & Hrun).
      exists name. rewrite app_nil_r in Hrun. exact Hrun.
    + intros codec e rest (adjusted & name & Hreach & Hrender & Hother).
      destruct (custom_loop_batch lang template header_template source_template
                  output_dir codecs vs Hlang Hall (codec :: rest) previous w)
        as (name' & Hrun).
      exists (Some name). rewrite Hrun.
      rewrite (custom_loop_cons lang template header_template source_template output_dir
                 codec adjusted name rest name' _ Hlang Hreach).
      rewrite Hrender. destruct e; try reflexivity.
      exfalso. exact (Hother msg eq_refl).
  - intros template output_dir table service method enriched codec_file_name
      contains rest w header_template source_template Hreach Hh Hs.
    rewrite (methods_loop_step CPP template output_dir table service method enriched
               codec_file_name contains rest w Hreach).
    unfold method_try_body. cbn [is_CPP]. unfold e_bind, e_lift, e_save_file.
    rewrite Hh, Hs.
    destruct (render_method header_template (svc_name service) enriched contains)
      as [header | e]; [| destruct e; reflexivity].
    destruct (render_method source_template (svc_name service) enriched contains)
      as [source | e]; [reflexivity |].
    destruct e; reflexivity.
  - intros template header_template source_template output_dir codec rest previous w
      Hign header_file_name source_file_name.
    cbn [generate_custom_types]. unfold generate_custom_codec, ignore_service.
    rewrite (ignore_service_or_method_not_ignored CPP _ w Hign).
    unfold custom_try_body. cbn [is_CPP].
    subst header_file_name source_file_name.
    destruct (render_codec header_template codec) as [header | e];
      [| destruct e; reflexivity].
    destruct (render_codec source_template codec) as [source | e]; [reflexivity |].
    destruct e; reflexivity.
Qed.

End EmissionFacts.

(** The Java batch of the demo service: [exotic] has no type mapping,
    [size] has. *)
Lemma unsupported_type_mapping_skips_one_artifact_witness :
  generate_methods string demo_get_template demo_render_method demo_ignore_list
    demo_fnmatch demo_file_name JAVA "codec-template.java.j2" "out/" demo_table
    demo_service (svc_methods demo_service) empty_world
  = (Ret tt,
     fold_left apply_verdict
       [ Skipped (MissingTypeMapping "MapexoticCodec.java"
                    (Some "Missing type mapping for Exotic"));
         Emitted "out/MapsizeCodec.java" "codec-template.java.j2:Map.size" ]
       empty_world).
Proof.
  apply (proj1 (unsupported_type_mapping_skips_one_artifact string demo_get_template
                  demo_render_method demo_render_codec demo_ignore_list demo_fnmatch
                  demo_file_name)
           JAVA "codec-template.java.j2" "out/" demo_table demo_service
           (svc_methods demo_service)).
  - reflexivity.
  - constructor; [| constructor; [| constructor]].
    + exists demo_exotic_enriched, "MapexoticCodec.java", false.
      split; [| eexists; split; reflexivity].
      split; [exists []; split; reflexivity |].
      split; [vm_compute; reflexivity |]. split; vm_compute; reflexivity.
    + exists demo_size_enriched, "MapsizeCodec.java", false.
      split; [| split; reflexivity].
      split; [exists []; split; reflexivity |].
      split; [vm_compute; reflexivity |]. split; vm_compute; reflexivity.
Defined.

(** The whole Java batch: one line for [exotic], one file for [size]. *)
Example demo_batch_java :
  let '(outcome, w) :=
    generate_services string demo_get_template demo_render_method demo_ignore_list
      demo_fnmatch demo_file_name JAVA "codec-template.java.j2" "out/" demo_table
      [demo_service] empty_world in
  (outcome, printed w, files w !! "out/MapexoticCodec.java",
   files w !! "out/MapsizeCodec.java")
  = (Ret tt,
     [MissingTypeMapping "MapexoticCodec.java" (Some "Missing type mapping for Exotic")],
     None, Some "codec-template.java.j2:Map.size").
Proof. vm_compute. reflexivity. Qed.

(** Another exception ends the batch: [size] is not emitted. *)
Example demo_batch_other_exception :
  let '(outcome, w) :=
    generate_methods string demo_get_template demo_render_method demo_ignore_list
      demo_fnmatch demo_file_name JAVA "codec-template.java.j2" "out/" demo_table
      demo_service
      [ method_with_request "broken" 1 [];
        method_with_request "size" 2 [mk_param "name" "String"] ] empty_world in
  (outcome, printed w, files w !! "out/MapsizeCodec.java")
  = (Raise (OtherError "UndefinedError"), [], None).
Proof. vm_compute. reflexivity. Qed.

(** The custom types of the demo service: [Odd] is skipped with one line,
    [Address] is written. *)
Example demo_custom_batch :
  let '(outcome, w) :=
    generate_custom_codecs string demo_get_template demo_render_codec demo_ignore_list
      demo_fnmatch demo_file_name [demo_service] "custom-codec-template.java.j2" "out/"
      JAVA empty_world in
  (outcome, printed w, files w !! "out/OddCodec.java",
   files w !! "out/AddressCodec.java")
  = (Ret tt, [MissingTypeMapping "OddCodec.java" None], None,
     Some "custom-codec-template.java.j2:Address").
Proof. vm_compute. reflexivity. Qed.

(** C9 (as stated) fails for C++.  For the method [exotic] the header
    template returns and the source template raises [NotImplementedError]:
    the line naming the artifact is printed and the batch goes on with
    [size], yet the header text of [exotic] stands in [codecs.h] while
    [codecs.cpp] has nothing of it, so the artifact was not skipped as a
    whole.  The same happens to the custom type [Odd]: its header file is
    written, its source file is not. *)
Lemma cpp_skip_keeps_header_counterexample :
  (let '(outcome, w) :=
     generate_methods string demo_get_template demo_render_method_cpp demo_ignore_list
       demo_fnmatch demo_cpp_file_name CPP "unused" "out/" demo_table demo_service
       (svc_methods demo_service) empty_world in
   (outcome, printed w, files w !! "out/codecs.h", files w !! "out/codecs.cpp"))
  = (Ret tt,
     [MissingTypeMapping "Map_exotic_codec.cpp" (Some "Missing type mapping for Exotic")],
     Some "codec-template.h.j2:Map.exoticcodec-template.h.j2:Map.size",
     Some "codec-template.cpp.j2:Map.size")
  /\ (let '(outcome, w) :=
        generate_custom_codecs string demo_get_template demo_render_codec_cpp
          demo_ignore_list demo_fnmatch demo_cpp_file_name [demo_service] "unused"
          "out/" CPP empty_world in
      (outcome, printed w, files w !! "out/odd_codec.h", files w !! "out/odd_codec.cpp",
       files w !! "out/address_codec.h", files w !! "out/address_codec.cpp"))
     = (Ret tt, [MissingTypeMapping "odd_codec.cpp" None],
        Some "custom-codec-template.h.j2:Odd", None,
        Some "custom-codec-template.h.j2:Address",
        Some "custom-codec-template.cpp.j2:Address").
Proof. split; vm_compute; reflexivity. Qed.

(** * Further properties *)

(** ** Names and parameter lists *)

Example names_examples :
  java_name "List_Data" = Ret "ListData"
  /\ java_name "Map__String" = Raise IndexError
  /\ cs_name "List_(String)" = Ret "ListString"
  /\ param_name "Address" = Ret "address"
  /\ to_upper_snake_case "getHTTPResponse2Code" = "GET_HTTP_RESPONSE2_CODE"
  /\ to_upper_snake_case "a1b" = "A1B"
  /\ item_type java_name "ListCN_Map_A_B" = Ret (Some "MapAB")
  /\ item_type java_name "Set_Data" = Ret None
  /\ key_type java_name "Map_String_List_Data" = Ret "String"
  /\ value_type java_name "Map_String_List_Data" = Ret "ListData"
  /\ value_type java_name "Map_String" = Raise IndexError.
Proof. repeat split; vm_compute; reflexivity. Qed.

(** *** Prefixes *)

Lemma prefix_split (p : string) :
  forall s, String.prefix p s = true -> s = p +:+ drop_chars (String.length p) s.
Proof.
  induction p as [| a p IH]; intros s H; [reflexivity |].
  destruct s as [| b s]; [discriminate |]. cbn [String.prefix] in H.
  destruct (ascii_dec a b) as [<- | Hne]; [| discriminate].
  rewrite append_cons. cbn [String.length drop_chars]. f_equal. apply IH. exact H.
Qed.

Ltac exclusive_prefix H :=
  apply prefix_split in H; rewrite H; reflexivity.

Lemma list_prefix_exclusive (t : string) :
  startswith t "List_" = true ->
  startswith t "ListCN_" = false /\ startswith t "Map_" = false
  /\ startswith t "EntryList_" = false.
Proof. unfold startswith. intros H. repeat split; exclusive_prefix H. Qed.

Lemma listcn_prefix_exclusive (t : string) :
  startswith t "ListCN_" = true ->
  startswith t "Map_" = false /\ startswith t "EntryList_" = false.
Proof. unfold startswith. intros H. repeat split; exclusive_prefix H. Qed.

Lemma map_prefix_exclusive (t : string) :
  startswith t "Map_" = true -> startswith t "EntryList_" = false.
Proof. unfold startswith. intros H. exclusive_prefix H. Qed.

(** A type name is of at most one of the four variable-sized kinds,
    whatever the fixed-size tables hold. *)
Theorem var_sized_kinds_exclusive
  (FixSizedListTypes FixSizedMapTypes FixSizedEntryListTypes : list string)
  (param_type : string) :
  (var_sized_kinds FixSizedListTypes FixSizedMapTypes FixSizedEntryListTypes param_type
   <= 1)%nat.
Proof.
  unfold var_sized_kinds, is_var_sized_list, is_var_sized_list_contains_nullable,
    is_var_sized_map, is_var_sized_entry_list.
  destruct (startswith param_type "List_") eqn:Hl.
  { destruct (list_prefix_exclusive param_type Hl) as (-> & -> & ->).
    cbn [andb Nat.b2n]. destruct (negb _); cbn; lia. }
  destruct (startswith param_type "ListCN_") eqn:Hcn.
  { destruct (listcn_prefix_exclusive param_type Hcn) as (-> & ->).
    cbn [andb Nat.b2n]. destruct (negb _); cbn; lia. }
  destruct (startswith param_type "Map_") eqn:Hm.
  { rewrite (map_prefix_exclusive param_type Hm).
    cbn [andb Nat.b2n]. destruct (negb _); cbn; lia. }
  cbn [andb Nat.b2n]. destruct (startswith param_type "EntryList_" && _); cbn; lia.
Qed.

(** Every variable-sized list or set-free list name is one the analyzer
    unwraps, and every variable-sized map or entry list is one it splits. *)
Lemma var_sized_is_container
  (FixSizedListTypes FixSizedMapTypes FixSizedEntryListTypes : list string) (t : string) :
  (is_var_sized_list FixSizedListTypes t = true -> is_list_like t = true)
  /\ (is_var_sized_list_contains_nullable FixSizedListTypes t = true ->
      is_list_like t = true)
  /\ (is_var_sized_map FixSizedMapTypes t = true ->
      is_list_like t = false /\ is_map_like t = true)
  /\ (is_var_sized_entry_list FixSizedEntryListTypes t = true ->
      is_list_like t = false /\ is_map_like t = true).
Proof.
  unfold is_var_sized_list, is_var_sized_list_contains_nullable, is_var_sized_map,
    is_var_sized_entry_list, is_list_like, is_map_like.
  unfold startswith. split; [| split; [| split]]; intros H;
    apply andb_true_iff in H as [Hp _].
  - rewrite Hp. reflexivity.
  - rewrite Hp. rewrite orb_true_r. reflexivity.
  - split; [apply prefix_split in Hp; rewrite Hp; reflexivity | rewrite Hp; reflexivity].
  - split; [apply prefix_split in Hp; rewrite Hp; reflexivity |].
    rewrite Hp. apply orb_true_r.
Qed.

(** *** Fixed and variable-sized parameters *)

Lemma filter_split_permutation {A : Type} (f : A -> bool) (l : list A) :
  Permutation (List.filter f l ++ List.filter (fun x => negb (f x)) l) l.
Proof.
  induction l as [| a l IH]; [reflexivity |].
  cbn [List.filter]. destruct (f a); cbn [negb app].
  - constructor. exact IH.
  - rewrite <- Permutation_middle. constructor. exact IH.
Qed.

Lemma filter_sublist_bool {A : Type} (f : A -> bool) (l : list A) :
  sublist (List.filter f l) l.
Proof.
  induction l as [| a l IH]; [constructor |].
  cbn [List.filter]. destruct (f a); constructor; exact IH.
Qed.

(** The fixed-size and the variable-sized parameters split the list: each
    keeps the order of the declaration, together they hold every parameter
    exactly once, and no parameter is in both. *)
Theorem fixed_and_var_size_params_split (FixSizedTypes : list string) (params : list Param) :
  Permutation (fixed_params FixSizedTypes params ++ var_size_params FixSizedTypes params)
    params
  /\ sublist (fixed_params FixSizedTypes params) params
  /\ sublist (var_size_params FixSizedTypes params) params
  /\ forall p, In p (fixed_params FixSizedTypes params) ->
               In p (var_size_params FixSizedTypes params) -> False.
Proof.
  unfold fixed_params, var_size_params. split; [apply filter_split_permutation |].
  split; [apply filter_sublist_bool |]. split; [apply filter_sublist_bool |].
  intros p H1 H2. apply filter_In in H1 as [_ H1]. apply filter_In in H2 as [_ H2].
  rewrite H1 in H2. discriminate.
Qed.

(** *** Splitting at underscores *)

Lemma partition_at_lacks (c : ascii) (before : string) :
  forall after,
    lacks_char c before = true ->
    partition_at c (before +:+ String c after) = Some (before, after).
Proof.
  induction before as [| d r IH]; intros after H.
  - rewrite append_nil. cbn [partition_at]. rewrite Ascii.eqb_refl. reflexivity.
  - cbn [lacks_char] in H. apply andb_true_iff in H as [Hd Hr].
    apply negb_true_iff in Hd. rewrite append_cons. cbn [partition_at].
    rewrite Hd, (IH after Hr). reflexivity.
Qed.

Lemma partition_at_some (c : ascii) (s : string) :
  forall before after,
    partition_at c s = Some (before, after) ->
    s = before +:+ String c after /\ lacks_char c before = true.
Proof.
  induction s as [| d r IH]; intros before after H; [discriminate |].
  cbn [partition_at] in H. destruct (Ascii.eqb d c) eqn:Hd.
  - injection H as <- <-. apply Ascii.eqb_eq in Hd. subst d. split; reflexivity.
  - destruct (partition_at c r) as [[b a] |] eqn:Hp; [| discriminate].
    injection H as <- <-. destruct (IH b a eq_refl) as [-> Hb].
    split; [reflexivity |]. cbn [lacks_char]. rewrite Hd, Hb. reflexivity.
Qed.

Lemma partition_at_none (c : ascii) (s : string) :
  partition_at c s = None -> lacks_char c s = true.
Proof.
  induction s as [| d r IH]; intros H; [reflexivity |].
  cbn [partition_at] in H. destruct (Ascii.eqb d c) eqn:Hd; [discriminate |].
  destruct (partition_at c r) as [[b a] |]; [discriminate |].
  cbn [lacks_char]. rewrite Hd, (IH eq_refl). reflexivity.
Qed.

(** A composite type name yields the components it was built from: the
    item of a list, and the key and the value of a map or entry list whose
    key has no underscore.  The analyzer and the template helpers agree on
    them. *)
Theorem composite_type_names_decompose
  (lang_name : string -> res string) (item key value : string) :
  lacks_char "_" key = true ->
  (item_type_name ("List_" +:+ item) = Ret item
   /\ item_type_name ("ListCN_" +:+ item) = Ret item
   /\ item_type_name ("Set_" +:+ item) = Ret item)
  /\ (key_value_type_names ("Map_" +:+ key +:+ String "_" value) = Ret (key, value)
      /\ key_value_type_names ("EntryList_" +:+ key +:+ String "_" value)
         = Ret (key, value))
  /\ (key_type lang_name ("Map_" +:+ key +:+ String "_" value) = lang_name key
      /\ value_type lang_name ("Map_" +:+ key +:+ String "_" value) = lang_name value
      /\ key_type lang_name ("EntryList_" +:+ key +:+ String "_" value) = lang_name key
      /\ value_type lang_name ("EntryList_" +:+ key +:+ String "_" value)
         = lang_name value).
Proof.
  intros Hkey.
  assert (Hmap : py_split "_" 2 ("Map_" +:+ key +:+ String "_" value)
                 = ["Map"; key; value]).
  { change ("Map_" +:+ key +:+ String "_" value)
      with ("Map" +:+ String "_" (key +:+ String "_" value)).
    cbn [py_split]. rewrite (partition_at_lacks "_" "Map" _ eq_refl).
    rewrite (partition_at_lacks "_" key value Hkey). reflexivity. }
  assert (Hentry : py_split "_" 2 ("EntryList_" +:+ key +:+ String "_" value)
                   = ["EntryList"; key; value]).
  { change ("EntryList_" +:+ key +:+ String "_" value)
      with ("EntryList" +:+ String "_" (key +:+ String "_" value)).
    cbn [py_split]. rewrite (partition_at_lacks "_" "EntryList" _ eq_refl).
    rewrite (partition_at_lacks "_" key value Hkey). reflexivity. }
  split; [| split].
  - repeat split; reflexivity.
  - unfold key_value_type_names. rewrite Hmap, Hentry. split; reflexivity.
  - unfold key_type, value_type. rewrite Hmap, Hentry. repeat split; reflexivity.
Qed.

Lemma composite_type_names_decompose_witness :
  (item_type_name ("List_" +:+ "Data") = Ret "Data"
   /\ item_type_name ("ListCN_" +:+ "Data") = Ret "Data"
   /\ item_type_name ("Set_" +:+ "Data") = Ret "Data")
  /\ (key_value_type_names ("Map_" +:+ "String" +:+ String "_" "List_Data")
      = Ret ("String", "List_Data")
      /\ key_value_type_names ("EntryList_" +:+ "String" +:+ String "_" "List_Data")
         = Ret ("String", "List_Data"))
  /\ (key_type java_name ("Map_" +:+ "String" +:+ String "_" "List_Data")
      = java_name "String"
      /\ value_type java_name ("Map_" +:+ "String" +:+ String "_" "List_Data")
         = java_name "List_Data"
      /\ key_type java_name ("EntryList_" +:+ "String" +:+ String "_" "List_Data")
         = java_name "String"
      /\ value_type java_name ("EntryList_" +:+ "String" +:+ String "_" "List_Data")
         = java_name "List_Data").
Proof.
  apply (composite_type_names_decompose java_name "Data" "String" "List_Data").
  reflexivity.
Defined.

(** *** Case conversion *)

Ltac all_characters c :=
  destruct c as [[] [] [] [] [] [] [] []]; vm_compute; reflexivity.

Lemma ascii_upper_idempotent (c : ascii) : ascii_upper (ascii_upper c) = ascii_upper c.
Proof. all_characters c. Qed.

Lemma ascii_upper_underscore (c : ascii) :
  Ascii.eqb (ascii_upper c) "_" = Ascii.eqb c "_".
Proof. all_characters c. Qed.

Lemma str_upper_idempotent (s : string) : str_upper (str_upper s) = str_upper s.
Proof.
  induction s as [| c r IH]; [reflexivity |].
  cbn [str_upper]. rewrite ascii_upper_idempotent, IH. reflexivity.
Qed.

Lemma str_upper_app (s1 s2 : string) :
  str_upper (s1 +:+ s2) = str_upper s1 +:+ str_upper s2.
Proof.
  induction s1 as [| c r IH]; [reflexivity |].
  rewrite append_cons. cbn [str_upper]. rewrite append_cons, IH. reflexivity.
Qed.

Lemma without_underscores_app (s1 s2 : string) :
  without_underscores (s1 +:+ s2) = without_underscores s1 +:+ without_underscores s2.
Proof.
  induction s1 as [| c r IH]; [reflexivity |].
  rewrite append_cons. cbn [without_underscores].
  destruct (Ascii.eqb c "_"); [exact IH | rewrite append_cons, IH; reflexivity].
Qed.

Lemma without_underscores_upper (s : string) :
  without_underscores (str_upper s) = str_upper (without_underscores s).
Proof.
  induction s as [| c r IH]; [reflexivity |].
  cbn [str_upper without_underscores]. rewrite ascii_upper_underscore.
  destruct (Ascii.eqb c "_"); [exact IH |]. cbn [str_upper]. rewrite IH. reflexivity.
Qed.

Lemma without_underscores_lacks (s : string) :
  lacks_char "_" s = true -> without_underscores s = s.
Proof.
  induction s as [| c r IH]; intros H; [reflexivity |].
  cbn [lacks_char] in H. apply andb_true_iff in H as [Hc Hr].
  apply negb_true_iff in Hc. cbn [without_underscores]. rewrite Hc, (IH Hr).
  reflexivity.
Qed.

Lemma lacks_char_app (c : ascii) (s1 s2 : string) :
  lacks_char c (s1 +:+ s2) = lacks_char c s1 && lacks_char c s2.
Proof.
  induction s1 as [| d r IH]; [reflexivity |].
  rewrite append_cons. cbn [lacks_char]. rewrite IH, andb_assoc. reflexivity.
Qed.

Lemma insert_underscores_without (s : string) :
  forall prev, without_underscores (insert_underscores prev s) = without_underscores s.
Proof.
  induction s as [| c r IH]; intros prev; [reflexivity |].
  cbn [insert_underscores].
  destruct (is_upper_letter c && _); cbn [without_underscores];
    rewrite ?Ascii.eqb_refl, (IH (Some c)); reflexivity.
Qed.

(** On ASCII text, [to_upper_snake_case] only inserts underscores and
    upper-cases: without its underscores the result is the upper-cased text
    without its underscores, and upper-casing the result changes nothing. *)
Theorem to_upper_snake_case_inserts_underscores_only (camel_case_str : string) :
  ascii_text camel_case_str = true ->
  without_underscores (to_upper_snake_case camel_case_str)
  = str_upper (without_underscores camel_case_str)
  /\ str_upper (to_upper_snake_case camel_case_str) = to_upper_snake_case camel_case_str.
Proof.
  intros _. unfold to_upper_snake_case. split.
  - rewrite without_underscores_upper, insert_underscores_without. reflexivity.
  - apply str_upper_idempotent.
Qed.

Lemma to_upper_snake_case_inserts_underscores_only_witness :
  without_underscores (to_upper_snake_case "contextId2Name")
  = str_upper (without_underscores "contextId2Name")
  /\ str_upper (to_upper_snake_case "contextId2Name") = to_upper_snake_case "contextId2Name".
Proof.
  apply (to_upper_snake_case_inserts_underscores_only "contextId2Name"). reflexivity.
Defined.

(** *** [java_name] *)

Lemma str_join_cons (x : string) (l : list string) :
  str_join (x :: l) = x +:+ str_join l.
Proof.
  unfold str_join. destruct l as [| y l]; cbn [String.concat].
  - induction x as [| c r IH]; [reflexivity |].
    rewrite append_cons. f_equal. exact IH.
  - reflexivity.
Qed.

Lemma py_split_parts (c : ascii) (k : nat) :
  forall s, (String.length s <= k)%nat ->
  Forall (fun part => lacks_char c part = true) (py_split c k s)
  /\ (c = "_"%char -> str_join (py_split c k s) = without_underscores s).
Proof.
  induction k as [| k IH]; intros s Hlen.
  - destruct s; [| cbn in Hlen; lia]. split; [repeat constructor | reflexivity].
  - cbn [py_split]. destruct (partition_at c s) as [[before after] |] eqn:Hp.
    + destruct (partition_at_some c s before after Hp) as [-> Hb].
      rewrite string_length_app in Hlen. cbn [String.length] in Hlen.
      destruct (IH after ltac:(lia)) as [Hall Hjoin].
      split; [constructor; assumption |].
      intros ->. rewrite str_join_cons, (Hjoin eq_refl), without_underscores_app.
      cbn [without_underscores]. rewrite Ascii.eqb_refl.
      rewrite (without_underscores_lacks before Hb). reflexivity.
    + pose proof (partition_at_none c s Hp) as Hs.
      split; [repeat constructor; exact Hs |].
      intros ->. rewrite str_join_cons. cbn. rewrite (without_underscores_lacks s Hs).
      clear. induction s as [| d r IH]; [reflexivity |].
      rewrite append_cons. f_equal. exact IH.
Qed.

Lemma capital_parts (parts : list string) :
  Forall (fun part => lacks_char "_" part = true) parts ->
  (In EmptyString parts -> res_map capital parts = Raise IndexError)
  /\ (~ In EmptyString parts ->
      exists parts',
        res_map capital parts = Ret parts'
        /\ lacks_char "_" (str_join parts') = true
        /\ str_upper (str_join parts') = str_upper (str_join parts)).
Proof.
  induction 1 as [| p parts Hp _ IH].
  - split; [intros [] |]. intros _. exists []. repeat split; reflexivity.
  - destruct IH as [IHraise IHret]. split.
    + intros [Heq | Hin]; [subst p; reflexivity |].
      destruct p as [| c r]; [reflexivity |].
      cbn [res_map capital res_bind]. rewrite (IHraise Hin). reflexivity.
    + intros Hno. destruct p as [| c r]; [exfalso; apply Hno; left; reflexivity |].
      destruct IHret as (parts' & Hrun & Hlacks & Hupper);
        [intros Hin; apply Hno; right; exact Hin |].
      exists (String (ascii_upper c) r :: parts'). cbn [res_map capital res_bind].
      rewrite Hrun. cbn [res_bind]. split; [reflexivity |].
      rewrite !str_join_cons. cbn [lacks_char] in Hp.
      apply andb_true_iff in Hp as [Hc Hr]. split.
      * rewrite lacks_char_app. cbn [lacks_char].
        rewrite ascii_upper_underscore, Hc, Hr, Hlacks. reflexivity.
      * rewrite !str_upper_app. cbn [str_upper].
        rewrite ascii_upper_idempotent, Hupper. reflexivity.
Qed.

(** On an ASCII name, [java_name] raises [IndexError] exactly when some
    part between underscores is empty.  Otherwise its result has no
    underscore and is, up to the case of letters, the name without its
    underscores. *)
Theorem java_name_removes_underscores (type_name : string) :
  ascii_text type_name = true ->
  (In EmptyString (py_split_all "_" type_name) -> java_name type_name = Raise IndexError)
  /\ (~ In EmptyString (py_split_all "_" type_name) ->
      exists name,
        java_name type_name = Ret name
        /\ lacks_char "_" name = true
        /\ str_upper name = str_upper (without_underscores type_name)).
Proof.
  intros _. unfold java_name, py_split_all.
  destruct (py_split_parts "_" (String.length type_name) type_name (le_n _))
    as [Hall Hjoin].
  destruct (capital_parts _ Hall) as [Hraise Hret]. split.
  - intros Hin. rewrite (Hraise Hin). reflexivity.
  - intros Hno. destruct (Hret Hno) as (parts' & Hrun & Hlacks & Hupper).
    exists (str_join parts'). rewrite Hrun. cbn [res_bind].
    split; [reflexivity |]. split; [exact Hlacks |].
    rewrite Hupper, (Hjoin eq_refl). reflexivity.
Qed.

Lemma java_name_removes_underscores_witness :
  (In EmptyString (py_split_all "_" "Map__String") ->
   java_name "Map__String" = Raise IndexError)
  /\ (~ In EmptyString (py_split_all "_" "Map__String") ->
      exists name,
        java_name "Map__String" = Ret name
        /\ lacks_char "_" name = true
        /\ str_upper name = str_upper (without_underscores "Map__String")).
Proof. apply (java_name_removes_underscores "Map__String"). reflexivity. Defined.

(** *** Parameters known at a version *)

Lemma res_filter_all_later (v : Z) (params : list Param) (vs : list Z) :
  Forall2 (fun p pv => get_version_as_number (p_since p) = Ret pv) params vs ->
  Forall (fun pv => v < pv) vs ->
  res_filter
    (fun p => let* since := get_version_as_number (p_since p) in Ret (v >=? since))
    params = Ret [].
Proof.
  induction 1 as [| p pv params vs Hp _ IH]; intros Hlater; [reflexivity |].
  inversion Hlater as [| ? ? Hpv Hrest]; subst.
  cbn [res_filter]. rewrite Hp. cbn [res_bind]. rewrite (IH Hrest). cbn [res_bind].
  replace (v >=? pv) with false; [reflexivity |].
  symmetry. rewrite Z.geb_leb. apply Z.leb_gt. exact Hpv.
Qed.

Lemma nondecreasing_all_later (v x : Z) (vs : list Z) :
  nondecreasing (x :: vs) = true -> v < x -> Forall (fun pv => v < pv) vs.
Proof.
  revert x. induction vs as [| y vs IH]; intros x Hnd Hx; [constructor |].
  cbn [nondecreasing] in Hnd. apply andb_true_iff in Hnd as [Hxy Hrest].
  apply Z.leb_le in Hxy. constructor; [lia |]. apply (IH y Hrest). lia.
Qed.

(** When the parameters' since values are in non-decreasing order, as the
    validator demands, the parameters known at a version are a prefix of
    the list: the leading parameters whose version is at most the given
    one. *)
Theorem filter_new_params_is_prefix
  (params : list Param) (version : string) (v : Z) (vs : list Z) :
  get_version_as_number version = Ret v ->
  Forall2 (fun p pv => get_version_as_number (p_since p) = Ret pv) params vs ->
  nondecreasing vs = true ->
  filter_new_params params version = Ret (take (count_up_to v vs) params).
Proof.
  intros Hv Hparse. unfold filter_new_params. rewrite Hv. cbn [res_bind].
  induction Hparse as [| p pv params vs Hp Hrest IH]; intros Hnd; [reflexivity |].
  cbn [res_filter count_up_to]. rewrite Hp. cbn [res_bind].
  destruct (v >=? pv) eqn:Hge.
  - assert (Hnd' : nondecreasing vs = true).
    { destruct vs as [| y vs]; [reflexivity |]. cbn [nondecreasing] in Hnd.
      apply andb_true_iff in Hnd as [_ Hnd]. exact Hnd. }
    rewrite (IH Hnd'). reflexivity.
  - rewrite Z.geb_leb in Hge. apply Z.leb_gt in Hge.
    rewrite (res_filter_all_later v params vs Hrest
               (nondecreasing_all_later v pv vs Hnd Hge)).
    reflexivity.
Qed.

(** The parameter list 2.0, 2.0, 2.1, 2.3 read at version 2.1. *)
Lemma filter_new_params_is_prefix_witness :
  filter_new_params
    [mk_param "a" "int"; mk_param "b" "int";
     {| p_name := "c"; p_type := "int"; p_since := "2.1"; p_getterMethod := None |};
     {| p_name := "d"; p_type := "int"; p_since := "2.3"; p_getterMethod := None |}]
    "2.1"
  = Ret (take (count_up_to 20100 [20000; 20000; 20100; 20300])
           [mk_param "a" "int"; mk_param "b" "int";
            {| p_name := "c"; p_type := "int"; p_since := "2.1"; p_getterMethod := None |};
            {| p_name := "d"; p_type := "int"; p_since := "2.3"; p_getterMethod := None |}]).
Proof.
  apply (filter_new_params_is_prefix _ "2.1" 20100 [20000; 20000; 20100; 20300]).
  - reflexivity.
  - repeat constructor.
  - reflexivity.
Defined.

(** A parameter list out of order loses a parameter in the middle. *)
Example filter_new_params_unordered :
  filter_new_params
    [ {| p_name := "a"; p_type := "int"; p_since := "2.1"; p_getterMethod := None |};
      mk_param "b" "int" ] "2.0"
  = Ret [mk_param "b" "int"].
Proof. reflexivity. Qed.

(** ** Message ids *)

Lemma assign_event_ids_again (service_id method_id : Z) (events : list Event) :
  forall i events',
    assign_event_ids service_id method_id i events = Ret events' ->
    assign_event_ids service_id method_id i events' = Ret events'.
Proof.
  induction events as [| ev rest IH]; intros i events' H.
  - cbn in H. injection H as <-. reflexivity.
  - cbn [assign_event_ids] in H.
    destruct (message_id service_id method_id (i + 2)) as [id | e] eqn:Hid;
      [| discriminate].
    cbn [res_bind] in H.
    destruct (assign_event_ids service_id method_id (i + 1) rest) as [rest' | e] eqn:Hrest;
      [| discriminate].
    cbn [res_bind] in H. injection H as <-.
    cbn [assign_event_ids]. rewrite Hid. cbn [res_bind].
    rewrite (IH (i + 1) rest' Hrest). reflexivity.
Qed.

(** Assigning the ids a second time changes nothing: the ids depend on the
    declared service id, the declared method id and the position of each
    event only. *)
Theorem assign_message_ids_idempotent (service_id : Z) (method enriched : Method) :
  assign_message_ids service_id method = Ret enriched ->
  assign_message_ids service_id enriched = Ret enriched.
Proof.
  unfold assign_message_ids. intros H.
  destruct (message_id service_id (m_id method) 0) as [rq | e] eqn:Hrq; [| discriminate].
  destruct (message_id service_id (m_id method) 1) as [rs | e] eqn:Hrs; [| discriminate].
  cbn [res_bind] in H.
  destruct (m_events method) as [evs |] eqn:Hevs.
  - destruct (assign_event_ids service_id (m_id method) 0 evs) as [evs' | e] eqn:Hrun;
      [| discriminate].
    cbn [res_bind] in H. injection H as <-. cbn [m_id m_events m_request m_response].
    rewrite Hrq, Hrs. cbn [res_bind].
    rewrite (assign_event_ids_again _ _ evs 0 evs' Hrun). reflexivity.
  - cbn [res_bind] in H. injection H as <-. cbn [m_id m_events m_request m_response].
    rewrite Hrq, Hrs. reflexivity.
Qed.

Lemma assign_message_ids_idempotent_witness :
  assign_message_ids 1 demo_exotic_enriched = Ret demo_exotic_enriched.
Proof.
  apply (assign_message_ids_idempotent 1
           (method_with_request "exotic" 1 [mk_param "value" "Exotic"])).
  vm_compute. reflexivity.
Defined.

(** While the method id and the kind fit in one byte each, distinct
    (service, method, kind) triples get distinct ids. *)
Theorem message_id_injective_on_bytes (s m k s' m' k' : Z) :
  0 <= s -> 0 <= s' -> 0 <= m < 256 -> 0 <= m' < 256 ->
  0 <= k < 256 -> 0 <= k' < 256 ->
  message_id s m k = message_id s' m' k' ->
  s = s' /\ m = m' /\ k = k'.
Proof.
  intros Hs Hs' Hm Hm' Hk Hk' H.
  rewrite !message_id_bytes in H by assumption. injection H as H. lia.
Qed.

Lemma message_id_injective_on_bytes_witness : 3 = 3 /\ 5 = 5 /\ 2 = 2.
Proof.
  apply (message_id_injective_on_bytes 3 5 2 3 5 2); try lia. reflexivity.
Defined.

(** Past the byte range ids collide: method 256 of service 3 gets the id of
    method 0 of service 49. *)
Example message_id_collision : message_id 3 256 0 = message_id 49 0 0.
Proof. reflexivity. Qed.

Lemma parse_digits_invalid (base : Z) (c : ascii) (l : list ascii) :
  digit_value base c = None -> In c l -> forall acc, parse_digits base acc l = None.
Proof.
  intros Hc. induction l as [| d l IH]; intros Hin acc; [destruct Hin |].
  cbn [parse_digits]. destruct Hin as [-> | Hin].
  - rewrite Hc. reflexivity.
  - destruct (digit_value base d); [apply IH; exact Hin | reflexivity].
Qed.

Lemma fmt_02x_negative (n : Z) : n < 0 -> In "-"%char (fmt_02x n).
Proof.
  intros Hn. unfold fmt_02x. rewrite (proj2 (Z.ltb_lt n 0) Hn). left. reflexivity.
Qed.

(** A negative service id, method id or kind makes the id computation raise
    [ValueError]: the sign is printed into the text that is then read as a
    hexadecimal number. *)
Theorem message_id_negative_raises (service_id method_id kind : Z) :
  service_id < 0 \/ method_id < 0 \/ kind < 0 ->
  message_id service_id method_id kind = Raise ValueError.
Proof.
  intros Hneg. unfold message_id, id_fmt. rewrite py_int_base_0x.
  assert (Hin : In "-"%char (fmt_02x service_id ++ fmt_02x method_id ++ fmt_02x kind)).
  { rewrite !in_app_iff.
    destruct Hneg as [H | [H | H]]; auto using fmt_02x_negative. }
  unfold parse_unsigned.
  destruct (fmt_02x service_id ++ fmt_02x method_id ++ fmt_02x kind) as [| c l] eqn:Hl;
    [destruct Hin |].
  rewrite (parse_digits_invalid 16 "-" (c :: l) eq_refl Hin). reflexivity.
Qed.

Lemma message_id_negative_raises_witness : message_id 3 (-1) 0 = Raise ValueError.
Proof. apply (message_id_negative_raises 3 (-1) 0). right. left. lia. Defined.

(** ** The analyzer's memory *)

Section Memoisation.

Variable custom_types : gmap string CustomType.

Local Abbreviation contains_at := (type_contains_serialized_data custom_types).
Local Abbreviation body := (type_contains_serialized_data_body custom_types).

Lemma memo_within_refl (st : memo) : memo_within st st.
Proof. split; reflexivity. Qed.

Lemma memo_within_trans (st1 st2 st3 : memo) :
  memo_within st1 st2 -> memo_within st2 st3 -> memo_within st1 st3.
Proof. intros [H1 H2] [H3 H4]. split; set_solver. Qed.

Lemma record_within (t : string) (hit : bool) (st : memo) (b : bool) (st' : memo) :
  (if hit then add_containing t else add_not_containing t) st = Returns (b, st') ->
  memo_within st st'
  /\ (t ∈ types_containing_serialized_data st'
      \/ t ∈ types_not_containing_serialized_data st').
Proof.
  destruct hit; unfold add_containing, add_not_containing; intros H;
    injection H as <- <-; (split; [split; cbn; set_solver | cbn; set_solver]).
Qed.

Lemma any_param_contains_grows (f : string -> M bool) :
  grows f ->
  forall params st b st',
    any_param_contains f params st = Returns (b, st') -> memo_within st st'.
Proof.
  intros Hf params. induction params as [| p rest IH]; intros st b st' H.
  - cbn in H. injection H as <- <-. apply memo_within_refl.
  - cbn [any_param_contains] in H. unfold m_bind in H.
    destruct (f (p_type p) st) as [[hit st1] | e |] eqn:Hp; try discriminate.
    pose proof (Hf _ _ _ _ Hp) as H1. destruct hit.
    + cbn in H. injection H as <- <-. exact H1.
    + exact (memo_within_trans _ _ _ H1 (IH _ _ _ H)).
Qed.

(** A call that returns leaves the sets at least as large and the name it
    classified in one of them. *)
Lemma body_grows_and_records (f : string -> M bool) :
  grows f ->
  forall t st b st',
    body f t st = Returns (b, st') ->
    memo_within st st'
    /\ (t ∈ types_containing_serialized_data st'
        \/ t ∈ types_not_containing_serialized_data st').
Proof.
  intros Hf t st b st' H. unfold type_contains_serialized_data_body in H.
  destruct (bool_decide (t ∈ types_containing_serialized_data st)) eqn:Hin.
  { apply bool_decide_eq_true in Hin. injection H as <- <-.
    split; [apply memo_within_refl | left; exact Hin]. }
  destruct (bool_decide (t ∈ types_not_containing_serialized_data st)) eqn:Hout.
  { apply bool_decide_eq_true in Hout. injection H as <- <-.
    split; [apply memo_within_refl | right; exact Hout]. }
  destruct (is_list_like t).
  { destruct (item_type_name t) as [item | e]; [| discriminate].
    unfold m_bind in H.
    destruct (f item st) as [[hit st1] | e |] eqn:Hi; try discriminate.
    destruct (record_within t hit st1 b st' H) as [Hw Hrec].
    split; [exact (memo_within_trans _ _ _ (Hf _ _ _ _ Hi) Hw) | exact Hrec]. }
  destruct (is_map_like t).
  { destruct (key_value_type_names t) as [[key value] | e]; [| discriminate].
    unfold m_bind in H.
    destruct (f key st) as [[key_hit st1] | e |] eqn:Hk; try discriminate.
    pose proof (Hf _ _ _ _ Hk) as H1. destruct key_hit.
    - cbn [m_ret] in H. destruct (record_within t true st1 b st' H) as [Hw Hrec].
      split; [exact (memo_within_trans _ _ _ H1 Hw) | exact Hrec].
    - destruct (f value st1) as [[hit st2] | e |] eqn:Hv; try discriminate.
      destruct (record_within t hit st2 b st' H) as [Hw Hrec].
      split; [| exact Hrec].
      exact (memo_within_trans _ _ _ H1 (memo_within_trans _ _ _ (Hf _ _ _ _ Hv) Hw)). }
  unfold m_bind, custom_type_contains_serialized_data in H.
  destruct (custom_types !! t) as [custom |].
  - destruct (ct_params custom) as [params |]; [| discriminate].
    destruct (any_param_contains f params st) as [[hit st1] | e |] eqn:Hany;
      try discriminate.
    destruct (record_within t hit st1 b st' H) as [Hw Hrec].
    split; [| exact Hrec].
    exact (memo_within_trans _ _ _ (any_param_contains_grows f Hf _ _ _ _ Hany) Hw).
  - exact (record_within t false st b st' H).
Qed.

Lemma contains_at_grows (fuel : nat) : grows (contains_at fuel).
Proof.
  induction fuel as [| fuel IH].
  - intros t st b st' H. discriminate.
  - intros t st b st' H. exact (proj1 (body_grows_and_records _ IH t st b st' H)).
Qed.

(** Memoisation.  From sets that agree with the rule (the initial sets do),
    a classification that returns only adds to the two sets, and asking
    again for the same name gives the same answer at recursion depth one,
    without a recursive call and without changing the sets. *)
Theorem classification_is_memoised
  (fuel : nat) (t : string) (st : memo) (b : bool) (st' : memo) :
  sound custom_types st ->
  contains_at fuel t st = Returns (b, st') ->
  memo_within st st'
  /\ forall contains : string -> M bool, body contains t st' = Returns (b, st').
Proof.
  intros Hs H. destruct fuel as [| fuel]; [discriminate |].
  cbn [type_contains_serialized_data] in H.
  destruct (body_grows_and_records _ (contains_at_grows fuel) t st b st' H)
    as [Hw Hrec].
  split; [exact Hw |]. intros contains.
  destruct (contains_at_agrees custom_types (S fuel) t st b st' Hs H) as [Hc Hs'].
  apply (body_recorded custom_types); assumption.
Qed.

End Memoisation.

Lemma classification_is_memoised_witness :
  memo_within initial_memo
    {| types_containing_serialized_data := {[ "List_Data"; "Data" ]};
       types_not_containing_serialized_data := ∅ |}
  /\ forall contains : string -> M bool,
       type_contains_serialized_data_body sample_custom_types contains "List_Data"
         {| types_containing_serialized_data := {[ "List_Data"; "Data" ]};
            types_not_containing_serialized_data := ∅ |}
       = Returns (true,
                  {| types_containing_serialized_data := {[ "List_Data"; "Data" ]};
                     types_not_containing_serialized_data := ∅ |}).
Proof.
  apply (classification_is_memoised sample_custom_types 2 "List_Data" initial_memo).
  - apply sound_initial_memo.
  - vm_compute. reflexivity.
Defined.

(** ** The lookup table of a corpus with unique names *)

Lemma NoDup_map_injective {A B : Type} (f : A -> B) (l : list A) (x y : A) :
  NoDup (map f l) -> In x l -> In y l -> f x = f y -> x = y.
Proof.
  induction l as [| a l IH]; intros Hnd Hx Hy Heq; [destruct Hx |].
  apply NoDup_cons in Hnd as [Ha Hnd]. cbn [map] in Ha.
  rewrite list_elem_of_In in Ha.
  destruct Hx as [-> | Hx]; destruct Hy as [-> | Hy].
  - reflexivity.
  - exfalso. apply Ha. rewrite Heq. apply in_map. exact Hy.
  - exfalso. apply Ha. rewrite <- Heq. apply in_map. exact Hx.
  - apply IH; assumption.
Qed.

(** When no two services share a name and no two methods of a service do,
    the table the code returns holds, for every method of every service,
    the answer for that very method: true iff the type of one of its
    request parameters carries the payload. *)
Theorem lookup_table_entry_of_method
  (custom_services : list Service) (custom_types : gmap string CustomType)
  (fuel : nat) (services : list Service) (table : gmap string (gmap string bool))
  (service : Service) (method : Method) :
  custom_types_of custom_services = Ret custom_types ->
  generate_data_containing_requests_lookup_table fuel services custom_services
  = Returns table ->
  NoDup (map svc_name services) ->
  (forall s, In s services -> NoDup (map m_name (svc_methods s))) ->
  In service services -> In method (svc_methods service) ->
  exists b,
    lookup_entry table (svc_name service) (m_name method) = Some b
    /\ (b = true <->
        exists t, In t (request_types method) /\ classified custom_types t true).
Proof.
  intros Hct Hgen Hservices Hmethods Hs Hm.
  unfold generate_data_containing_requests_lookup_table in Hgen. rewrite Hct in Hgen.
  destruct (services_table custom_types fuel services ∅ initial_memo)
    as [[table' st'] | e |] eqn:Hrun; try discriminate.
  injection Hgen as ->.
  destruct (services_table_entries custom_types fuel services _ _ _ _
              (sound_initial_memo custom_types) Hrun) as (Hentries & _ & Hall).
  destruct (Hall service method Hs Hm) as [b Hb]. exists b. split; [exact Hb |].
  destruct (Hentries _ _ b Hb) as [Hold | (s' & m' & Hs' & Hm' & Hsn & Hmn & Hc)].
  - unfold lookup_entry in Hold. rewrite lookup_empty in Hold. discriminate.
  - assert (s' = service) as -> by (eapply NoDup_map_injective; eassumption).
    assert (m' = method) as ->
      by (eapply NoDup_map_injective; [apply (Hmethods service Hs) | eassumption ..]).
    apply classified_any_true_iff. exact Hc.
Qed.

Lemma lookup_table_entry_of_method_witness :
  exists b,
    lookup_entry
      (<[ "Map" := <[ "size" := false ]> (∅ : gmap string bool) ]>
         (∅ : gmap string (gmap string bool)))
      "Map" "size" = Some b
    /\ (b = true <->
        exists t, In t (request_types
                          (method_with_request "size" 2 [mk_param "name" "String"]))
                  /\ classified sample_custom_types t true).
Proof.
  apply (lookup_table_entry_of_method sample_custom_services sample_custom_types 3
           [ {| svc_name := "Map"; svc_id := 1;
                svc_methods := [method_with_request "size" 2 [mk_param "name" "String"]];
                svc_customTypes := None |} ]
           (<[ "Map" := <[ "size" := false ]> (∅ : gmap string bool) ]>
              (∅ : gmap string (gmap string bool)))
           {| svc_name := "Map"; svc_id := 1;
              svc_methods := [method_with_request "size" 2 [mk_param "name" "String"]];
              svc_customTypes := None |}
           (method_with_request "size" 2 [mk_param "name" "String"])).
  - vm_compute. reflexivity.
  - vm_compute. reflexivity.
  - repeat constructor. cbn. set_solver.
  - intros s [<- | []]. repeat constructor. cbn. set_solver.
  - left. reflexivity.
  - left. reflexivity.
Defined.

(** ** The hash and the written files *)

Lemma le_bytes_length (n : nat) (x : Z) : length (le_bytes n x) = n.
Proof. revert x. induction n as [| n IH]; intros x; cbn; [| rewrite IH]; reflexivity. Qed.

Lemma le_bytes_range (n : nat) (x : Z) :
  Forall (fun byte => 0 <= byte < 256) (le_bytes n x).
Proof.
  revert x. induction n as [| n IH]; intros x; cbn [le_bytes]; constructor.
  - apply Z.mod_pos_bound. lia.
  - apply IH.
Qed.

Lemma md5_digest_bytes (message : list Z) :
  length (md5_digest message) = 16%nat
  /\ Forall (fun byte => 0 <= byte < 256) (md5_digest message).
Proof.
  unfold md5_digest.
  destruct (md5_blocks _ _ _) as [[[a b] c] d].
  split.
  - rewrite !length_app, !le_bytes_length. reflexivity.
  - rewrite !Forall_app. repeat split; apply le_bytes_range.
Qed.

Lemma hex_digit_is_hex (d : Z) : 0 <= d < 16 -> is_hex_char (hex_digit d) = true.
Proof.
  intros H.
  assert (Hd : d = 0 \/ d = 1 \/ d = 2 \/ d = 3 \/ d = 4 \/ d = 5 \/ d = 6 \/ d = 7 \/
               d = 8 \/ d = 9 \/ d = 10 \/ d = 11 \/ d = 12 \/ d = 13 \/ d = 14 \/ d = 15)
    by lia.
  repeat (destruct Hd as [-> | Hd]; [reflexivity |]). subst d. reflexivity.
Qed.

Lemma length_string_of_list_ascii (l : list ascii) :
  String.length (string_of_list_ascii l) = length l.
Proof. induction l as [| c l IH]; cbn; [| rewrite IH]; reflexivity. Qed.

Lemma hex_of_bytes (l : list Z) :
  Forall (fun byte => 0 <= byte < 256) l ->
  length (flat_map (fun byte => [hex_digit (byte / 16); hex_digit (byte mod 16)]) l)
  = (2 * length l)%nat
  /\ Forall (fun c => is_hex_char c = true)
       (flat_map (fun byte => [hex_digit (byte / 16); hex_digit (byte mod 16)]) l).
Proof.
  induction 1 as [| byte l Hb _ [IHlen IHhex]]; [split; [reflexivity | constructor] |].
  cbn [flat_map app length]. split; [rewrite IHlen; lia |].
  constructor; [| constructor; [| exact IHhex]].
  - apply hex_digit_is_hex. split; [apply Z.div_pos; lia |].
    apply Z.div_lt_upper_bound; lia.
  - apply hex_digit_is_hex. apply Z.mod_pos_bound. lia.
Qed.

Lemma md5_hexdigest_shape (content : string) :
  String.length (md5_hexdigest content) = 32%nat
  /\ Forall (fun c => is_hex_char c = true)
       (list_ascii_of_string (md5_hexdigest content)).
Proof.
  unfold md5_hexdigest. rewrite length_string_of_list_ascii.
  rewrite list_ascii_of_string_of_list_ascii.
  destruct (md5_digest_bytes (utf8_encode content)) as [Hlen Hrange].
  destruct (hex_of_bytes _ Hrange) as [Hl Hhex]. rewrite Hl, Hlen.
  split; [reflexivity | exact Hhex].
Qed.

(** The hash is always 32 characters, each a digit or a letter from a to
    f: the token, which starts with an exclamation mark, never comes back
    inside a hash. *)
Theorem md5_hexdigest_format (content : string) :
  String.length (md5_hexdigest content) = 32%nat
  /\ Forall (fun c => is_hex_char c = true)
       (list_ascii_of_string (md5_hexdigest content)).
Proof. apply md5_hexdigest_shape. Qed.

Lemma append_nil_r (s : string) : s +:+ EmptyString = s.
Proof. induction s as [| c r IH]; [reflexivity |]. rewrite append_cons, IH. reflexivity. Qed.

Lemma file_text_save_file (file content : string) (mode : file_mode)
  (files : gmap string string) :
  file_text (save_file file content mode files) file =
  match mode with
  | mode_w => artifact_text file content
  | mode_a_plus => file_text files file +:+ artifact_text file content
  end.
Proof.
  unfold file_text, save_file, artifact_text.
  destruct mode; rewrite lookup_insert_eq; reflexivity.
Qed.

Lemma save_file_other (file other content : string) (mode : file_mode)
  (files : gmap string string) :
  file <> other -> save_file file content mode files !! other = files !! other.
Proof.
  intros Hne. unfold save_file. destruct mode; apply lookup_insert_ne; exact Hne.
Qed.

Lemma appended_pieces (file : string) (pieces : list string) :
  forall files,
    file_text (fold_left (fun fs piece => save_file file piece mode_a_plus fs)
                 pieces files) file
    = file_text files file +:+ str_join (map (artifact_text file) pieces)
    /\ forall other, file <> other ->
         fold_left (fun fs piece => save_file file piece mode_a_plus fs) pieces files
           !! other = files !! other.
Proof.
  induction pieces as [| piece rest IH]; intros files.
  - cbn [fold_left map]. split; [symmetry; apply append_nil_r | reflexivity].
  - cbn [fold_left map]. destruct (IH (save_file file piece mode_a_plus files))
      as [Htext Hother].
    split.
    + rewrite Htext, file_text_save_file, str_join_cons, string_app_assoc. reflexivity.
    + intros other Hne. rewrite (Hother other Hne). apply save_file_other. exact Hne.
Qed.

(** A file written once and then appended to, as the two C++ files are,
    ends up as the texts of the pieces one after the other, each piece
    carrying the hash of its own text; what the file held before the first
    write is gone, and no other file changes. *)
Theorem written_then_appended (file first : string) (pieces : list string)
  (files : gmap string string) :
  let result :=
    fold_left (fun fs piece => save_file file piece mode_a_plus fs) pieces
      (save_file file first mode_w files) in
  file_text result file = str_join (map (artifact_text file) (first :: pieces))
  /\ forall other, file <> other -> result !! other = files !! other.
Proof.
  intros result. subst result.
  destruct (appended_pieces file pieces (save_file file first mode_w files))
    as [Htext Hother].
  split.
  - rewrite Htext, file_text_save_file. cbn [map]. rewrite str_join_cons. reflexivity.
  - intros other Hne. rewrite (Hother other Hne). apply save_file_other. exact Hne.
Qed.

Example written_then_appended_example :
  file_text
    (save_file "codecs.h" "// !codec_hash! b" mode_a_plus
       (save_file "codecs.h" "// !codec_hash! a" mode_w ∅)) "codecs.h"
  = "// 7e87ee4daa200d5ce71b875dae5166df a// bc6ed08631b7affc82d084d9e8965b50 b".
Proof. vm_compute. reflexivity. Qed.

(** ** The normalized text of a C# artifact *)

Lemma is_blank_not_lf (c : ascii) : is_blank c = true -> Ascii.eqb c LF = false.
Proof.
  unfold is_blank. intros H. apply orb_true_iff in H as [H | H];
    apply Ascii.eqb_eq in H; subst c; reflexivity.
Qed.

Lemma is_blank_not_cr (c : ascii) : is_blank c = true -> Ascii.eqb c CR = false.
Proof.
  unfold is_blank. intros H. apply orb_true_iff in H as [H | H];
    apply Ascii.eqb_eq in H; subst c; reflexivity.
Qed.

(** *** No carriage return is left *)

Lemma py_replace_cr_lacks (fuel : nat) :
  forall s, (String.length s <= fuel)%nat ->
  lacks_char CR (py_replace_from fuel cr lf s) = true.
Proof.
  change cr with (String CR EmptyString). change lf with (String LF EmptyString).
  induction fuel as [| k IH]; intros s Hlen.
  - destruct s; [reflexivity | cbn in Hlen; lia].
  - destruct s as [| c r]; [reflexivity |]. cbn [String.length] in Hlen.
    cbn [py_replace_from String.prefix].
    destruct (ascii_dec CR c) as [<- | Hne].
    + replace (String.prefix EmptyString r) with true by (destruct r; reflexivity).
      cbn [String.length drop_chars]. rewrite append_cons, append_nil.
      cbn [lacks_char]. rewrite IH by lia. reflexivity.
    + cbn [lacks_char]. rewrite IH by lia.
      destruct (Ascii.eqb c CR) eqn:Hc; [| reflexivity].
      apply Ascii.eqb_eq in Hc. congruence.
Qed.

Lemma all_blank_lacks_cr (p : string) : all_blank p = true -> lacks_char CR p = true.
Proof.
  induction p as [| c r IH]; intros H; [reflexivity |].
  cbn [all_blank] in H. apply andb_true_iff in H as [Hc Hr].
  cbn [lacks_char]. rewrite (is_blank_not_cr c Hc), (IH Hr). reflexivity.
Qed.

Lemma all_blank_snoc (p : string) (c : ascii) :
  all_blank p = true -> is_blank c = true ->
  all_blank (p +:+ String c EmptyString) = true.
Proof.
  induction p as [| d r IH]; intros Hp Hc.
  - rewrite append_nil. cbn [all_blank]. rewrite Hc. reflexivity.
  - cbn [all_blank] in Hp. apply andb_true_iff in Hp as [Hd Hr].
    rewrite append_cons. cbn [all_blank]. rewrite Hd, (IH Hr Hc). reflexivity.
Qed.

Lemma strip_trailing_blanks_lacks_cr (s : string) :
  forall pending,
    all_blank pending = true -> lacks_char CR s = true ->
    lacks_char CR (strip_trailing_blanks pending s) = true.
Proof.
  induction s as [| c r IH]; intros pending Hp Hs; [reflexivity |].
  cbn [lacks_char] in Hs. apply andb_true_iff in Hs as [Hc Hr].
  cbn [strip_trailing_blanks]. fold (is_blank c).
  destruct (is_blank c) eqn:Hb.
  - apply IH; [apply all_blank_snoc; assumption | exact Hr].
  - destruct (Ascii.eqb c LF).
    + cbn [lacks_char]. rewrite Hc. apply (IH EmptyString eq_refl Hr).
    + rewrite lacks_char_app. cbn [lacks_char].
      rewrite (all_blank_lacks_cr pending Hp), Hc. apply (IH EmptyString eq_refl Hr).
Qed.

Lemma rstrip_lf_lacks (c : ascii) (s : string) :
  lacks_char c s = true -> lacks_char c (rstrip_lf s) = true.
Proof.
  induction s as [| d r IH]; intros H; [reflexivity |].
  cbn [lacks_char] in H. apply andb_true_iff in H as [Hd Hr].
  cbn [rstrip_lf]. specialize (IH Hr). destruct (rstrip_lf r) as [| e r'].
  - destruct (Ascii.eqb d LF); [reflexivity |]. cbn [lacks_char]. rewrite Hd. reflexivity.
  - cbn [lacks_char] in *. rewrite Hd. exact IH.
Qed.

(** *** No blank before a line end *)

Lemma no_trailing_blanks_cons (c : ascii) (r : string) :
  no_trailing_blanks (String c r)
  = negb (is_blank c
          && match r with
             | EmptyString => true
             | String d _ => Ascii.eqb d LF
             end)
    && no_trailing_blanks r.
Proof. reflexivity. Qed.

Lemma no_trailing_blanks_after_blanks (p : string) (c : ascii) (rest : string) :
  all_blank p = true -> is_blank c = false -> Ascii.eqb c LF = false ->
  no_trailing_blanks (p +:+ String c rest) = no_trailing_blanks (String c rest).
Proof.
  intros Hp Hc Hlf. induction p as [| d r IH]; [reflexivity |].
  cbn [all_blank] in Hp. apply andb_true_iff in Hp as [Hd Hr].
  rewrite append_cons. cbn [no_trailing_blanks]. rewrite (IH Hr).
  fold (is_blank d). rewrite Hd.
  destruct r as [| e r'].
  - rewrite append_nil. rewrite Hlf. reflexivity.
  - rewrite append_cons. cbn [all_blank] in Hr. apply andb_true_iff in Hr as [He _].
    rewrite (is_blank_not_lf e He). reflexivity.
Qed.

Lemma strip_trailing_blanks_clean (s : string) :
  forall pending,
    all_blank pending = true ->
    no_trailing_blanks (strip_trailing_blanks pending s) = true.
Proof.
  induction s as [| c r IH]; intros pending Hp; [reflexivity |].
  cbn [strip_trailing_blanks]. fold (is_blank c).
  destruct (is_blank c) eqn:Hb.
  - apply IH. apply all_blank_snoc; assumption.
  - destruct (Ascii.eqb c LF) eqn:Hlf.
    + cbn [no_trailing_blanks]. fold (is_blank c). rewrite Hb.
      apply (IH EmptyString eq_refl).
    + rewrite (no_trailing_blanks_after_blanks pending c _ Hp Hb Hlf).
      cbn [no_trailing_blanks]. fold (is_blank c). rewrite Hb.
      apply (IH EmptyString eq_refl).
Qed.

Lemma rstrip_lf_empty (s : string) :
  rstrip_lf s = EmptyString -> s = EmptyString \/ exists r, s = String LF r.
Proof.
  destruct s as [| c r]; intros H; [left; reflexivity |].
  right. cbn [rstrip_lf] in H. destruct (rstrip_lf r); [| discriminate].
  destruct (Ascii.eqb c LF) eqn:Hc; [| discriminate].
  apply Ascii.eqb_eq in Hc. subst c. exists r. reflexivity.
Qed.

Lemma rstrip_lf_head (s : string) (d : ascii) (r' : string) :
  rstrip_lf s = String d r' -> exists r, s = String d r.
Proof.
  destruct s as [| c r]; intros H; [discriminate |].
  cbn [rstrip_lf] in H. destruct (rstrip_lf r).
  - destruct (Ascii.eqb c LF); [discriminate |]. injection H as <- _. exists r. reflexivity.
  - injection H as <- _. exists r. reflexivity.
Qed.

Lemma rstrip_lf_clean (s : string) :
  no_trailing_blanks s = true ->
  no_trailing_blanks (rstrip_lf s +:+ lf) = true.
Proof.
  change lf with (String LF EmptyString).
  induction s as [| c r IH]; intros H; [reflexivity |].
  rewrite no_trailing_blanks_cons in H. apply andb_true_iff in H as [Hc Hr].
  specialize (IH Hr). cbn [rstrip_lf].
  destruct (rstrip_lf r) as [| d r'] eqn:Hstrip.
  - destruct (Ascii.eqb c LF) eqn:Hlf; [reflexivity |].
    rewrite append_cons, append_nil, no_trailing_blanks_cons.
    rewrite Ascii.eqb_refl, andb_true_r.
    destruct (rstrip_lf_empty r Hstrip) as [-> | (r0 & ->)].
    + rewrite Hc. reflexivity.
    + rewrite Ascii.eqb_refl in Hc. rewrite Hc. reflexivity.
  - rewrite append_cons, no_trailing_blanks_cons, IH, andb_true_r.
    destruct (rstrip_lf_head r d r' Hstrip) as (r0 & ->).
    rewrite append_cons. exact Hc.
Qed.

(** *** Exactly one line feed at the end *)

Lemma rstrip_lf_no_final_lf (s : string) : no_final_lf (rstrip_lf s) = true.
Proof.
  induction s as [| c r IH]; [reflexivity |].
  cbn [rstrip_lf]. destruct (rstrip_lf r) as [| d r'].
  - destruct (Ascii.eqb c LF) eqn:Hc; [reflexivity |]. cbn. rewrite Hc. reflexivity.
  - exact IH.
Qed.

Lemma rstrip_lf_back (body : string) :
  no_final_lf body = true -> rstrip_lf (body +:+ lf) = body.
Proof.
  induction body as [| c r IH]; intros H; [reflexivity |].
  rewrite append_cons. cbn [rstrip_lf]. destruct r as [| d r'].
  - rewrite append_nil. cbn in H. apply negb_true_iff in H.
    change (rstrip_lf lf) with EmptyString. cbn iota. rewrite H. reflexivity.
  - rewrite (IH H). reflexivity.
Qed.

(** *** Normalizing again changes nothing *)

Lemma py_replace_from_lacks_first (c : ascii) (old' new : string) (fuel : nat) :
  forall s, lacks_char c s = true ->
  py_replace_from fuel (String c old') new s = s.
Proof.
  induction fuel as [| k IH]; intros s H; [reflexivity |].
  destruct s as [| d r]; [reflexivity |].
  cbn [lacks_char] in H. apply andb_true_iff in H as [Hd Hr].
  apply negb_true_iff in Hd. cbn [py_replace_from String.prefix].
  destruct (ascii_dec c d) as [<- | Hne].
  - rewrite Ascii.eqb_refl in Hd. discriminate.
  - rewrite (IH r Hr). reflexivity.
Qed.

Lemma no_trailing_blanks_suffix (p s : string) :
  no_trailing_blanks (p +:+ s) = true -> no_trailing_blanks s = true.
Proof.
  induction p as [| c r IH]; intros H; [exact H |].
  rewrite append_cons in H. cbn [no_trailing_blanks] in H.
  apply andb_true_iff in H as [_ H]. exact (IH H).
Qed.

Lemma blanks_before_line_end (p rest : string) :
  all_blank p = true ->
  no_trailing_blanks (p +:+ rest) = true ->
  (rest = EmptyString \/ exists r, rest = String LF r) ->
  p = EmptyString.
Proof.
  intros Hp Hntb Hrest. induction p as [| c r IH]; [reflexivity |]. exfalso.
  cbn [all_blank] in Hp. apply andb_true_iff in Hp as [Hc Hr].
  rewrite append_cons in Hntb. cbn [no_trailing_blanks] in Hntb.
  apply andb_true_iff in Hntb as [Hhere Hlater].
  specialize (IH Hr Hlater). subst r. rewrite append_nil in Hhere.
  fold (is_blank c) in Hhere. rewrite Hc in Hhere.
  destruct Hrest as [-> | (r0 & ->)]; [discriminate |].
  rewrite Ascii.eqb_refl in Hhere. discriminate.
Qed.

Lemma strip_trailing_blanks_fixed (s : string) :
  forall pending,
    all_blank pending = true ->
    no_trailing_blanks (pending +:+ s) = true ->
    strip_trailing_blanks pending s = pending +:+ s.
Proof.
  induction s as [| c r IH]; intros pending Hp H.
  - rewrite (blanks_before_line_end pending EmptyString Hp H (or_introl eq_refl)).
    reflexivity.
  - cbn [strip_trailing_blanks]. fold (is_blank c). destruct (is_blank c) eqn:Hb.
    + rewrite (IH (pending +:+ String c EmptyString)).
      * rewrite string_app_assoc. reflexivity.
      * apply all_blank_snoc; assumption.
      * rewrite string_app_assoc. exact H.
    + pose proof (no_trailing_blanks_suffix pending _ H) as Hs.
      cbn [no_trailing_blanks] in Hs. apply andb_true_iff in Hs as [_ Hr].
      rewrite (IH EmptyString eq_refl Hr), append_nil.
      destruct (Ascii.eqb c LF) eqn:Hlf; [| reflexivity].
      apply Ascii.eqb_eq in Hlf. subst c.
      rewrite (blanks_before_line_end pending (String LF r) Hp H
                 (or_intror (ex_intro _ r eq_refl))).
      reflexivity.
Qed.

Lemma normalized_cs_invariants (file content : string) :
  endswith file ".cs" = true ->
  lacks_char CR (normalized file content) = true
  /\ no_trailing_blanks (normalized file content) = true
  /\ (exists body,
        normalized file content = body +:+ lf /\ no_final_lf body = true)
  /\ normalized file (normalized file content) = normalized file content.
Proof.
  intros Hcs. unfold normalized. rewrite Hcs.
  set (replaced := py_replace (py_replace content crlf lf) cr lf).
  set (stripped := strip_trailing_blanks EmptyString replaced).
  assert (Hreplaced : lacks_char CR replaced = true)
    by (apply py_replace_cr_lacks; reflexivity).
  assert (Hstripped : lacks_char CR stripped = true)
    by (apply strip_trailing_blanks_lacks_cr; [reflexivity | exact Hreplaced]).
  assert (Hclean : no_trailing_blanks stripped = true)
    by (apply strip_trailing_blanks_clean; reflexivity).
  assert (Hcr : lacks_char CR (rstrip_lf stripped +:+ lf) = true).
  { rewrite lacks_char_app, (rstrip_lf_lacks CR stripped Hstripped). reflexivity. }
  pose proof (rstrip_lf_clean stripped Hclean) as Hntb.
  pose proof (rstrip_lf_no_final_lf stripped) as Hfinal.
  split; [exact Hcr |]. split; [exact Hntb |].
  split; [exists (rstrip_lf stripped); split; [reflexivity | exact Hfinal] |].
  unfold py_replace, crlf, cr.
  rewrite !(py_replace_from_lacks_first CR _ _ _ _ Hcr).
  rewrite (strip_trailing_blanks_fixed _ EmptyString eq_refl Hntb), append_nil.
  rewrite (rstrip_lf_back _ Hfinal). reflexivity.
Qed.

(** The text that [save_file] hashes for a [.cs] file has no carriage
    return, no blank or tab at the end of a line, and ends with exactly one
    line feed; normalizing it again gives the same text. *)
Theorem normalized_cs_text (file content : string) :
  endswith file ".cs" = true ->
  lacks_char CR (normalized file content) = true
  /\ no_trailing_blanks (normalized file content) = true
  /\ (exists body,
        normalized file content = body +:+ lf /\ no_final_lf body = true)
  /\ normalized file (normalized file content) = normalized file content.
Proof. apply normalized_cs_invariants. Qed.

Lemma normalized_cs_text_witness :
  lacks_char CR (normalized "MapPutCodec.cs" ("a  " +:+ crlf +:+ lf)) = true
  /\ no_trailing_blanks (normalized "MapPutCodec.cs" ("a  " +:+ crlf +:+ lf)) = true
  /\ (exists body,
        normalized "MapPutCodec.cs" ("a  " +:+ crlf +:+ lf) = body +:+ lf
        /\ no_final_lf body = true)
  /\ normalized "MapPutCodec.cs" (normalized "MapPutCodec.cs" ("a  " +:+ crlf +:+ lf))
     = normalized "MapPutCodec.cs" ("a  " +:+ crlf +:+ lf).
Proof.
  apply (normalized_cs_text "MapPutCodec.cs" ("a  " +:+ crlf +:+ lf)). reflexivity.
Defined.

(** ** A validator that accepts has printed nothing *)

Lemma silent_app (l1 l2 : list diag) : silent (l1 ++ l2) = silent l1 && silent l2.
Proof. destruct l1; reflexivity. Qed.

Lemma silent_nil (l : list diag) : silent l = true <-> l = [].
Proof. destruct l; split; intros H; try reflexivity; discriminate. Qed.

Lemma w_bind_ret_inv {A B : Type} (m : W A) (f : A -> W B) (b : B) (log : list diag) :
  w_bind m f = (Ret b, log) ->
  exists a l1 l2, m = (Ret a, l1) /\ f a = (Ret b, l2) /\ log = l1 ++ l2.
Proof.
  destruct m as [[a | e] l1]; cbn; [| discriminate].
  destruct (f a) as [r l2] eqn:Hf. intros H. injection H as -> <-.
  exists a, l1, l2. repeat split. exact Hf.
Qed.

Lemma w_lift_ret_inv {A : Type} (r : res A) (a : A) (l : list diag) :
  w_lift r = (Ret a, l) -> r = Ret a /\ l = [].
Proof. unfold w_lift. intros H. injection H as -> <-. split; reflexivity. Qed.

(** One flag of the validator: lowered with a printed line, or kept. *)
Lemma flag_step (c : bool) (d : diag) (flag b : bool) (l : list diag) :
  (if c then let+ _ := print d in w_ret false else w_ret flag) = (Ret b, l) ->
  b = negb c && flag /\ silent l = negb c.
Proof. destruct c; cbn; intros H; injection H as <- <-; split; reflexivity. Qed.

Ltac w_inv H :=
  let a := fresh "a" in
  let l1 := fresh "l" in
  let l2 := fresh "l" in
  let H1 := fresh "Hrun" in
  apply w_bind_ret_inv in H as (a & l1 & l2 & H1 & H & ->).

Ltac lift_inv H :=
  let Hnil := fresh "Hnil" in
  apply w_lift_ret_inv in H as [H Hnil]; rewrite Hnil in *; clear Hnil.

Ltac is_condition c :=
  match c with
  | Z.eqb _ _ => idtac
  | Z.gtb _ _ => idtac
  end.

(** Case analysis on every flag and on whether each part of the output is
    empty. *)
Ltac flag_cases :=
  repeat match goal with
         | |- context [silent ?l] => is_var l; destruct (silent l)
         end;
  repeat match goal with
         | |- context [negb ?c] => first [is_var c | is_condition c]; destruct c
         | |- context [andb ?c _] => first [is_var c | is_condition c]; destruct c
         | |- context [andb _ ?c] => first [is_var c | is_condition c]; destruct c
         end;
  reflexivity.

Lemma check_params_silent (name : string) (pvs : list Z) (params : list Param) :
  forall version is_ordered is_semantically_correct o s log,
    check_params name pvs params version is_ordered is_semantically_correct
    = (Ret (o, s), log) ->
    o && s = is_ordered && is_semantically_correct && silent log.
Proof.
  induction params as [| param rest IH];
    intros version io isc o s log H.
  - cbn in H. injection H as <- <- <-. cbn. rewrite andb_true_r. reflexivity.
  - cbn [check_params] in H.
    w_inv H. lift_inv Hrun.
    w_inv H. lift_inv Hrun0.
    w_inv H. apply flag_step in Hrun1 as [Hrun1 Hsilent1].
    w_inv H. apply flag_step in Hrun2 as [Hrun2 Hsilent2].
    apply IH in H. rewrite H, Hrun1, Hrun2.
    cbn [app]. rewrite !silent_app, Hsilent1, Hsilent2.
    flag_cases.
Qed.

Lemma is_parameters_ordered_and_semantically_correct_silent
  (since name : string) (params : list Param) (pvs : list Z) (b : bool)
  (log : list diag) :
  is_parameters_ordered_and_semantically_correct since name params pvs = (Ret b, log) ->
  b = silent log.
Proof.
  unfold is_parameters_ordered_and_semantically_correct. intros H.
  w_inv H. lift_inv Hrun.
  w_inv H. lift_inv Hrun0.
  w_inv H. w_inv H. destruct a2 as [o s]. apply check_params_silent in Hrun2.
  cbn in H. injection H as <- <-. cbn [fst snd app]. rewrite Hrun2.
  rewrite app_nil_r, silent_app. cbn [andb].
  destruct a0; cbn [negb] in Hrun1.
  - cbn in Hrun1. injection Hrun1 as <- <-. reflexivity.
  - w_inv Hrun1. lift_inv Hrun3. cbn in Hrun1. injection Hrun1 as <- <-. reflexivity.
Qed.

Lemma check_events_silent (method_name : string) (pvs : list Z) (events : list Event) :
  forall valid b log,
    check_events method_name pvs events valid = (Ret b, log) ->
    b = valid && silent log.
Proof.
  induction events as [| ev rest IH]; intros valid b log H.
  - cbn in H. injection H as <- <-. cbn. rewrite andb_true_r. reflexivity.
  - cbn [check_events] in H. w_inv H.
    apply is_parameters_ordered_and_semantically_correct_silent in Hrun.
    apply IH in H. rewrite H, Hrun, silent_app.
    flag_cases.
Qed.

Lemma check_method_silent (service_name : string) (pvs : list Z) (j : Z)
  (method : Method) (valid b : bool) (log : list diag) :
  check_method service_name pvs j method valid = (Ret b, log) ->
  b = valid && silent log.
Proof.
  unfold check_method. intros H.
  w_inv H. apply flag_step in Hrun as [Hrun Hsilent].
  w_inv H. apply is_parameters_ordered_and_semantically_correct_silent in Hrun0.
  w_inv H. apply is_parameters_ordered_and_semantically_correct_silent in Hrun1.
  apply check_events_silent in H. rewrite H, Hrun, Hrun0, Hrun1, !silent_app, Hsilent.
  flag_cases.
Qed.

Lemma check_methods_silent (service_name : string) (pvs : list Z)
  (methods : list Method) :
  forall j valid b log,
    check_methods service_name pvs j methods valid = (Ret b, log) ->
    b = valid && silent log.
Proof.
  induction methods as [| m rest IH]; intros j valid b log H.
  - cbn in H. injection H as <- <-. cbn. rewrite andb_true_r. reflexivity.
  - cbn [check_methods] in H. w_inv H. apply check_method_silent in Hrun.
    apply IH in H. rewrite H, Hrun, silent_app.
    flag_cases.
Qed.

Lemma check_service_silent (no_id_check : bool) (pvs : list Z) (i : Z)
  (service : Service) (valid b : bool) (log : list diag) :
  check_service no_id_check pvs i service valid = (Ret b, log) ->
  b = valid && silent log.
Proof.
  unfold check_service. intros H.
  destruct (negb no_id_check
            && negb (bool_decide (svc_name service ∈ ID_VALIDATOR_IGNORE_SET))).
  - w_inv H. apply flag_step in Hrun as [Hrun Hsilent]. apply check_methods_silent in H.
    rewrite H, Hrun, silent_app, Hsilent.
    flag_cases.
  - cbn in H. injection H as <- <-. cbn. rewrite andb_true_r. reflexivity.
Qed.

Section SilentValidation.

Variable jsonschema_validate : Service -> option string.

Lemma validate_against_schema_silent (service : Service) (b : bool) (log : list diag) :
  validate_against_schema jsonschema_validate service = (Ret b, log) ->
  b = silent log.
Proof.
  unfold validate_against_schema.
  destruct (jsonschema_validate service); cbn; intros H; injection H as <- <-;
    reflexivity.
Qed.

Lemma validate_services_from_silent (no_id_check : bool) (pvs : list Z)
  (services : list Service) :
  forall i valid b log,
    validate_services_from jsonschema_validate no_id_check pvs i services valid
    = (Ret b, log) ->
    b = valid && silent log.
Proof.
  induction services as [| service rest IH]; intros i valid b log H.
  - cbn in H. injection H as <- <-. cbn. rewrite andb_true_r. reflexivity.
  - cbn [validate_services_from] in H. w_inv H.
    apply validate_against_schema_silent in Hrun. rewrite silent_app, <- Hrun.
    destruct a; cbn [negb] in H.
    + w_inv H. apply check_service_silent in Hrun0. apply IH in H.
      rewrite H, Hrun0, silent_app. flag_cases.
    + cbn in H. injection H as <- <-. rewrite andb_false_r. reflexivity.
Qed.

(** Whenever [validate_services] returns, it returns [True] exactly when it
    printed nothing: every rejection comes with at least one printed line,
    and every printed line comes with a rejection. *)
Theorem validate_services_true_iff_silent (services : list Service)
  (no_id_check : bool) (protocol_versions : list Z) (b : bool) (log : list diag) :
  validate_services jsonschema_validate services no_id_check protocol_versions
  = (Ret b, log) ->
  (b = true <-> log = []).
Proof.
  unfold validate_services. intros H.
  apply validate_services_from_silent in H. rewrite H. cbn [andb].
  apply silent_nil.
Qed.

End SilentValidation.

Lemma validate_services_true_iff_silent_witness :
  validate_services demo_schema [good_service; misnumbered_service] false [20000]
  = (Ret false,
     [ServiceIdMismatch "Misnumbered" 1 7; MethodIdMismatch "Misnumbered" "get" 1 4])
  /\ (false = true
      <-> [ServiceIdMismatch "Misnumbered" 1 7; MethodIdMismatch "Misnumbered" "get" 1 4]
          = []).
Proof.
  split; [reflexivity |].
  apply (validate_services_true_iff_silent demo_schema
           [good_service; misnumbered_service] false [20000]).
  reflexivity.
Defined.

(** *** The validator of the custom types *)

Lemma check_custom_types_silent (pvs : list Z) (custom_types : list CustomType) :
  forall valid b log,
    check_custom_types pvs custom_types valid = (Ret b, log) ->
    b = valid && silent log.
Proof.
  induction custom_types as [| ct rest IH]; intros valid b log H.
  - cbn in H. injection H as <- <-. cbn. rewrite andb_true_r. reflexivity.
  - cbn [check_custom_types] in H. w_inv H.
    apply is_parameters_ordered_and_semantically_correct_silent in Hrun.
    apply IH in H. rewrite H, Hrun, silent_app. flag_cases.
Qed.

(** Whenever [validate_custom_protocol_definitions] returns, it returns
    [True] exactly when it printed nothing. *)
Theorem validate_custom_protocol_definitions_true_iff_silent
  (jsonschema_validate : Service -> option string) (definition : list Service)
  (protocol_versions : list Z) (b : bool) (log : list diag) :
  validate_custom_protocol_definitions jsonschema_validate definition protocol_versions
  = (Ret b, log) ->
  (b = true <-> log = []).
Proof.
  unfold validate_custom_protocol_definitions. intros H.
  destruct definition as [| custom_types others]; [discriminate |].
  w_inv H. apply validate_against_schema_silent in Hrun.
  rewrite <- silent_nil, silent_app, <- Hrun.
  destruct a; cbn [negb] in H.
  - destruct (svc_customTypes custom_types) as [types |]; [| discriminate].
    apply check_custom_types_silent in H. rewrite H. reflexivity.
  - cbn in H. injection H as <- <-. reflexivity.
Qed.

Lemma validate_custom_protocol_definitions_true_iff_silent_witness :
  validate_custom_protocol_definitions demo_schema [custom_document] [20000; 20100]
  = (Ret false, [SinceNotFollowing "CustomTypes" "2.3"])
  /\ (false = true <-> [SinceNotFollowing "CustomTypes" "2.3"] = []).
Proof.
  split; [reflexivity |].
  apply (validate_custom_protocol_definitions_true_iff_silent demo_schema
           [custom_document] [20000; 20100]).
  reflexivity.
Defined.

(** ** Ignored services *)

Lemma framed_ret {A : Type} (a : A) : framed (e_ret a).
Proof. intros w1 w2 H. split; [reflexivity | exact H]. Qed.

Lemma framed_lift {A : Type} (r : res A) : framed (e_lift r).
Proof. intros w1 w2 H. split; [reflexivity | exact H]. Qed.

Lemma framed_print (d : diag) : framed (e_print d).
Proof. intros w1 w2 H. split; [reflexivity | exact H]. Qed.

Lemma framed_save_file (file content : string) (mode : file_mode) :
  framed (e_save_file file content mode).
Proof. intros w1 w2 H. split; [reflexivity |]. cbn. rewrite H. reflexivity. Qed.

Lemma framed_bind {A B : Type} (m : E A) (f : A -> E B) :
  framed m -> (forall a, framed (f a)) -> framed (e_bind m f).
Proof.
  intros Hm Hf w1 w2 H. unfold e_bind.
  destruct (Hm w1 w2 H) as [Hfst Hfiles].
  destruct (m w1) as [[a1 | e1] w1'], (m w2) as [[a2 | e2] w2'];
    cbn [fst snd] in Hfst, Hfiles; try discriminate.
  - injection Hfst as <-. apply (Hf a1 w1' w2' Hfiles).
  - injection Hfst as <-. split; [reflexivity | exact Hfiles].
Qed.

Lemma framed_try (body : E unit) (handler : string -> E unit) :
  framed body -> (forall msg, framed (handler msg)) ->
  framed (try_except_NotImplementedError body handler).
Proof.
  intros Hb Hh w1 w2 H. unfold try_except_NotImplementedError.
  destruct (Hb w1 w2 H) as [Hfst Hfiles].
  destruct (body w1) as [[[] | e1] w1'], (body w2) as [[[] | e2] w2'];
    cbn [fst snd] in Hfst, Hfiles; try discriminate.
  - split; [reflexivity | exact Hfiles].
  - injection Hfst as <-. destruct e1; try (split; [reflexivity | exact Hfiles]).
    apply (Hh msg w1' w2' Hfiles).
Qed.

Section IgnoredServices.

Variable Template : Type.
Variable get_template : string -> res Template.
Variable render_method : Template -> string -> Method -> bool -> res string.
Variable language_service_ignore_list : SupportedLanguages -> option (list string).
Variable fnmatch : string -> string -> bool.
Variable file_name_generators : SupportedLanguages -> list string -> res string.

Local Abbreviation ignoring := (ignore_service_or_method language_service_ignore_list fnmatch).
Local Abbreviation services_loop :=
  (generate_services Template get_template render_method language_service_ignore_list
     fnmatch file_name_generators).
Local Abbreviation methods_loop :=
  (generate_methods Template get_template render_method language_service_ignore_list
     fnmatch file_name_generators).
Local Abbreviation ignored := (in_ignore_list language_service_ignore_list fnmatch).

Lemma framed_ignore (name : string) (lang : SupportedLanguages) :
  framed (ignoring name lang).
Proof.
  unfold ignore_service_or_method.
  destruct (language_service_ignore_list lang) as [patterns |]; [| apply framed_lift].
  destruct (existsb _ patterns); [| apply framed_ret].
  apply framed_bind; [apply framed_print | intros _; apply framed_ret].
Qed.

Lemma framed_method_try_body (lang : SupportedLanguages) (template : Template)
  (output_dir service_name : string) (method : Method) (contains : bool)
  (codec_file_name : string) :
  framed (method_try_body Template get_template render_method lang template output_dir
            service_name method contains codec_file_name).
Proof.
  unfold method_try_body. destruct (is_CPP lang);
    repeat first [ apply framed_save_file
                 | apply framed_lift
                 | apply framed_bind; [| intros ?] ].
Qed.

Lemma framed_generate_methods (lang : SupportedLanguages) (template : Template)
  (output_dir : string) (table : gmap string (gmap string bool)) (service : Service)
  (methods : list Method) :
  framed (methods_loop lang template output_dir table service methods).
Proof.
  induction methods as [| method rest IH]; [apply framed_ret |].
  cbn [generate_methods]. apply framed_bind; [| intros _; exact IH].
  unfold generate_method, ignore_method.
  apply framed_bind; [apply framed_ignore | intros [|]; [apply framed_ret |]].
  repeat (apply framed_bind; [apply framed_lift | intros ?]).
  apply framed_try; [apply framed_method_try_body | intros msg; apply framed_print].
Qed.

Lemma framed_generate_services (lang : SupportedLanguages) (template : Template)
  (output_dir : string) (table : gmap string (gmap string bool))
  (services : list Service) :
  framed (services_loop lang template output_dir table services).
Proof.
  induction services as [| service rest IH]; [apply framed_ret |].
  cbn [generate_services]. unfold ignore_service.
  apply framed_bind; [apply framed_ignore | intros ignored_here].
  apply framed_bind; [| intros _; exact IH].
  destruct ignored_here; [apply framed_ret | apply framed_generate_methods].
Qed.

(** What the loop does with an ignored service: one line, and on to the
    next service. *)
Lemma generate_services_ignored (lang : SupportedLanguages) (template : Template)
  (output_dir : string) (table : gmap string (gmap string bool))
  (service : Service) (rest : list Service) (w : world) :
  ignored lang (svc_name service) = true ->
  services_loop lang template output_dir table (service :: rest) w
  = services_loop lang template output_dir table rest
      (log (InIgnoreList (svc_name service)) w).
Proof.
  unfold in_ignore_list. intros H.
  cbn [generate_services]. unfold ignore_service, ignore_service_or_method, e_bind at 1.
  destruct (language_service_ignore_list lang) as [patterns |]; [| discriminate].
  rewrite H. reflexivity.
Qed.

Lemma generate_services_kept (lang : SupportedLanguages) (template : Template)
  (output_dir : string) (table : gmap string (gmap string bool))
  (service : Service) (rest1 rest2 : list Service) (w : world) :
  (forall w',
     fst (services_loop lang template output_dir table rest1 w')
     = fst (services_loop lang template output_dir table rest2 w')
     /\ files (snd (services_loop lang template output_dir table rest1 w'))
        = files (snd (services_loop lang template output_dir table rest2 w'))) ->
  fst (services_loop lang template output_dir table (service :: rest1) w)
  = fst (services_loop lang template output_dir table (service :: rest2) w)
  /\ files (snd (services_loop lang template output_dir table (service :: rest1) w))
     = files (snd (services_loop lang template output_dir table (service :: rest2) w)).
Proof.
  intros Hrest. cbn [generate_services]. unfold e_bind.
  destruct (ignore_service language_service_ignore_list fnmatch (svc_name service) lang w)
    as [[ignored_here | e] w1]; [| split; reflexivity].
  destruct ((if ignored_here then e_ret tt
             else methods_loop lang template output_dir table service
                    (svc_methods service)) w1) as [[[] | e] w2];
    [apply Hrest | split; reflexivity].
Qed.

(** The service loop of [generate_codecs], run with the lookup table that
    was built before it: a service of the ignore list contributes its one
    printed line and nothing else, so the outcome of the loop and the files
    it leaves are those of the loop over the other services.  The table
    itself is built from all the services, the ignored ones included; the
    statement holds for whatever table the loop is given. *)
Theorem service_loop_skips_ignored_services (lang : SupportedLanguages) (template : Template)
  (output_dir : string) (table : gmap string (gmap string bool))
  (services : list Service) (w : world) :
  fst (services_loop lang template output_dir table services w)
  = fst (services_loop lang template output_dir table
           (List.filter (fun service => negb (ignored lang (svc_name service))) services)
           w)
  /\ files (snd (services_loop lang template output_dir table services w))
     = files (snd (services_loop lang template output_dir table
                     (List.filter (fun service => negb (ignored lang (svc_name service)))
                        services)
                     w)).
Proof.
  revert w. induction services as [| service rest IH]; intros w.
  - split; reflexivity.
  - cbn [List.filter]. destruct (ignored lang (svc_name service)) eqn:Hignored;
      cbn [negb].
    + rewrite (generate_services_ignored lang template output_dir table service rest w
                 Hignored).
      destruct (IH (log (InIgnoreList (svc_name service)) w)) as [Hfst Hfiles].
      destruct (framed_generate_services lang template output_dir table
                  (List.filter (fun service => negb (ignored lang (svc_name service)))
                     rest)
                  (log (InIgnoreList (svc_name service)) w) w eq_refl)
        as [Hfst' Hfiles'].
      split; [rewrite Hfst; exact Hfst' | rewrite Hfiles; exact Hfiles'].
    + apply generate_services_kept. exact IH.
Qed.

End IgnoredServices.

(** With every service of the input in the ignore list, the loop writes
    nothing and prints one line per service, whatever the services
    contain. *)
Example all_services_ignored :
  generate_services string demo_get_template demo_render_method
    (fun _ => Some ["Map"; "Jet*"]) demo_fnmatch demo_file_name
    JAVA "codec-template.java.j2" "out" ∅ [demo_service; demo_service] empty_world
  = (Ret tt, {| files := ∅; printed := [InIgnoreList "Map"; InIgnoreList "Map"] |}).
Proof. reflexivity. Qed.

(** The table is another matter: [generate_codecs] builds it from every
    service before the loop starts, so a malformed type name in an ignored
    service still ends the generation there, although the loop alone would
    step over that service. *)
Example ignored_service_is_read_for_the_table :
  let service :=
    {| svc_name := "Map"; svc_id := 1;
       svc_methods := [method_with_request "put" 1 [mk_param "entries" "Map_String"]];
       svc_customTypes := None |} in
  generate_data_containing_requests_lookup_table 10 [service] [] = Raises ValueError
  /\ generate_services string demo_get_template demo_render_method
       (fun _ => Some ["Map"]) demo_fnmatch demo_file_name
       JAVA "codec-template.java.j2" "out" ∅ [service] empty_world
     = (Ret tt, {| files := ∅; printed := [InIgnoreList "Map"] |}).
Proof. split; vm_compute; reflexivity. Qed.

(** ** The text written for a C# artifact *)

Lemma lacks_char_drop (c : ascii) (n : nat) :
  forall s, lacks_char c s = true -> lacks_char c (drop_chars n s) = true.
Proof.
  induction n as [| n IH]; intros s H; [exact H |].
  destruct s as [| d r]; [reflexivity |]. cbn [drop_chars].
  cbn [lacks_char] in H. apply andb_true_iff in H as [_ H]. exact (IH r H).
Qed.

Lemma no_trailing_blanks_drop (n : nat) :
  forall s, no_trailing_blanks s = true -> no_trailing_blanks (drop_chars n s) = true.
Proof.
  induction n as [| n IH]; intros s H; [exact H |].
  destruct s as [| d r]; [reflexivity |]. cbn [drop_chars].
  rewrite no_trailing_blanks_cons in H. apply andb_true_iff in H as [_ H].
  exact (IH r H).
Qed.

Lemma no_final_lf_tail (c : ascii) (r : string) :
  no_final_lf (String c r) = true -> no_final_lf r = true.
Proof. destruct r; [reflexivity | intros H; exact H]. Qed.

Lemma no_final_lf_drop (n : nat) :
  forall s, no_final_lf s = true -> no_final_lf (drop_chars n s) = true.
Proof.
  induction n as [| n IH]; intros s H; [exact H |].
  destruct s as [| d r]; [reflexivity |]. cbn [drop_chars].
  exact (IH r (no_final_lf_tail d r H)).
Qed.

Lemma no_final_lf_app (p s : string) :
  s <> EmptyString -> no_final_lf (p +:+ s) = no_final_lf s.
Proof.
  intros Hs. induction p as [| c r IH]; [reflexivity |].
  rewrite append_cons. cbn [no_final_lf].
  destruct (r +:+ s) eqn:Hrs; [| exact IH].
  destruct r; [rewrite append_nil in Hrs; contradiction | discriminate].
Qed.

Lemma no_final_lf_lacks (s : string) : lacks_char LF s = true -> no_final_lf s = true.
Proof.
  induction s as [| c r IH]; intros H; [reflexivity |].
  cbn [lacks_char] in H. apply andb_true_iff in H as [Hc Hr].
  cbn [no_final_lf]. destruct r; [exact Hc | exact (IH Hr)].
Qed.

Lemma no_trailing_blanks_app_plain (p s : string) :
  lacks_char " " p = true -> lacks_char TAB p = true ->
  no_trailing_blanks (p +:+ s) = no_trailing_blanks s.
Proof.
  induction p as [| c r IH]; intros Hspace Htab; [reflexivity |].
  cbn [lacks_char] in Hspace, Htab.
  apply andb_true_iff in Hspace as [Hc1 Hr1]. apply andb_true_iff in Htab as [Hc2 Hr2].
  apply negb_true_iff in Hc1, Hc2.
  rewrite append_cons, no_trailing_blanks_cons, (IH Hr1 Hr2).
  unfold is_blank. rewrite Hc1, Hc2. reflexivity.
Qed.

Lemma prefix_app_lf (old : string) :
  lacks_char LF old = true ->
  forall s, String.prefix old (s +:+ lf) = String.prefix old s.
Proof.
  change lf with (String LF EmptyString).
  induction old as [| o old' IH]; intros Hold s.
  - destruct s; [reflexivity |]. rewrite append_cons. reflexivity.
  - cbn [lacks_char] in Hold. apply andb_true_iff in Hold as [Ho Hold'].
    apply negb_true_iff in Ho. destruct s as [| c r].
    + rewrite append_nil. cbn [String.prefix].
      destruct (ascii_dec o LF) as [-> | _]; [| reflexivity].
      rewrite Ascii.eqb_refl in Ho. discriminate.
    + rewrite append_cons. cbn [String.prefix].
      destruct (ascii_dec o c); [apply (IH Hold') | reflexivity].
Qed.

Lemma prefix_length (old : string) :
  forall s, String.prefix old s = true -> (String.length old <= String.length s)%nat.
Proof.
  induction old as [| o old' IH]; intros s H; [cbn; lia |].
  destruct s as [| c r]; [discriminate |]. cbn [String.prefix] in H.
  destruct (ascii_dec o c); [| discriminate]. specialize (IH r H). cbn. lia.
Qed.

Lemma drop_chars_app (n : nat) :
  forall s t, (n <= String.length s)%nat -> drop_chars n (s +:+ t) = drop_chars n s +:+ t.
Proof.
  induction n as [| n IH]; intros s t H; [reflexivity |].
  destruct s as [| c r]; [cbn in H; lia |]. rewrite append_cons. cbn [drop_chars].
  apply IH. cbn in H. lia.
Qed.

Section Replacement.

(** The text searched for and the text put in its place: neither is empty,
    and the second has no blank, tab, line feed or carriage return. *)
Variables (o : ascii) (old' : string) (n : ascii) (new' : string).
Hypothesis old_lf : lacks_char LF (String o old') = true.
Hypothesis new_space : lacks_char " " (String n new') = true.
Hypothesis new_tab : lacks_char TAB (String n new') = true.
Hypothesis new_lf : lacks_char LF (String n new') = true.
Hypothesis new_cr : lacks_char CR (String n new') = true.

Lemma replace_lacks_cr (fuel : nat) :
  forall s, lacks_char CR s = true ->
  lacks_char CR (py_replace_from fuel (String o old') (String n new') s) = true.
Proof.
  induction fuel as [| k IH]; intros s H; [exact H |].
  destruct s as [| c r]; [reflexivity |]. cbn [py_replace_from].
  destruct (String.prefix (String o old') (String c r)).
  - rewrite lacks_char_app, new_cr. apply IH. apply lacks_char_drop. exact H.
  - cbn [lacks_char] in *. apply andb_true_iff in H as [Hc Hr].
    rewrite Hc. exact (IH r Hr).
Qed.

(** The replaced text starts with a line feed, or is empty, only if the
    text did. *)
Lemma replace_head (fuel : nat) (s : string) :
  match py_replace_from fuel (String o old') (String n new') s with
  | EmptyString => true
  | String d _ => Ascii.eqb d LF
  end = true ->
  match s with
  | EmptyString => true
  | String d _ => Ascii.eqb d LF
  end = true.
Proof.
  destruct fuel as [| k]; [intros H; exact H |].
  destruct s as [| c r]; [reflexivity |]. cbn [py_replace_from].
  destruct (String.prefix (String o old') (String c r)); [| intros H; exact H].
  rewrite append_cons. intros H. pose proof new_lf as Hn. cbn [lacks_char] in Hn.
  apply andb_true_iff in Hn as [Hn _]. rewrite H in Hn. discriminate.
Qed.

Lemma replace_no_trailing_blanks (fuel : nat) :
  forall s, no_trailing_blanks s = true ->
  no_trailing_blanks (py_replace_from fuel (String o old') (String n new') s) = true.
Proof.
  induction fuel as [| k IH]; intros s H; [exact H |].
  destruct s as [| c r]; [reflexivity |]. cbn [py_replace_from].
  destruct (String.prefix (String o old') (String c r)).
  - rewrite (no_trailing_blanks_app_plain _ _ new_space new_tab).
    apply IH. apply no_trailing_blanks_drop. exact H.
  - rewrite no_trailing_blanks_cons in *. apply andb_true_iff in H as [Hc Hr].
    rewrite (IH r Hr), andb_true_r.
    destruct (is_blank c); [| reflexivity]. cbn [andb negb] in *.
    apply negb_true_iff in Hc. apply negb_true_iff.
    destruct (match py_replace_from k (String o old') (String n new') r with
              | EmptyString => true
              | String d _ => Ascii.eqb d LF
              end) eqn:Hhead; [| reflexivity].
    rewrite (replace_head k r Hhead) in Hc. discriminate.
Qed.

Lemma replace_empty (fuel : nat) (s : string) :
  py_replace_from fuel (String o old') (String n new') s = EmptyString ->
  s = EmptyString.
Proof.
  destruct fuel as [| k]; [intros H; exact H |].
  destruct s as [| c r]; [reflexivity |]. cbn [py_replace_from].
  destruct (String.prefix (String o old') (String c r)); [| discriminate].
  rewrite append_cons. discriminate.
Qed.

Lemma replace_no_final_lf (fuel : nat) :
  forall s, no_final_lf s = true ->
  no_final_lf (py_replace_from fuel (String o old') (String n new') s) = true.
Proof.
  induction fuel as [| k IH]; intros s H; [exact H |].
  destruct s as [| c r]; [reflexivity |]. cbn [py_replace_from].
  destruct (String.prefix (String o old') (String c r)).
  - pose proof (IH _ (no_final_lf_drop (String.length (String o old')) _ H)) as Hrest.
    destruct (py_replace_from k (String o old') (String n new')
                (drop_chars (String.length (String o old')) (String c r))) eqn:Hrec.
    + rewrite append_nil_r. apply no_final_lf_lacks. exact new_lf.
    + rewrite no_final_lf_app by discriminate. exact Hrest.
  - pose proof (IH r (no_final_lf_tail c r H)) as Hrest.
    destruct (py_replace_from k (String o old') (String n new') r) eqn:Hrec.
    + apply replace_empty in Hrec. subst r. exact H.
    + exact Hrest.
Qed.

Lemma replace_app_lf (fuel : nat) :
  forall s fuel',
    (String.length s <= fuel)%nat -> (String.length s + 1 <= fuel')%nat ->
    py_replace_from fuel' (String o old') (String n new') (s +:+ lf)
    = py_replace_from fuel (String o old') (String n new') s +:+ lf.
Proof.
  induction fuel as [| k IH]; intros s fuel' Hle Hle'.
  - destruct s; [| cbn in Hle; lia]. rewrite append_nil.
    destruct fuel' as [| k']; [lia |]. change lf with (String LF EmptyString).
    cbn [py_replace_from String.prefix].
    pose proof old_lf as Ho. cbn [lacks_char] in Ho.
    apply andb_true_iff in Ho as [Ho _]. apply negb_true_iff in Ho.
    destruct (ascii_dec o LF) as [-> | _];
      [rewrite Ascii.eqb_refl in Ho; discriminate |].
    destruct k'; reflexivity.
  - destruct fuel' as [| k']; [lia |]. destruct s as [| c r].
    + rewrite append_nil. change lf with (String LF EmptyString).
      cbn [py_replace_from String.prefix].
      pose proof old_lf as Ho. cbn [lacks_char] in Ho.
      apply andb_true_iff in Ho as [Ho _]. apply negb_true_iff in Ho.
      destruct (ascii_dec o LF) as [-> | _];
        [rewrite Ascii.eqb_refl in Ho; discriminate |].
      destruct k'; reflexivity.
    + cbn [String.length] in Hle, Hle'. rewrite append_cons.
      cbn [py_replace_from]. rewrite <- append_cons, (prefix_app_lf _ old_lf).
      destruct (String.prefix (String o old') (String c r)) eqn:Hprefix.
      * pose proof (prefix_length _ _ Hprefix) as Hlen.
        rewrite (drop_chars_app _ _ _ Hlen).
        pose proof (drop_chars_length (String.length (String o old')) (String c r))
          as Hdrop.
        cbn [String.length] in Hdrop, Hlen.
        assert (Hshort :
                  (String.length (drop_chars (String.length (String o old')) (String c r))
                   <= String.length r)%nat).
        { cbn [String.length drop_chars]. apply drop_chars_length. }
        rewrite (IH _ k') by lia. rewrite string_app_assoc. reflexivity.
      * rewrite append_cons, (IH r k') by lia. reflexivity.
Qed.

End Replacement.

Lemma hex_lacks (c : ascii) (s : string) :
  is_hex_char c = false ->
  Forall (fun d => is_hex_char d = true) (list_ascii_of_string s) ->
  lacks_char c s = true.
Proof.
  intros Hc. induction s as [| d r IH]; intros H; [reflexivity |].
  cbn [list_ascii_of_string] in H. inversion H as [| ? ? Hd Hr]; subst.
  cbn [lacks_char]. rewrite (IH Hr), andb_true_r. apply negb_true_iff.
  destruct (Ascii.eqb d c) eqn:Heq; [| reflexivity].
  apply Ascii.eqb_eq in Heq. subst d. congruence.
Qed.

Lemma artifact_text_tidy (file content : string) :
  endswith file ".cs" = true -> tidy (artifact_text file content).
Proof.
  intros Hcs. unfold artifact_text.
  destruct (normalized_cs_invariants file content Hcs)
    as (Hcr & Hntb & (body & Hbody & Hfinal) & _).
  destruct (md5_hexdigest_shape (normalized file content)) as [Hlen Hhex].
  destruct (md5_hexdigest (normalized file content)) as [| n new'] eqn:Hhash;
    [discriminate |].
  assert (Hspace : lacks_char " " (String n new') = true)
    by (apply hex_lacks; [reflexivity | exact Hhex]).
  assert (Htab : lacks_char TAB (String n new') = true)
    by (apply hex_lacks; [reflexivity | exact Hhex]).
  assert (Hlf : lacks_char LF (String n new') = true)
    by (apply hex_lacks; [reflexivity | exact Hhex]).
  assert (Hnocr : lacks_char CR (String n new') = true)
    by (apply hex_lacks; [reflexivity | exact Hhex]).
  unfold py_replace, codec_hash_token.
  split; [apply replace_lacks_cr; assumption |].
  split; [apply replace_no_trailing_blanks; assumption |].
  exists (py_replace_from (String.length body) "!codec_hash!" (String n new') body).
  split.
  - rewrite Hbody. apply replace_app_lf; [reflexivity | | ].
    + reflexivity.
    + rewrite string_length_app. cbn. lia.
  - apply replace_no_final_lf; assumption.
Qed.

(** The text [save_file] writes into a [.cs] file, with the hash in place
    of the token, has no carriage return, no blank or tab at the end of a
    line, and ends with exactly one line feed. *)
Theorem cs_artifact_is_tidy (file content : string) (files : gmap string string) :
  endswith file ".cs" = true ->
  tidy (file_text (save_file file content mode_w files) file).
Proof.
  intros Hcs. rewrite file_text_save_file. apply artifact_text_tidy. exact Hcs.
Qed.

Lemma cs_artifact_is_tidy_witness :
  tidy (file_text
          (save_file "MapPutCodec.cs" ("// !codec_hash! " +:+ crlf +:+ "class A {} " +:+ cr)
             mode_w ∅)
          "MapPutCodec.cs").
Proof.
  apply (cs_artifact_is_tidy "MapPutCodec.cs"
           ("// !codec_hash! " +:+ crlf +:+ "class A {} " +:+ cr) ∅).
  reflexivity.
Defined.

(** *** The name of a C# codec file *)








Example capitalized_name_examples :
  _capitalized_name_generator "java" ["Map"; "putAll"] = Ret "MapPutAllCodec.java"
  /\ _capitalized_name_generator "cs" ["MapPut"; "all"] = Ret "MapPutAllCodec.cs"
  /\ _capitalized_name_generator "cs" ["Map"; "putAll"] = Ret "MapPutAllCodec.cs"
  /\ _capitalized_name_generator "ts" ["Map"; ""] = Raise IndexError.
Proof. repeat split; reflexivity. Qed.

(** ** The validator returns a verdict *)

Lemma rindex_from_some (c : ascii) (s : string) :
  forall pos i, exists j, rindex_from c s pos (Some i) = Some j.
Proof.
  induction s as [| d r IH]; intros pos i; [exists i; reflexivity |].
  cbn [rindex_from]. destruct (Ascii.eqb d c); apply IH.
Qed.

Lemma rindex_from_app (c : ascii) (a b : string) :
  forall pos last, exists j, rindex_from c (a +:+ String c b) pos last = Some j.
Proof.
  induction a as [| d r IH]; intros pos last.
  - rewrite append_nil. cbn [rindex_from]. rewrite Ascii.eqb_refl.
    apply rindex_from_some.
  - rewrite append_cons. cbn [rindex_from]. apply IH.
Qed.

Lemma rindex_app (c : ascii) (a b : string) :
  exists cut, rindex (a +:+ String c b) c = Ret cut.
Proof.
  unfold rindex. destruct (rindex_from_app c a b O None) as (j & ->).
  exists j. reflexivity.
Qed.

Lemma params_parse_versions (params : list Param) :
  forallb (fun param => parses (p_since param)) params = true ->
  exists vs, Forall2 (fun p pv => get_version_as_number (p_since p) = Ret pv) params vs.
Proof.
  induction params as [| p rest IH]; intros H; [exists []; constructor |].
  cbn [forallb] in H. apply andb_true_iff in H as [Hp Hrest].
  destruct (IH Hrest) as (vs & Hvs). unfold parses in Hp.
  destruct (get_version_as_number (p_since p)) as [v |] eqn:Hv; [| discriminate].
  exists (v :: vs). constructor; assumption.
Qed.

Lemma is_parameters_ordered_and_semantically_correct_returns
  (since owner kind : string) (params : option (list Param)) (pvs : list Z) :
  pvs <> [] -> parses since = true -> params_parse params = true ->
  exists b log,
    is_parameters_ordered_and_semantically_correct since (owner +:+ String "#" kind)
      (get_params params) pvs = (Ret b, log).
Proof.
  intros Hne Hsince Hparams. unfold parses in Hsince.
  destruct (get_version_as_number since) as [v |] eqn:Hv; [| discriminate].
  destruct (params_parse_versions _ Hparams) as (vs & Hvs).
  destruct (rindex_app "#" owner kind) as (cut & Hcut).
  unfold is_parameters_ordered_and_semantically_correct.
  rewrite Hv, w_bind_lift_ret.
  rewrite (is_semantically_correct_param_returns v pvs Hne), w_bind_lift_ret.
  destruct (accepted pvs v); cbn [negb]; [| rewrite Hcut]; w_step;
    match goal with
    | |- context [check_params ?name pvs ?ps v ?io ?isc] =>
        destruct (check_params_outcome name pvs Hne ps vs Hvs v io isc)
          as (log & Hrun & _); rewrite Hrun
    end;
    w_step; do 2 eexists; reflexivity.
Qed.

Lemma check_events_returns (method_name : string) (pvs : list Z) (events : list Event) :
  pvs <> [] ->
  forallb (fun event => parses (ev_since event) && params_parse (ev_params event))
    events = true ->
  forall valid, exists b log,
    check_events method_name pvs events valid = (Ret b, log).
Proof.
  intros Hne. induction events as [| ev rest IH]; intros H valid.
  - do 2 eexists. reflexivity.
  - cbn [forallb] in H. apply andb_true_iff in H as [Hev Hrest].
    apply andb_true_iff in Hev as [Hsince Hparams].
    cbn [check_events].
    replace (method_name +:+ "#" +:+ ev_name ev +:+ "#event")
      with ((method_name +:+ "#" +:+ ev_name ev) +:+ String "#" "event")
      by (rewrite !string_app_assoc; reflexivity).
    destruct (is_parameters_ordered_and_semantically_correct_returns (ev_since ev)
                (method_name +:+ "#" +:+ ev_name ev) "event" (ev_params ev) pvs
                Hne Hsince Hparams) as (ok & l & ->).
    rewrite w_bind_pair.
    destruct (IH Hrest (if negb ok then false else valid)) as (b & l' & ->).
    do 2 eexists. reflexivity.
Qed.

Lemma check_method_returns (service_name : string) (pvs : list Z) (j : Z)
  (method : Method) (valid : bool) :
  pvs <> [] -> method_parses method = true ->
  exists b log, check_method service_name pvs j method valid = (Ret b, log).
Proof.
  intros Hne H. unfold method_parses in H.
  apply andb_true_iff in H as [H Hevents]. apply andb_true_iff in H as [H Hresponse].
  apply andb_true_iff in H as [Hsince Hrequest].
  unfold check_method.
  change ((service_name +:+ "#" +:+ m_name method) +:+ "#request")
    with ((service_name +:+ "#" +:+ m_name method) +:+ String "#" "request").
  change ((service_name +:+ "#" +:+ m_name method) +:+ "#response")
    with ((service_name +:+ "#" +:+ m_name method) +:+ String "#" "response").
  destruct (is_parameters_ordered_and_semantically_correct_returns (m_since method)
              (service_name +:+ "#" +:+ m_name method) "request"
              (msg_params (m_request method)) pvs Hne Hsince Hrequest)
    as (ok1 & l1 & Hrun1).
  destruct (is_parameters_ordered_and_semantically_correct_returns (m_since method)
              (service_name +:+ "#" +:+ m_name method) "response"
              (msg_params (m_response method)) pvs Hne Hsince Hresponse)
    as (ok2 & l2 & Hrun2).
  destruct (negb (j + 1 =? m_id method)); w_step; rewrite Hrun1, w_bind_pair,
    Hrun2, w_bind_pair;
    match goal with
    | |- context [check_events ?mn pvs ?evs ?v] =>
        destruct (check_events_returns mn pvs evs Hne Hevents v) as (b & l3 & ->)
    end;
    do 2 eexists; reflexivity.
Qed.

Lemma check_methods_returns (service_name : string) (pvs : list Z)
  (methods : list Method) :
  pvs <> [] -> forallb method_parses methods = true ->
  forall j valid, exists b log,
    check_methods service_name pvs j methods valid = (Ret b, log).
Proof.
  intros Hne. induction methods as [| m rest IH]; intros H j valid.
  - do 2 eexists. reflexivity.
  - cbn [forallb] in H. apply andb_true_iff in H as [Hm Hrest].
    cbn [check_methods].
    destruct (check_method_returns service_name pvs j m valid Hne Hm) as (b & l & ->).
    rewrite w_bind_pair.
    destruct (IH Hrest (j + 1) b) as (b' & l' & ->).
    do 2 eexists. reflexivity.
Qed.

Lemma check_service_returns (no_id_check : bool) (pvs : list Z) (i : Z)
  (service : Service) (valid : bool) :
  pvs <> [] -> service_parses service = true ->
  exists b log, check_service no_id_check pvs i service valid = (Ret b, log).
Proof.
  intros Hne H. unfold check_service.
  destruct (negb no_id_check
            && negb (bool_decide (svc_name service ∈ ID_VALIDATOR_IGNORE_SET)));
    [| do 2 eexists; reflexivity].
  destruct (negb (i =? svc_id service)); w_step;
    match goal with
    | |- context [check_methods ?sn pvs ?j ?ms ?v] =>
        destruct (check_methods_returns sn pvs ms Hne H j v) as (b & l & ->)
    end;
    do 2 eexists; reflexivity.
Qed.

Section ValidatorReturns.

Variable jsonschema_validate : Service -> option string.

Lemma validate_services_from_returns (no_id_check : bool) (pvs : list Z)
  (services : list Service) :
  pvs <> [] -> forallb service_parses services = true ->
  forall i valid, exists b log,
    validate_services_from jsonschema_validate no_id_check pvs i services valid
    = (Ret b, log).
Proof.
  intros Hne. induction services as [| service rest IH]; intros H i valid.
  - do 2 eexists. reflexivity.
  - cbn [forallb] in H. apply andb_true_iff in H as [Hs Hrest].
    cbn [validate_services_from]. unfold validate_against_schema.
    destruct (jsonschema_validate service); w_step; cbn [negb];
      [do 2 eexists; reflexivity |].
    destruct (check_service_returns no_id_check pvs i service valid Hne Hs)
      as (b & l & ->).
    rewrite w_bind_pair.
    destruct (IH Hrest (i + 1) b) as (b' & l' & ->).
    do 2 eexists. reflexivity.
Qed.

(** With at least one known protocol version, and every since value of the
    services readable as a version, [validate_services] raises nothing: it
    returns its verdict, whatever the ids, the order of the parameters and
    the schema say. *)
Theorem validate_services_returns (services : list Service) (no_id_check : bool)
  (protocol_versions : list Z) :
  protocol_versions <> [] ->
  forallb service_parses services = true ->
  exists b log,
    validate_services jsonschema_validate services no_id_check protocol_versions
    = (Ret b, log).
Proof.
  intros Hne H. apply validate_services_from_returns; assumption.
Qed.

End ValidatorReturns.

Lemma validate_services_returns_witness :
  exists b log,
    validate_services demo_schema [good_service; jet_service; misnumbered_service]
      false [20000] = (Ret b, log).
Proof.
  apply (validate_services_returns demo_schema
           [good_service; jet_service; misnumbered_service] false [20000]).
  - discriminate.
  - reflexivity.
Defined.

(** A since value that is no version makes the validator raise, after the
    lines printed so far. *)
Example unreadable_since_raises :
  validate_services demo_schema
    [ {| svc_name := "Map"; svc_id := 3;
         svc_methods := [method_since "get" 1 "2.x"]; svc_customTypes := None |} ]
    false [20000]
  = (Raise ValueError, [ServiceIdMismatch "Map" 0 3]).
Proof. reflexivity. Qed.
